(** * An immutable Merkle Patricia Trie (package [mpt]): model and properties

    The Go package keeps a trie of four node kinds in a key/value store that
    is addressed by the Keccak-256 digest of each node's encoding.  This
    development embeds the package function by function:

    - the nibble codec ([bytesToNibbles], [encodeKey], ...),
    - the node model and its codec ([Encode], [Hash], [Capped], [decodeNode]),
    - the journal ([updateLog] with [merge]),
    - the trie ([Get], [Insert], [Delete], [tryFix], [resolveHash], ...).

    Conventions of the embedding.

    - A Go [byte] is a [Byte.byte]; a [[]byte] whose being [nil] is never
      observed (keys, encodings, digests) is a [list byte]; a [[]byte] whose
      being [nil] is observed ([branchNode.target], tested by [hasTarget], and
      every value that can flow into it) is a [gobytes], an optional list.
    - A Go [node] interface value may be [nil]: it is an [option node].
    - A run-time panic (an explicit [panic], an index or slice out of range,
      a nil dereference) is the outcome [Panic]; a Go [error] result is kept
      as a value next to the node, as the source returns both.
    - [resolveHash] may write [log.cached]; the functions that reach it
      thread the receiver's journal as state.
    - The recursion of [decodeNode], [tryGet], [insert] and [delete] follows
      the store's contents, which need not be well founded; these functions
      take a fuel argument and answer [OutOfFuel] when it runs out.
    - The [encoded] and [hash] fields of a node only memoise [Encode] and
      [Hash]; no node is written to after its construction and [Cache] has no
      caller, so the two are modelled as functions of the node. *)

From Stdlib Require Import NArith Lia String.
From Stdlib Require Import Strings.Byte.
From stdpp Require Import ssreflect base option list strings gmap.

Set Warnings "-register-all,-rewrite-rw".
Open Scope N_scope.
Open Scope nat_scope.

(* ===================================================================== *)
(** ** Bytes *)
(* ===================================================================== *)

#[global] Instance byte_eq_decision : EqDecision byte := Byte.byte_eq_dec.
#[global] Instance byte_countable : Countable byte :=
  inj_countable Byte.to_N Byte.of_N Byte.of_to_N.

(** The byte of a number below 256 (and [x00] above, never reached: every
    use reduces its argument first). *)
Definition byte_of_N (n : N) : byte := default x00 (Byte.of_N n).

(** Go's [[]byte] where [nil] and the empty slice are told apart. *)
Definition gobytes : Type := option (list byte).

(** [len(b)]. *)
Definition golen (b : gobytes) : nat :=
  match b with None => 0 | Some l => length l end.

(** The contents of a slice, [nil] being empty. *)
Definition gocontent (b : gobytes) : list byte := default [] b.

(** [bytes.Equal(a, b)]: a nil slice equals an empty one. *)
Definition bytesEqual (a b : gobytes) : bool :=
  bool_decide (gocontent a = gocontent b).

(** [common.HashLength]. *)
Definition HashLength : nat := 32.

(** [common.BytesToHash]: the last 32 bytes of [b], padded with zeros on the
    left. *)
Definition BytesToHash (b : list byte) : list byte :=
  let b' := drop (length b - HashLength) b in
  replicate (HashLength - length b') x00 ++ b'.

(* ===================================================================== *)
(** ** Outcomes of a call *)
(* ===================================================================== *)

(** What stops a run. The [site] names the source expression. *)
Inductive fault : Type :=
  | Explicit (msg : string)
  | IndexOutOfRange (site : string)
  | SliceOutOfRange (site : string)
  | NilDereference (site : string).

(** Go [error] values the package produces. *)
Inductive error : Type :=
  | ErrUnexpectedEOF
  | ErrUnknownNodeType (flag : byte)
  | ErrUnmarshal
  | ErrDeleted.

Inductive outcome (A : Type) : Type :=
  | Ok (a : A)
  | Panic (f : fault)
  | OutOfFuel.
Arguments Ok {A} a.
Arguments Panic {A} f.
Arguments OutOfFuel {A}.

#[global] Instance fault_eq_decision : EqDecision fault.
Proof. solve_decision. Defined.
#[global] Instance outcome_eq_decision {A} `{EqDecision A} :
  EqDecision (outcome A).
Proof. solve_decision. Defined.

#[global] Instance outcome_ret : MRet outcome := @Ok.
#[global] Instance outcome_bind : MBind outcome := fun A B f m =>
  match m with
  | Ok a => f a
  | Panic p => Panic p
  | OutOfFuel => OutOfFuel
  end.

(** [l[i]]. *)
Definition index {A} (site : string) (l : list A) (i : nat) : outcome A :=
  match l !! i with
  | Some x => Ok x
  | None => Panic (IndexOutOfRange site)
  end.

(* ===================================================================== *)
(** ** Nibble codec (encoding.go) *)
(* ===================================================================== *)

(** [hi<<4 | lo] on bytes: the shift drops the bits above the eighth. *)
Definition pack (hi lo : byte) : byte :=
  byte_of_N (N.lor ((Byte.to_N hi * 16) mod 256) (Byte.to_N lo)).

(** The loop reads [nibbles[ni]] and [nibbles[ni+1]] for ni = 0, 2, ...: an
    odd length ends in an index out of range. *)
Fixpoint nibblesToBytes (nibbles : list byte) : outcome (list byte) :=
  match nibbles with
  | [] => Ok []
  | [_] => Panic (IndexOutOfRange "nibblesToBytes: nibbles[ni+1]")
  | hi :: lo :: rest =>
      bytes ← nibblesToBytes rest;
      Ok (pack hi lo :: bytes)
  end.

Fixpoint bytesToNibbles (bytes : list byte) : list byte :=
  match bytes with
  | [] => []
  | b :: rest =>
      byte_of_N (Byte.to_N b / 16) :: byte_of_N (Byte.to_N b mod 16)
        :: bytesToNibbles rest
  end.

Definition leafType : byte := x00.
Definition leafWithPad : byte := x10.
Definition extType : byte := x01.
Definition extWithPad : byte := x11.
Definition branchType : byte := x02.

(** [flag & 0x0f]. *)
Definition lowNibble (flag : byte) : byte :=
  byte_of_N (N.land (Byte.to_N flag) 15).

(** [flag >> 4]. *)
Definition highNibble (flag : byte) : byte :=
  byte_of_N (Byte.to_N flag / 16).

Definition encodeKey (nibbles : list byte) (nodeType : byte)
  : outcome (list byte * byte) :=
  let needPad := if decide (length nibbles mod 2 ≠ 0) then 1%N else 0%N in
  let padded :=
    if decide (length nibbles mod 2 ≠ 0) then nibbles ++ [x00] else nibbles in
  let flag :=
    byte_of_N (N.lor ((needPad * 16) mod 256) (Byte.to_N nodeType)) in
  bytes ← nibblesToBytes padded;
  Ok (bytes, flag).

Definition decodeKey (flag : byte) (bytes : list byte)
  : outcome (list byte * byte) :=
  let nibbles := bytesToNibbles bytes in
  if decide (highNibble flag = x01) then
    match nibbles with
    | [] => Panic (SliceOutOfRange "decodeKey: nibbles[0:len(nibbles)-1]")
    | _ => Ok (take (length nibbles - 1) nibbles, lowNibble flag)
    end
  else Ok (nibbles, lowNibble flag).

Fixpoint matchingLength (a b : list byte) : nat :=
  match a, b with
  | x :: a', y :: b' => if decide (x = y) then S (matchingLength a' b') else 0
  | _, _ => 0
  end.

(** A nibble is a byte below 16. *)
Definition is_nibble (b : byte) : Prop := (Byte.to_N b < 16)%N.

(* ===================================================================== *)
(** ** What the package takes from outside *)
(* ===================================================================== *)

(** The digest ([crypto.Keccak256]) and the protobuf codec of the three
    messages [LeafNode {Key, Value}], [ExtNode {Key, Node}] and
    [BranchNode {Children, Target}] ([proto.Marshal], [proto.Unmarshal]);
    an unmarshalling that fails answers [None]. *)
Class Primitives : Type := {
  Keccak256 : list byte → list byte;
  marshalLeaf : list byte → gobytes → list byte;
  unmarshalLeaf : list byte → option (list byte * gobytes);
  marshalExt : list byte → list byte → list byte;
  unmarshalExt : list byte → option (list byte * list byte);
  marshalBranch : list (list byte) → gobytes → list byte;
  unmarshalBranch : list byte → option (list (list byte) * gobytes);
}.

(* ===================================================================== *)
(** ** Nodes (node.go) *)
(* ===================================================================== *)

Inductive node : Type :=
  | leafNode (key : list byte) (value : gobytes)
  | extNode (key : list byte) (child : option node)
  | branchNode (children : list (option node)) (target : gobytes)
  | hashNode (hash : list byte).

(** The zero value of [[16]node]. *)
Definition noChildren : list (option node) := replicate 16 None.

Definition branchWithTarget (target : gobytes) : node :=
  branchNode noChildren target.

(** [b.children[pos] = n] on the 16 slots. *)
Definition setChild (site : string) (children : list (option node))
    (pos : nat) (n : option node) : outcome (list (option node)) :=
  if decide (pos < length children) then Ok (<[pos:=n]> children)
  else Panic (IndexOutOfRange site).

Definition branchWithChild (pos : nat) (n : option node) (target : gobytes)
  : outcome node :=
  children ← setChild "branchWithChild: b.children[pos]" noChildren pos n;
  Ok (branchNode children target).

Definition branchWithChildren (children : list (option node)) : node :=
  branchNode children None.

Definition updateTarget (children : list (option node)) (target : gobytes)
  : node :=
  branchNode children target.

Definition updateChild (children : list (option node)) (target : gobytes)
    (pos : nat) (child : option node) : outcome node :=
  children' ← setChild "updateChild: b.children[pos]" children pos child;
  Ok (branchNode children' target).

(** The occupied slots, in increasing order. *)
Fixpoint childrenIndexFrom (i : nat) (children : list (option node))
  : list nat :=
  match children with
  | [] => []
  | None :: rest => childrenIndexFrom (S i) rest
  | Some _ :: rest => i :: childrenIndexFrom (S i) rest
  end.

Definition childrenIndex (children : list (option node)) : list nat :=
  childrenIndexFrom 0 children.

Definition hasTarget (target : gobytes) : bool :=
  match target with Some _ => true | None => false end.

Definition newExtNode (key : list byte) (child : option node) : node :=
  extNode key child.

Definition newLeafNode (key : list byte) (value : gobytes) : node :=
  leafNode key value.

Section Nodes.
Context `{Primitives}.

(** [crypto.Keccak256Hash]: a [common.Hash], 32 bytes by its type. *)
Definition Keccak256Hash (data : list byte) : list byte :=
  BytesToHash (Keccak256 data).

(** [Capped] of a node whose [Encode] gave [encoded]. A hash node answers
    its hash whatever its length. *)
Definition cappedOf (n : node) (encoded : list byte) : list byte :=
  match n with
  | hashNode hash => hash
  | _ =>
      if decide (length encoded < HashLength) then encoded
      else Keccak256Hash encoded
  end.

Fixpoint Encode (n : node) : outcome (list byte) :=
  match n with
  | leafNode key value =>
      '(keyBytes, flag) ← encodeKey key leafType;
      Ok (marshalLeaf keyBytes value ++ [flag])
  | extNode key child =>
      capped ← match child with
               | None => Panic (NilDereference "extNode.Encode: n.child.Capped()")
               | Some c => encoded ← Encode c; Ok (cappedOf c encoded)
               end;
      '(keyBytes, flag) ← encodeKey key extType;
      Ok (marshalExt keyBytes capped ++ [flag])
  | branchNode children target =>
      rawChildren ←
        (fix each (l : list (option node)) : outcome (list (list byte)) :=
           match l with
           | [] => Ok []
           | None :: rest => raws ← each rest; Ok ([] :: raws)
           | Some c :: rest =>
               encoded ← Encode c;
               raws ← each rest;
               Ok (cappedOf c encoded :: raws)
           end) children;
      Ok (marshalBranch rawChildren target ++ [branchType])
  | hashNode hash => Ok hash
  end.

Definition Capped (n : node) : outcome (list byte) :=
  encoded ← Encode n; Ok (cappedOf n encoded).

Definition Hash (n : node) : outcome (list byte) :=
  match n with
  | hashNode hash => Ok (BytesToHash hash)
  | _ => encoded ← Encode n; Ok (Keccak256Hash encoded)
  end.

(** A decoder answers a node and an error, either of which may be nil. *)
Definition decoded : Type := option node * option error.

Definition decodeLeafNode (bytes : list byte) (flag : byte)
  : outcome decoded :=
  match unmarshalLeaf bytes with
  | None => Ok (None, Some ErrUnmarshal)
  | Some (rawKey, rawValue) =>
      '(keyNibbles, _) ← decodeKey flag rawKey;
      Ok (Some (leafNode keyNibbles rawValue), None)
  end.

Definition decodeExtNode (decodeNode : list byte → outcome decoded)
    (bytes : list byte) (flag : byte) : outcome decoded :=
  match unmarshalExt bytes with
  | None => Ok (None, Some ErrUnmarshal)
  | Some (rawKey, rawNode) =>
      '(keyNibbles, _) ← decodeKey flag rawKey;
      if decide (length rawNode = HashLength) then
        Ok (Some (extNode keyNibbles (Some (hashNode rawNode))), None)
      else
        '(child, err) ← decodeNode rawNode;
        Ok (Some (extNode keyNibbles child), err)
  end.

(** The loop of [decodeBranchNode] from slot [i] on: [err] is whatever the
    last inline child left in it. *)
Fixpoint decodeChildren (decodeNode : list byte → outcome decoded)
    (i : nat) (raw : list (list byte)) (children : list (option node))
    (err : option error) : outcome (list (option node) * option error) :=
  match raw with
  | [] => Ok (children, err)
  | child :: rest =>
      if decide (length child = 0) then
        children' ← setChild "decodeBranchNode: n.children[i]" children i None;
        decodeChildren decodeNode (S i) rest children' err
      else if decide (length child = HashLength) then
        children' ← setChild "decodeBranchNode: n.children[i]" children i
                      (Some (hashNode child));
        decodeChildren decodeNode (S i) rest children' err
      else
        '(n, err') ← decodeNode child;
        children' ← setChild "decodeBranchNode: n.children[i]" children i n;
        decodeChildren decodeNode (S i) rest children' err'
  end.

Definition decodeBranchNode (decodeNode : list byte → outcome decoded)
    (bytes : list byte) : outcome decoded :=
  match unmarshalBranch bytes with
  | None => Ok (None, Some ErrUnmarshal)
  | Some (rawChildren, rawTarget) =>
      '(children, err) ← decodeChildren decodeNode 0 rawChildren noChildren None;
      Ok (Some (branchNode children rawTarget), err)
  end.

Fixpoint decodeNode (fuel : nat) (bytes : list byte) : outcome decoded :=
  match fuel with
  | 0 => OutOfFuel
  | S fuel' =>
      if decide (length bytes ≤ 1) then Ok (None, Some ErrUnexpectedEOF)
      else
        let flag := default x00 (last bytes) in
        let raw := take (length bytes - 1) bytes in
        let tag := lowNibble flag in
        if decide (tag = leafType) then decodeLeafNode raw flag
        else if decide (tag = extType) then
          decodeExtNode (decodeNode fuel') raw flag
        else if decide (tag = branchType) then
          decodeBranchNode (decodeNode fuel') raw
        else Ok (None, Some (ErrUnknownNodeType flag))
  end.

End Nodes.

(* ===================================================================== *)
(** ** The journal (update_log.go) *)
(* ===================================================================== *)

Record updateLog : Type := mkLog {
  cached : gmap (list byte) (list byte);
  inserted : gmap (list byte) (list byte);
  deleted : gmap (list byte) (list byte);
}.

Definition newUpdateLog : updateLog := mkLog ∅ ∅ ∅.

Module Log.
(** The methods of [*updateLog]; each answers the journal it leaves. *)

Definition cache (log : updateLog) (key value : list byte) : updateLog :=
  mkLog (<[key:=value]> (cached log)) (inserted log) (deleted log).

Definition insert (log : updateLog) (key value : list byte) : updateLog :=
  mkLog (delete key (cached log))
        (<[key:=value]> (inserted log))
        (delete key (deleted log)).

Definition delete (log : updateLog) (key : list byte) : updateLog :=
  mkLog (base.delete key (cached log))
        (base.delete key (inserted log))
        (<[key:=[]]> (deleted log)).

(** A new journal with the same entries; a deleted key maps to [[]byte{}]
    again. *)
Definition copy (log : updateLog) : updateLog :=
  mkLog (cached log) (inserted log) ((λ _, []) <$> deleted log).
End Log.

(** [operationResult]; [insertResult] embeds it as it is. Its two lists are
    named [opInserted] and [opDeleted] here, the journal having maps of the
    same names. *)
Record operationResult : Type := mkResult {
  newNode : option node;
  opInserted : list node;
  opDeleted : list node;
}.

Definition newOperationResult (n : option node) : operationResult :=
  mkResult n [] [].

Module Res.
(** [res.delete(n)] and [res.insert(n)]: a nil node is skipped. *)
Definition delete (res : operationResult) (n : option node)
  : operationResult :=
  match n with
  | Some n' => mkResult (newNode res) (opInserted res) (opDeleted res ++ [n'])
  | None => res
  end.

Definition insert (res : operationResult) (n : option node)
  : operationResult :=
  match n with
  | Some n' => mkResult (newNode res) (opInserted res ++ [n']) (opDeleted res)
  | None => res
  end.

(** [result.newNode = n]. *)
Definition setNewNode (res : operationResult) (n : option node)
  : operationResult :=
  mkResult n (opInserted res) (opDeleted res).
End Res.

Definition newInsertResult (n : option node) : operationResult :=
  newOperationResult n.

Record deleteResult : Type := mkDeleteResult {
  operation : operationResult;
  hasChanged : bool;
}.

Definition newDeleteResult (n : option node) (changed : bool) : deleteResult :=
  mkDeleteResult (newOperationResult n) changed.

Section Journal.
Context `{Primitives}.

(** [EmptyHash], the root of the empty trie. *)
Definition EmptyHash : list byte := Keccak256Hash [].

(** The first loop of [merge]. *)
Fixpoint mergeDeleted (log : updateLog) (oldRootHash : list byte)
    (nodes : list node) : outcome updateLog :=
  match nodes with
  | [] => Ok log
  | n :: rest =>
      capped ← Capped n;
      vh ← Hash n;
      if decide (length capped = HashLength ∨ vh = oldRootHash)
      then mergeDeleted (Log.delete log vh) oldRootHash rest
      else mergeDeleted log oldRootHash rest
  end.

(** The second loop of [merge]. *)
Fixpoint mergeInserted (log : updateLog) (newRootNode : option node)
    (nodes : list node) : outcome updateLog :=
  match nodes with
  | [] => Ok log
  | n :: rest =>
      capped ← Capped n;
      newRootCapped ← match newRootNode with
                      | None => Ok EmptyHash
                      | Some r => Capped r
                      end;
      if decide (length capped = HashLength ∨ capped = newRootCapped)
      then
        h ← Hash n;
        encoded ← Encode n;
        mergeInserted (Log.insert log h encoded) newRootNode rest
      else mergeInserted log newRootNode rest
  end.

Definition merge (log : updateLog) (oldRootHash : list byte)
    (newRootNode : option node) (deletedNodes insertedNodes : list node)
  : outcome updateLog :=
  log' ← mergeDeleted log oldRootHash deletedNodes;
  mergeInserted log' newRootNode insertedNodes.

(** The result handed over is never nil at the two call sites. *)
Definition mergeFromInsertResult (log : updateLog) (oldRootHash : list byte)
    (result : operationResult) : outcome updateLog :=
  merge (Log.copy log) oldRootHash (newNode result)
    (opDeleted result) (opInserted result).

Definition mergeFromDeleteResult (log : updateLog) (oldRootHash : list byte)
    (result : deleteResult) : outcome updateLog :=
  merge (Log.copy log) oldRootHash (newNode (operation result))
    (opDeleted (operation result)) (opInserted (operation result)).

End Journal.

(* ===================================================================== *)
(** ** The trie (trie.go) *)
(* ===================================================================== *)

(** The backing store ([ethdb.KeyValueStore]) as its contents: [Get] on a
    missing key answers an error. A handle's [db] field is a reference to
    the store all handles share, so each operation below takes the store's
    contents at the time of the call. *)
Definition store : Type := gmap (list byte) (list byte).

(** A handle: [t.rootHash] and the journal [t.log] points to. *)
Record Trie : Type := mkTrie {
  rootHash : list byte;
  log : updateLog;
}.

Definition NewTrie (root : list byte) : Trie := mkTrie root newUpdateLog.

(** A method that may write the receiver's journal on its way. *)
Definition M (A : Type) : Type := updateLog → updateLog * outcome A.

#[global] Instance M_ret : MRet M := fun A a lg => (lg, Ok a).
#[global] Instance M_bind : MBind M := fun A B f m lg =>
  match m lg with
  | (lg', Ok a) => f a lg'
  | (lg', Panic p) => (lg', Panic p)
  | (lg', OutOfFuel) => (lg', OutOfFuel)
  end.

(** A call that leaves the journal alone. *)
Definition pure {A} (o : outcome A) : M A := fun lg => (lg, o).

Definition panic {A} (msg : string) : M A := pure (Panic (Explicit msg)).

Section Trie.
Context `{Primitives}.
Variable db : store.

(** [fetchFromDB]: the bytes are cached once they have decoded. *)
Definition fetchFromDB (fuel : nat) (hash : list byte) : M decoded :=
  fun lg =>
    match db !! hash with
    | None => (lg, Panic (Explicit "fetchFromDB: get from db failed"))
    | Some encoded =>
        if decide (length encoded = 0)
        then (lg, Panic (Explicit "fetchFromDB: get from db failed"))
        else
          match decodeNode fuel encoded with
          | Ok (n, None) => (Log.cache lg hash encoded, Ok (n, None))
          | Ok (_, Some _) =>
              (lg, Panic (Explicit "fetchFromDB: decodeNode failed"))
          | Panic p => (lg, Panic p)
          | OutOfFuel => (lg, OutOfFuel)
          end
    end.

Definition resolveHash (fuel : nat) (hash : list byte) : M decoded :=
  fun lg =>
    match deleted lg !! hash with
    | Some _ => (lg, Ok (None, Some ErrDeleted))
    | None =>
        match inserted lg !! hash with
        | Some bytes => (lg, decodeNode fuel bytes)
        | None =>
            match cached lg !! hash with
            | Some bytes => (lg, decodeNode fuel bytes)
            | None => fetchFromDB fuel hash lg
            end
        end
    end.

Fixpoint tryGet (fuel : nat) (startNode : option node)
    (searchKey : list byte) : M gobytes :=
  match fuel with
  | 0 => pure OutOfFuel
  | S fuel' =>
      match startNode with
      | Some (leafNode key value) =>
          if decide (searchKey = key) then mret value else mret None
      | Some (extNode key child) =>
          if decide (length searchKey < length key) then mret None
          else if decide (take (length key) searchKey = key)
          then tryGet fuel' child (drop (length key) searchKey)
          else mret None
      | Some (branchNode children target) =>
          match searchKey with
          | [] => mret target
          | p :: rest =>
              child ← pure (index "tryGet: n.children[searchKey[0]]"
                              children (Byte.to_nat p));
              tryGet fuel' child rest
          end
      | Some (hashNode hash) =>
          h ← pure (Hash (hashNode hash));
          '(resolved, err) ← resolveHash fuel' h;
          match err with
          | Some _ => mret None
          | None => tryGet fuel' resolved searchKey
          end
      | None => mret None
      end
  end.

Definition Get (root : list byte) (fuel : nat) (key : list byte)
  : M gobytes :=
  if decide (root = EmptyHash) then mret None
  else
    '(rootNode, err) ← resolveHash fuel root;
    match err with
    | Some _ => mret None
    | None => tryGet fuel rootNode (bytesToNibbles key)
    end.

End Trie.

Section TrieUpdate.
Context `{Primitives}.
Variable db : store.

(** The journal the receiver holds at this point. *)
Definition currentLog : M updateLog := fun lg => (lg, Ok lg).

(** The result of [insert] or [delete] on a nil node is a nil result,
    which every caller dereferences at once. *)
Definition nilResult {A} : M A :=
  pure (Panic (NilDereference "result of insert/delete on a nil node")).

Definition insertToLeaf
    (insert : option node → list byte → gobytes → M operationResult)
    (key : list byte) (leafValue : gobytes)
    (searchKey : list byte) (value : gobytes) : M operationResult :=
  let leaf := leafNode key leafValue in
  let ml := matchingLength searchKey key in
  if decide (ml = length searchKey ∧ ml = length key) then
    let newLeaf := newLeafNode searchKey value in
    let result := newInsertResult (Some newLeaf) in
    let result := Res.delete result (Some leaf) in
    mret (Res.insert result (Some newLeaf))
  else if decide (ml = 0) then
    '(tempBranch, maybeLeaf) ←
      match key with
      | [] => mret (branchWithTarget leafValue, None)
      | k0 :: key' =>
          let maybeLeaf := newLeafNode key' leafValue in
          b ← pure (branchWithChild (Byte.to_nat k0) (Some maybeLeaf) None);
          mret (b, Some maybeLeaf)
      end;
    result ← insert (Some tempBranch) searchKey value;
    let result := Res.delete result (Some leaf) in
    mret (Res.insert result maybeLeaf)
  else
    let tempNode :=
      if decide (ml = length key) then branchWithTarget leafValue
      else newLeafNode (drop ml key) leafValue in
    result ← insert (Some tempNode) (drop ml searchKey) value;
    let tempExtNode := newExtNode (take ml key) (newNode result) in
    let result := Res.setNewNode result (Some tempExtNode) in
    let result := Res.delete result (Some leaf) in
    mret (Res.insert result (Some tempExtNode)).

Definition insertToExt
    (insert : option node → list byte → gobytes → M operationResult)
    (key : list byte) (child : option node)
    (searchKey : list byte) (value : gobytes) : M operationResult :=
  let ext := extNode key child in
  let ml := matchingLength searchKey key in
  if decide (ml = 0) then
    '(tempBranch, maybeChild) ←
      match key with
      | [k0] =>
          b ← pure (branchWithChild (Byte.to_nat k0) child None);
          mret (b, None)
      | k0 :: key' =>
          let newExt := newExtNode key' child in
          b ← pure (branchWithChild (Byte.to_nat k0) (Some newExt) None);
          mret (b, Some newExt)
      | [] => pure (Panic (SliceOutOfRange "insertToExt: ext.key[1:]"))
      end;
    result ← insert (Some tempBranch) searchKey value;
    let result := Res.insert result maybeChild in
    mret (Res.delete result (Some ext))
  else if decide (ml = length key) then
    result ← insert child (drop ml searchKey) value;
    let newExt := newExtNode key (newNode result) in
    let result := Res.setNewNode result (Some newExt) in
    let result := Res.insert result (Some newExt) in
    mret (Res.delete result (Some ext))
  else
    let tempExt := newExtNode (drop ml key) child in
    result ← insert (Some tempExt) (drop ml searchKey) value;
    let newExt := newExtNode (take ml key) (newNode result) in
    let result := Res.setNewNode result (Some newExt) in
    let result := Res.insert result (Some newExt) in
    mret (Res.delete result (Some ext)).

Definition insertToBranch
    (insert : option node → list byte → gobytes → M operationResult)
    (children : list (option node)) (target : gobytes)
    (searchKey : list byte) (value : gobytes) : M operationResult :=
  let branch := branchNode children target in
  match searchKey with
  | [] =>
      let newBranch := updateTarget children value in
      let result := newInsertResult (Some newBranch) in
      let result := Res.insert result (Some newBranch) in
      mret (Res.delete result (Some branch))
  | p :: rest =>
      let pos := Byte.to_nat p in
      child ← pure (index "insertToBranch: branch.children[pos]" children pos);
      match child with
      | Some _ =>
          result ← insert child rest value;
          newBranch ← pure (updateChild children target pos (newNode result));
          let result := Res.setNewNode result (Some newBranch) in
          let result := Res.insert result (Some newBranch) in
          mret (Res.delete result (Some branch))
      | None =>
          let newLeaf := newLeafNode rest value in
          newBranch ← pure (updateChild children target pos (Some newLeaf));
          let result := newInsertResult (Some newBranch) in
          let result := Res.insert result (Some newBranch) in
          let result := Res.insert result (Some newLeaf) in
          mret (Res.delete result (Some branch))
      end
  end.

Fixpoint insert (fuel : nat) (startNode : option node)
    (searchKey : list byte) (value : gobytes) : M operationResult :=
  match fuel with
  | 0 => pure OutOfFuel
  | S fuel' =>
      match startNode with
      | Some (leafNode key leafValue) =>
          insertToLeaf (insert fuel') key leafValue searchKey value
      | Some (extNode key child) =>
          insertToExt (insert fuel') key child searchKey value
      | Some (branchNode children target) =>
          insertToBranch (insert fuel') children target searchKey value
      | Some (hashNode hash) =>
          h ← pure (Hash (hashNode hash));
          '(resolved, err) ← resolveHash db fuel' h;
          match err with
          | Some _ => panic "insert: can't resolve hashNode"
          | None => insert fuel' resolved searchKey value
          end
      | None => nilResult
      end
  end.

(** [newRootNode.Hash()]. *)
Definition hashOf (site : string) (n : option node) : outcome (list byte) :=
  match n with
  | Some n' => Hash n'
  | None => Panic (NilDereference site)
  end.

(** The first half of [Insert]: [result], and with it [newRootNode], from
    the empty trie or from the resolved root. *)
Definition insertAtRoot (root : list byte) (fuel : nat)
    (searchKey : list byte) (value : gobytes) : M operationResult :=
  if decide (root = EmptyHash) then
    let newRootNode := newLeafNode searchKey value in
    let result := newInsertResult (Some newRootNode) in
    mret (Res.insert result (Some newRootNode))
  else
    '(rootNode, err) ← resolveHash db fuel root;
    match err with
    | Some _ => panic "Insert: can't resolve rootHash"
    | None => insert fuel rootNode searchKey value
    end.

Definition Insert (root : list byte) (fuel : nat)
    (key : list byte) (value : gobytes) : M Trie :=
  let searchKey := bytesToNibbles key in
  result ← insertAtRoot root fuel searchKey value;
  newRootHash ← pure (hashOf "Insert: newRootNode.Hash()" (newNode result));
  lg ← currentLog;
  newLog ← pure (mergeFromInsertResult lg root result);
  mret (mkTrie newRootHash newLog).

End TrieUpdate.

Section TrieDelete.
Context `{Primitives}.
Variable db : store.

Fixpoint getNodeFrom (nodes : list node) (hash : list byte)
  : outcome (option node) :=
  match nodes with
  | [] => Ok None
  | n :: rest =>
      h ← Hash n;
      if decide (h = hash) then Ok (Some n) else getNodeFrom rest hash
  end.

(** [concat]: the bytes of [a] followed by those of [b]. *)
Definition concat (a b : list byte) : list byte := a ++ b.

Definition tryFixExt (fuel : nat) (key : list byte) (extChild : option node)
    (updates : list node) : M (option node) :=
  let ext := extNode key extChild in
  child ←
    match extChild with
    | Some (hashNode hash) =>
        h ← pure (Hash (hashNode hash));
        found ← pure (getNodeFrom updates h);
        match found with
        | Some _ => mret found
        | None =>
            '(resolved, err) ← resolveHash db fuel h;
            match err with
            | Some _ =>
                panic "tryFixExt: can't resolve child, maybe because of can't get node from updates"
            | None => mret resolved
            end
        end
    | other => mret other
    end;
  match child with
  | Some (extNode key' child') =>
      mret (Some (newExtNode (concat key key') child'))
  | Some (leafNode key' value') =>
      mret (Some (newLeafNode (concat key key') value'))
  | _ => mret (Some ext)
  end.

(** [tryFix(tempExtNode, updates)] on the extension just built is
    [tryFixExt]. *)
Definition tryFixBranch (fuel : nat) (children : list (option node))
    (target : gobytes) (updates : list node) : M (option node) :=
  let branch := branchNode children target in
  let idxs := childrenIndex children in
  if decide (length idxs = 0 ∧ hasTarget target = true) then
    mret (Some (newLeafNode [] target))
  else if decide (length idxs = 1 ∧ hasTarget target = false) then
    idx ← pure (index "tryFixBranch: index[0]" idxs 0);
    child ← pure (index "tryFixBranch: branch.children[idx]" children idx);
    tryFixExt fuel [byte_of_N (N.of_nat idx mod 256)] child updates
  else if decide (length idxs = 0 ∧ hasTarget target = false) then
    panic "tryFixBranch: invalid branch state, no children and no target"
  else mret (Some branch).

Definition tryFix (fuel : nat) (startNode : option node)
    (updates : list node) : M (option node) :=
  match startNode with
  | Some (branchNode children target) =>
      tryFixBranch fuel children target updates
  | Some (extNode key child) => tryFixExt fuel key child updates
  | other => mret other
  end.

Definition deleteFromLeaf (key : list byte) (leafValue : gobytes)
    (searchKey : list byte) : M deleteResult :=
  let leaf := leafNode key leafValue in
  if decide (searchKey = key) then
    let result := newDeleteResult None true in
    mret (mkDeleteResult (Res.delete (operation result) (Some leaf))
            (hasChanged result))
  else mret (newDeleteResult None false).

Definition deleteFromExt
    (delete : option node → list byte → M deleteResult) (fuel : nat)
    (key : list byte) (child : option node) (searchKey : list byte)
  : M deleteResult :=
  let ext := extNode key child in
  let ml := matchingLength key searchKey in
  if decide (ml ≠ length key) then mret (newDeleteResult None false)
  else
    result ← delete child (drop ml searchKey);
    if negb (hasChanged result) then mret result
    else
      let toFixed := newExtNode key (newNode (operation result)) in
      fixedNode ← tryFix fuel (Some toFixed) (opInserted (operation result));
      let op := Res.setNewNode (operation result) fixedNode in
      let op := Res.insert op fixedNode in
      let op := Res.delete op (Some ext) in
      mret (mkDeleteResult op (hasChanged result)).

Definition deleteFromBranch
    (delete : option node → list byte → M deleteResult) (fuel : nat)
    (children : list (option node)) (target : gobytes)
    (searchKey : list byte) : M deleteResult :=
  let branch := branchNode children target in
  match searchKey with
  | [] =>
      if hasTarget target then
        fixedNode ← tryFix fuel (Some (branchWithChildren children)) [];
        let result := newDeleteResult fixedNode true in
        let op := Res.insert (operation result) fixedNode in
        let op := Res.delete op (Some branch) in
        mret (mkDeleteResult op (hasChanged result))
      else mret (newDeleteResult None false)
  | p :: rest =>
      let childIndex := Byte.to_nat p in
      child ← pure (index "deleteFromBranch: branch.children[childIndex]"
                      children childIndex);
      match child with
      | None => mret (newDeleteResult None false)
      | Some _ =>
          result ← delete child rest;
          if negb (hasChanged result) then mret result
          else
            tempBranch ← pure (updateChild children target childIndex
                                 (newNode (operation result)));
            fixedNode ← tryFix fuel (Some tempBranch)
                          (opInserted (operation result));
            let op := Res.setNewNode (operation result) fixedNode in
            let op := Res.insert op fixedNode in
            let op := Res.delete op (Some branch) in
            mret (mkDeleteResult op (hasChanged result))
      end
  end.

Fixpoint delete (fuel : nat) (startNode : option node)
    (searchKey : list byte) : M deleteResult :=
  match fuel with
  | 0 => pure OutOfFuel
  | S fuel' =>
      match startNode with
      | Some (leafNode key leafValue) => deleteFromLeaf key leafValue searchKey
      | Some (extNode key child) =>
          deleteFromExt (delete fuel') fuel' key child searchKey
      | Some (branchNode children target) =>
          deleteFromBranch (delete fuel') fuel' children target searchKey
      | Some (hashNode hash) =>
          h ← pure (Hash (hashNode hash));
          '(resolved, err) ← resolveHash db fuel' h;
          match err with
          | Some _ => panic "delete: can't resolve hashNode"
          | None => delete fuel' resolved searchKey
          end
      | None => nilResult
      end
  end.

(** Where the source answers [t] itself, the handle answered here holds the
    receiver's journal as it is at that point (the two share it). *)
Definition Delete (root : list byte) (fuel : nat) (key : list byte)
  : M Trie :=
  if decide (root = EmptyHash) then
    lg ← currentLog; mret (mkTrie root lg)
  else
    let searchKey := bytesToNibbles key in
    '(rootNode, err) ← resolveHash db fuel root;
    match err with
    | Some _ => panic "Delete: can't resolve rootHash"
    | None =>
        result ← delete fuel rootNode searchKey;
        if negb (hasChanged result) then
          lg ← currentLog; mret (mkTrie root lg)
        else
          newRootHash ←
            match newNode (operation result) with
            | None => mret EmptyHash
            | Some n => pure (Hash n)
            end;
          lg ← currentLog;
          newLog ← pure (mergeFromDeleteResult lg root result);
          mret (mkTrie newRootHash newLog)
    end.

End TrieDelete.

(** What a batch is asked to do. *)
Inductive batchOp : Type :=
  | Put (key value : list byte)
  | Del (key : list byte).

(** [CommitToBatch]: the requests made of the batch. Go ranges over a map in
    no fixed order; the order here is that of [map_to_list]. *)
Definition CommitToBatch (t : Trie) : list batchOp :=
  ((λ kv, Put kv.1 kv.2) <$> map_to_list (inserted (log t)))
  ++ ((λ kv, Del kv.1) <$> map_to_list (deleted (log t))).

Definition applyOp (db : store) (op : batchOp) : store :=
  match op with
  | Put key value => <[key:=value]> db
  | Del key => base.delete key db
  end.

(** [Persist]: a new batch, [CommitToBatch], [Write]; answers the store's
    contents afterwards. *)
Definition Persist (db : store) (t : Trie) : store :=
  foldl applyOp db (CommitToBatch t).

Definition StateRoot (t : Trie) : list byte := rootHash t.

(** The public methods on a handle: the receiver as the call leaves it, and
    the outcome. *)
Definition TrieGet `{Primitives} (db : store) (fuel : nat) (t : Trie)
    (key : list byte) : Trie * outcome gobytes :=
  let '(lg, r) := Get db (rootHash t) fuel key (log t) in
  (mkTrie (rootHash t) lg, r).

Definition TrieInsert `{Primitives} (db : store) (fuel : nat) (t : Trie)
    (key : list byte) (value : gobytes) : Trie * outcome Trie :=
  let '(lg, r) := Insert db (rootHash t) fuel key value (log t) in
  (mkTrie (rootHash t) lg, r).

Definition TrieDelete `{Primitives} (db : store) (fuel : nat) (t : Trie)
    (key : list byte) : Trie * outcome Trie :=
  let '(lg, r) := Delete db (rootHash t) fuel key (log t) in
  (mkTrie (rootHash t) lg, r).

(* ===================================================================== *)
(** ** An instance of the primitives, to run the package on inputs *)
(* ===================================================================== *)

Module Sample.

(** A number as [n] bytes, most significant first. *)
Fixpoint bytesOfN (n : nat) (x : N) : list byte :=
  match n with
  | 0 => []
  | S n' => bytesOfN n' (N.shiftr x 8) ++ [byte_of_N (N.land x 255)]
  end.

(** 2^256 - 1. *)
Definition mask : N := Eval vm_compute in N.ones 256.

(** A 32-byte digest: the bytes read as digits of a number in base 257,
    of which the low 256 bits are kept. *)
Definition digest (data : list byte) : list byte :=
  bytesOfN 32
    (foldl (λ acc b, N.land (acc * 257 + Byte.to_N b + 1) mask)%N 0%N data).

(** A length in unary: [n] times [x01], then [x00]. *)
Definition unary (n : nat) : list byte := replicate n x01 ++ [x00].

Fixpoint readUnary (bytes : list byte) : option (nat * list byte) :=
  match bytes with
  | [] => None
  | b :: rest =>
      if decide (b = x00) then Some (0, rest)
      else if decide (b = x01) then
        '(n, rest') ← readUnary rest; Some (S n, rest')
      else None
  end.

(** A field: its length, then its bytes. *)
Definition field (bytes : list byte) : list byte :=
  unary (length bytes) ++ bytes.

Definition readField (bytes : list byte) : option (list byte * list byte) :=
  '(n, rest) ← readUnary bytes;
  if decide (n ≤ length rest) then Some (take n rest, drop n rest) else None.

(** A last field that may be nil: nothing, or [x01] and the bytes. *)
Definition tail (value : gobytes) : list byte :=
  match value with None => [] | Some v => x01 :: v end.

Definition readTail (bytes : list byte) : option gobytes :=
  match bytes with
  | [] => Some None
  | b :: rest => if decide (b = x01) then Some (Some rest) else None
  end.

Fixpoint readFields (n : nat) (bytes : list byte)
  : option (list (list byte) * list byte) :=
  match n with
  | 0 => Some ([], bytes)
  | S n' =>
      '(f, rest) ← readField bytes;
      '(fs, rest') ← readFields n' rest;
      Some (f :: fs, rest')
  end.

#[export] Instance primitives : Primitives := {|
  Keccak256 := digest;
  marshalLeaf key value := field key ++ tail value;
  unmarshalLeaf bytes :=
    '(key, rest) ← readField bytes;
    value ← readTail rest;
    Some (key, value);
  marshalExt key child := field key ++ child;
  unmarshalExt bytes := readField bytes;
  marshalBranch children target :=
    unary (length children) ++ mjoin (field <$> children) ++ tail target;
  unmarshalBranch bytes :=
    '(n, rest) ← readUnary bytes;
    '(children, rest') ← readFields n rest;
    target ← readTail rest';
    Some (children, target);
|}.

(** The bytes of a text. *)
Definition text (s : string) : list byte := list_byte_of_string s.

(** Enough fuel for the runs below. *)
Definition fuel : nat := 64.

(** [t.Insert(key, value)] on a handle, the receiver forgotten. *)
Definition insertInto (db : store) (t : outcome Trie)
    (kv : list byte * list byte) : outcome Trie :=
  t' ← t; (TrieInsert db fuel t' kv.1 (Some kv.2)).2.

Definition deleteFrom (db : store) (t : outcome Trie) (key : list byte)
  : outcome Trie :=
  t' ← t; (TrieDelete db fuel t' key).2.

Definition insertAll (db : store) (t : Trie)
    (kvs : list (list byte * list byte)) : outcome Trie :=
  foldl (insertInto db) (Ok t) kvs.

Definition deleteAll (db : store) (t : outcome Trie)
    (keys : list (list byte)) : outcome Trie :=
  foldl (deleteFrom db) t keys.

Definition getFrom (db : store) (t : outcome Trie) (key : list byte)
  : outcome gobytes :=
  t' ← t; (TrieGet db fuel t' key).2.

Definition emptyTrie : Trie := NewTrie EmptyHash.

End Sample.

(* ===================================================================== *)
(** ** Notions the properties are stated with *)
(* ===================================================================== *)

(** The functions on fuel are unfolded one call at a time, by the equations
    proved for them below. *)
Arguments decodeNode : simpl never.
Arguments tryGet : simpl never.
Arguments insert : simpl never.
Arguments delete : simpl never.

(** The journals a program can build: a fresh one, then any of the methods
    of [*updateLog]. *)
Inductive reachable `{Primitives} : updateLog → Prop :=
  | reach_new : reachable newUpdateLog
  | reach_cache lg k v : reachable lg → reachable (Log.cache lg k v)
  | reach_insert lg k v : reachable lg → reachable (Log.insert lg k v)
  | reach_delete lg k : reachable lg → reachable (Log.delete lg k)
  | reach_copy lg : reachable lg → reachable (Log.copy lg)
  | reach_merge lg oldRoot newRoot del ins lg' :
      reachable lg →
      merge lg oldRoot newRoot del ins = Ok lg' →
      reachable lg'.

(** The test of the second loop of [merge] on a node: its capped form is
    32 bytes long, or is the new root's. *)
Definition recordedBy `{Primitives} (newRootNode : option node) (n : node)
  : Prop :=
  ∃ capped newRootCapped,
    Capped n = Ok capped ∧
    match newRootNode with
    | None => Ok EmptyHash
    | Some r => Capped r
    end = Ok newRootCapped ∧
    (length capped = HashLength ∨ capped = newRootCapped).

(** The journal [lg'] is [lg] with more of the store cached: the same
    insertions and deletions, and every entry of [cached] that is new is
    what the store holds under a hash no map of [lg] knew, bytes that
    decode. *)
Definition cacheGrows `{Primitives} (db : store) (lg lg' : updateLog) : Prop :=
  inserted lg' = inserted lg ∧ deleted lg' = deleted lg ∧
  ∀ h, cached lg' !! h = cached lg !! h ∨
       (cached lg !! h = None ∧ inserted lg !! h = None ∧
        deleted lg !! h = None ∧
        ∃ bytes, cached lg' !! h = Some bytes ∧ db !! h = Some bytes ∧
                 bytes ≠ [] ∧ ∃ fuel n, decodeNode fuel bytes = Ok (n, None)).

(** A method that does no more to the receiver's journal than cache more of
    the store. *)
Definition cachesOnly `{Primitives} {A} (db : store) (m : M A) : Prop :=
  ∀ lg, cacheGrows db lg (m lg).1.

(** A method that answers the same from a journal and from one with more of
    the store cached. *)
Definition cacheBlind `{Primitives} {A} (db : store) (m : M A) : Prop :=
  ∀ lg1 lg2, cacheGrows db lg1 lg2 →
    (m lg1).2 = (m lg2).2 ∧ cacheGrows db (m lg1).1 (m lg2).1.

(** [P] on a node that is there. *)
Definition onNode (P : node → Prop) (c : option node) : Prop :=
  match c with Some c' => P c' | None => True end.

(** Induction on a node, through the child of an extension and the slots of
    a branch. *)
Section NodeInduction.
Variable P : node → Prop.
Hypothesis Hleaf : ∀ key value, P (leafNode key value).
Hypothesis Hext : ∀ key child, onNode P child → P (extNode key child).
Hypothesis Hbranch :
  ∀ children target, Forall (onNode P) children →
                     P (branchNode children target).
Hypothesis Hhash : ∀ hash, P (hashNode hash).

Fixpoint node_induction (n : node) : P n :=
  match n with
  | leafNode key value => Hleaf key value
  | extNode key child =>
      Hext key child
        match child return onNode P child with
        | Some c => node_induction c
        | None => I
        end
  | branchNode children target =>
      Hbranch children target
        ((fix each (l : list (option node)) : Forall (onNode P) l :=
            match l with
            | [] => List.Forall_nil _
            | c :: rest =>
                @List.Forall_cons _ (onNode P) c rest
                  match c return onNode P c with
                  | Some c' => node_induction c'
                  | None => I
                  end
                  (each rest)
            end) children)
  | hashNode hash => Hhash hash
  end.
End NodeInduction.

(** The places where a slot of a branch is taken at [searchKey[0]]: the
    three reads, and the write of [updateChild], which [insertToBranch] and
    [deleteFromBranch] call with the same index. *)
Definition searchKeySites : list string :=
  [ "tryGet: n.children[searchKey[0]]";
    "insertToBranch: branch.children[pos]";
    "deleteFromBranch: branch.children[childIndex]";
    "updateChild: b.children[pos]" ]%string.

(** The outcome is not an index out of range at one of these places. *)
Definition inBounds {A} (o : outcome A) : Prop :=
  match o with
  | Panic (IndexOutOfRange site) => site ∉ searchKeySites
  | _ => True
  end.

(** Every branch of a node has its 16 slots, as the array type of the
    source makes sure. *)
Definition sixteenOpt (sixteen : node → bool) (c : option node) : bool :=
  match c with Some c' => sixteen c' | None => true end.

Fixpoint sixteen (n : node) : bool :=
  match n with
  | leafNode _ _ => true
  | hashNode _ => true
  | extNode _ child => sixteenOpt sixteen child
  | branchNode children _ =>
      bool_decide (length children = 16)
      && (fix all (l : list (option node)) : bool :=
            match l with
            | [] => true
            | c :: rest => sixteenOpt sixteen c && all rest
            end) children
  end.

(** An outcome that is a result satisfying [Q], or a stop elsewhere than at
    a slot taken at [searchKey[0]]. *)
Definition yields {A} (o : outcome A) (Q : A → Prop) : Prop :=
  match o with Ok a => Q a | _ => inBounds o end.

(** A method that yields such an outcome from any journal. *)
Definition answers {A} (m : M A) (Q : A → Prop) : Prop :=
  ∀ lg, yields (m lg).2 Q.

(** The call came back with a result. *)
Definition succeeded {A} (o : outcome A) : bool :=
  match o with Ok _ => true | _ => false end.

(** ** Runs of the package on the sample primitives *)

Module Scenario.
Import Sample.

(** A trie of one key, written to an empty store, and a handle opened on
    its root afterwards. *)
Definition oneKey : outcome Trie :=
  insertAll ∅ emptyTrie [(text "do", text "verb")].

Definition oneKeyStore : store :=
  match oneKey with Ok t => Persist ∅ t | _ => ∅ end.

Definition reloaded : Trie :=
  match oneKey with Ok t => NewTrie (StateRoot t) | _ => emptyTrie end.

(** The same root, opened on a store that was never written. *)
Definition dangling : Trie := reloaded.

(** The trie of one key with its journal, and what inserting a second key
    into it answers. *)
Definition oneKeyTrie : Trie :=
  match oneKey with Ok t => t | _ => emptyTrie end.

Definition twoKeysTrie : Trie :=
  match (TrieInsert ∅ fuel oneKeyTrie (text "dog") (Some (text "bark"))).2 with
  | Ok t => t
  | _ => emptyTrie
  end.

(** A leaf whose encoding is shorter than 32 bytes, merged as the new
    root into a fresh journal. *)
Definition shortLeaf : node := newLeafNode [x01; x02] (Some [x01; x02]).

Definition shortLeafJournal : updateLog :=
  match merge newUpdateLog EmptyHash (Some shortLeaf) [] [shortLeaf] with
  | Ok lg => lg
  | _ => newUpdateLog
  end.

(** A journal with one insertion, deleted again. *)
Definition usedJournal : updateLog :=
  Log.delete (Log.insert newUpdateLog EmptyHash [x00]) EmptyHash.


(** Keys that end alike and hold the same value: their leaves below the
    branch are the same node, which is stored once, under its hash. *)
Definition long : list byte :=
  text "the quick brown fox jumps over the lazy dog".

Definition other : list byte :=
  text "another quite long value, of more than 32 bytes".

Definition alike : list (list byte * list byte) :=
  [(text "ax", long); (text "bx", long); (text "cx", long)].

Definition alikeTrie : outcome Trie := insertAll ∅ emptyTrie alike.

(** One mapping of four keys, in two orders. *)
Definition orderA : list (list byte * list byte) :=
  [(text "ax", long); (text "bx", long); (text "axz", other);
   (text "bxy", other)].

Definition orderB : list (list byte * list byte) :=
  [(text "axz", other); (text "bxy", other); (text "ax", long);
   (text "bx", long)].

End Scenario.

(** ** Notions for reading back what was inserted *)

(** What the proofs ask of the codec: what is marshalled unmarshals to the
    same fields (a last field that was nil or empty may come back as either),
    and no message is marshalled to no bytes. *)
Class CodecLaws `{Primitives} : Prop := {
  leaf_roundtrip : ∀ key value, ∃ value',
    unmarshalLeaf (marshalLeaf key value) = Some (key, value')
    ∧ gocontent value' = gocontent value;
  ext_roundtrip : ∀ key child,
    unmarshalExt (marshalExt key child) = Some (key, child);
  branch_roundtrip : ∀ children target, ∃ target',
    unmarshalBranch (marshalBranch children target) = Some (children, target')
    ∧ gocontent target' = gocontent target;
  leaf_nonempty : ∀ key value, marshalLeaf key value ≠ [];
  ext_nonempty : ∀ key child, marshalExt key child ≠ [];
  branch_nonempty : ∀ children target, marshalBranch children target ≠ [];
}.

(** A node as [decodeNode] and the insertion of nibble keys make them: keys
    of nibbles, branches of 16 slots, hashes of 32 bytes. *)
Fixpoint shaped (n : node) : Prop :=
  match n with
  | leafNode key _ => Forall is_nibble key
  | extNode key child =>
      Forall is_nibble key ∧ onNode shaped child
  | branchNode children _ =>
      length children = 16
      ∧ (fix all (l : list (option node)) : Prop :=
           match l with
           | [] => True
           | c :: rest => onNode shaped c ∧ all rest
           end) children
  | hashNode hash => length hash = HashLength
  end.

Definition notHash (n : node) : Prop :=
  match n with hashNode _ => False | _ => True end.

(** The loop of [branchNode.Encode] over the slots. *)
Fixpoint encodeSlots `{Primitives} (l : list (option node))
  : outcome (list (list byte)) :=
  match l with
  | [] => Ok []
  | None :: rest => raws ← encodeSlots rest; Ok ([] :: raws)
  | Some c :: rest =>
      encoded ← Encode c;
      raws ← encodeSlots rest;
      Ok (cappedOf c encoded :: raws)
  end.

(** [img n d]: [d] is what decoding the encoding of [n] gives; [ref c d]:
    [d] is what a decoded parent holds for its child [c], a hash node when
    the encoding of [c] has 32 bytes or more, the image of [c] when it is
    shorter. *)
Inductive img `{Primitives} : node → node → Prop :=
  | img_leaf key value value' :
      gocontent value' = gocontent value →
      img (leafNode key value) (leafNode key value')
  | img_ext key child dchild :
      ref child dchild →
      img (extNode key (Some child)) (extNode key (Some dchild))
  | img_branch children dchildren target target' :
      Forall2 (option_Forall2 ref) children dchildren →
      gocontent target' = gocontent target →
      img (branchNode children target) (branchNode dchildren target')
with ref `{Primitives} : node → node → Prop :=
  | ref_hash c encoded :
      notHash c → Encode c = Ok encoded → HashLength ≤ length encoded →
      ref c (hashNode (Keccak256Hash encoded))
  | ref_inline c encoded d :
      notHash c → Encode c = Ok encoded → length encoded < HashLength →
      img c d → ref c d
  | ref_same hash :
      length hash = HashLength → ref (hashNode hash) (hashNode hash).

(** [leads ins n key value]: in [n], the nibbles [key] lead to [value]
    through nodes of the list [ins]. *)
Inductive leads (ins : list node) : node → list byte → gobytes → Prop :=
  | leads_leaf key value value' :
      gocontent value' = gocontent value →
      leads ins (leafNode key value') key value
  | leads_ext key child rest value :
      child ∈ ins → leads ins child rest value →
      leads ins (extNode key (Some child)) (key ++ rest) value
  | leads_target children target value :
      gocontent target = gocontent value →
      leads ins (branchNode children target) [] value
  | leads_slot children target p rest child value :
      children !! Byte.to_nat p = Some (Some child) →
      child ∈ ins → leads ins child rest value →
      leads ins (branchNode children target) (p :: rest) value.

(** The statement of the round trip, for the induction on the node. *)
Definition decodesBack `{Primitives} (n : node) : Prop :=
  shaped n → notHash n → ∀ e, Encode n = Ok e →
  ∃ f0 d, img n d ∧ ∀ f, f0 ≤ f → decodeNode f e = Ok (Some d, None).

(** No two nodes of the list have one hash and two encodings. *)
Definition collisionFree `{Primitives} (nodes : list node) : Prop :=
  ∀ n n', n ∈ nodes → n' ∈ nodes → Hash n = Hash n' → Encode n = Encode n'.

(** The journal holds the encoding of every node of the list that a parent
    refers to by hash. *)
Definition holdsAll `{Primitives} (lg : updateLog) (nodes : list node) : Prop :=
  ∀ c encoded, c ∈ nodes → notHash c → Encode c = Ok encoded →
    HashLength ≤ length encoded →
    inserted lg !! Keccak256Hash encoded = Some encoded
    ∧ deleted lg !! Keccak256Hash encoded = None.

(** The sixteen nibbles. *)
Definition nibbles : list byte :=
  [x00; x01; x02; x03; x04; x05; x06; x07;
   x08; x09; x0a; x0b; x0c; x0d; x0e; x0f].

(** A method whose result, when it has one, satisfies [Q]. *)
Definition ensures {A} (m : M A) (Q : A → Prop) : Prop :=
  ∀ lg lg' a, m lg = (lg', Ok a) → Q a.

(** What an insertion of [value] under [key] answers: a new node of the
    right shape, in the list of inserted nodes, in which [key] leads to
    [value] through nodes of that list. *)
Definition inserts (key : list byte) (value : gobytes)
    (r : operationResult) : Prop :=
  ∃ n, newNode r = Some n ∧ shaped n ∧ n ∈ opInserted r
       ∧ leads (opInserted r) n key value.

(** What the recursive call of an insertion is known to do. *)
Definition insertsWell
    (rec : option node → list byte → gobytes → M operationResult) : Prop :=
  ∀ startNode searchKey value,
    onNode shaped startNode → Forall is_nibble searchKey →
    ensures (rec startNode searchKey value) (inserts searchKey value).

(** Where the search of [value] goes on from the decoded form of a node,
    whatever the store. *)
Definition found `{Primitives} (lg : updateLog)
    (n : node) (key : list byte) (value : gobytes) : Prop :=
  ∀ d, img n d →
    ∃ f0 v', gocontent v' = gocontent value ∧
      ∀ db f, f0 ≤ f → tryGet db f (Some d) key lg = (lg, Ok v').

(** What the recursive call of an insertion is known to do about the slots
    it indexes. *)
Definition insertsInBounds
    (rec : option node → list byte → gobytes → M operationResult) : Prop :=
  ∀ startNode searchKey value,
    sixteenOpt sixteen startNode → Forall is_nibble searchKey →
    answers (rec startNode searchKey value) (λ _, True).

(** The same of a deletion. *)
Definition deletesInBounds
    (rec : option node → list byte → M deleteResult) : Prop :=
  ∀ startNode searchKey,
    sixteenOpt sixteen startNode → Forall is_nibble searchKey →
    answers (rec startNode searchKey) (λ _, True).


(* ===================================================================== *)
(** ** Notions for the store and for deletions *)
(* ===================================================================== *)

(** The two places where [decodeNode] can stop. *)
Definition decodeFaults : list fault :=
  [ SliceOutOfRange "decodeKey: nibbles[0:len(nibbles)-1]";
    IndexOutOfRange "decodeBranchNode: n.children[i]" ].

(** What can stop [Get]: the two panics of [fetchFromDB], and what stops
    [decodeNode]. *)
Definition getFaults : list fault :=
  [ Explicit "fetchFromDB: get from db failed";
    Explicit "fetchFromDB: decodeNode failed" ] ++ decodeFaults.

(** The journal of a handle that has only read: no insertion, no deletion,
    and in [cached] bytes that the store holds under the same hash. *)
Definition readsOnly (db : store) (lg : updateLog) : Prop :=
  inserted lg = ∅ ∧ deleted lg = ∅
  ∧ ∀ h bytes, cached lg !! h = Some bytes → db !! h = Some bytes.

(** The store holds the encoding of every node of the list that a parent
    refers to by hash. *)
Definition storesAll `{Primitives} (db : store) (nodes : list node) : Prop :=
  ∀ c encoded, c ∈ nodes → notHash c → Encode c = Ok encoded →
    HashLength ≤ length encoded →
    db !! Keccak256Hash encoded = Some encoded.

(** Where the search of [value] goes on from the decoded form of a node,
    through a handle that has only read, on a store that holds the nodes of
    the list [ins]. *)
Definition foundInStore `{Primitives} (ins : list node)
    (n : node) (key : list byte) (value : gobytes) : Prop :=
  ∀ d, img n d →
    ∃ f0 v', gocontent v' = gocontent value ∧
      ∀ db lg f, storesAll db ins → readsOnly db lg → f0 ≤ f →
        ∃ lg', readsOnly db lg' ∧ tryGet db f (Some d) key lg = (lg', Ok v').

(** [misses ins n key]: in [n], the nibbles [key] lead to no value, through
    nodes of the list [ins]: the search ends at a leaf or an extension with
    another key, at an empty slot, at a branch without target, or at an
    extension without child. *)
Inductive misses (ins : list node) : node → list byte → Prop :=
  | misses_leaf key value searchKey :
      searchKey ≠ key → misses ins (leafNode key value) searchKey
  | misses_ext_short key child searchKey :
      length searchKey < length key →
      misses ins (extNode key child) searchKey
  | misses_ext_other key child searchKey :
      take (length key) searchKey ≠ key →
      misses ins (extNode key child) searchKey
  | misses_ext_nil key rest :
      misses ins (extNode key None) (key ++ rest)
  | misses_ext_child key child rest :
      child ∈ ins → misses ins child rest →
      misses ins (extNode key (Some child)) (key ++ rest)
  | misses_target children target :
      gocontent target = [] → misses ins (branchNode children target) []
  | misses_slot_nil children target p rest :
      children !! Byte.to_nat p = Some None →
      misses ins (branchNode children target) (p :: rest)
  | misses_slot children target p rest child :
      children !! Byte.to_nat p = Some (Some child) →
      child ∈ ins → misses ins child rest →
      misses ins (branchNode children target) (p :: rest).

(** What a deletion of [key] that changed something answers: new nodes of
    the right shape and, when a node is left, one that is no hash node, is
    in the list of inserted nodes, and in which [key] leads to no value
    through nodes of that list. *)
Definition removes (key : list byte) (r : deleteResult) : Prop :=
  hasChanged r = true →
  Forall shaped (opInserted (operation r))
  ∧ match newNode (operation r) with
    | None => True
    | Some n =>
        notHash n ∧ n ∈ opInserted (operation r)
        ∧ misses (opInserted (operation r)) n key
    end.

(** What the recursive call of a deletion is known to do. *)
Definition removesWell
    (rec : option node → list byte → M deleteResult) : Prop :=
  ∀ startNode searchKey,
    onNode shaped startNode →
    ensures (rec startNode searchKey) (removes searchKey).

(** The node that [tryFixExt] looks at in place of the child [extChild]:
    the child itself, or, for a hash node, a node of the updates or a node
    resolved from the journal or the store. *)
Definition standsFor `{Primitives} (db : store) (updates : list node)
    (extChild : option node) (m : node) : Prop :=
  extChild = Some m
  ∨ ∃ hash, extChild = Some (hashNode hash)
            ∧ (m ∈ updates
               ∨ ∃ fuel h lg lg' err,
                   resolveHash db fuel h lg = (lg', Ok (Some m, err))).

(** The key of a leaf or of an extension starts with the nibble [q]. *)
Definition keyStarts (q : byte) (x : node) : Prop :=
  match x with
  | leafNode (q' :: _) _ | extNode (q' :: _) _ => q' = q
  | _ => False
  end.

Module Afterwards.
Import Sample.

(** The trie of two keys of [Scenario], with the second key deleted
    again. *)
Definition oneKeyAgain : Trie :=
  match (TrieDelete ∅ fuel Scenario.twoKeysTrie (text "dog")).2 with
  | Ok t => t
  | _ => emptyTrie
  end.

End Afterwards.

(** What can stop [Insert]: what stops [Get]; the two panics on a hash
    that does not resolve; the slice [ext.key[1:]] of an extension with an
    empty key; a nil node where a node is called. *)
Definition insertFaults : list fault :=
  getFaults ++
  [ Explicit "Insert: can't resolve rootHash";
    Explicit "insert: can't resolve hashNode";
    SliceOutOfRange "insertToExt: ext.key[1:]";
    NilDereference "result of insert/delete on a nil node";
    NilDereference "extNode.Encode: n.child.Capped()" ].

(** What can stop [Delete]: what stops [Get]; the panics on a hash that
    does not resolve; the panic of [tryFixBranch] on a branch left without
    entry; a nil node where a node is called. *)
Definition deleteFaults : list fault :=
  getFaults ++
  [ Explicit "Delete: can't resolve rootHash";
    Explicit "delete: can't resolve hashNode";
    Explicit "tryFixExt: can't resolve child, maybe because of can't get node from updates";
    Explicit "tryFixBranch: invalid branch state, no children and no target";
    NilDereference "result of insert/delete on a nil node";
    NilDereference "extNode.Encode: n.child.Capped()" ].

(** A method that stops, when it does, with one of the faults [F]. *)
Definition stops {A} (F : list fault) (m : M A) : Prop :=
  ∀ lg lg' f, m lg = (lg', Panic f) → f ∈ F.

(* ===================================================================== *)
(** ** A codec that leaves empty fields out *)
(* ===================================================================== *)

(** What the proofs ask of a codec that, as proto3 does, writes nothing for
    an empty field: what is marshalled unmarshals to the same fields (a last
    field that was nil or empty may come back as either), and a message is
    marshalled to no bytes only when each of its fields is empty. *)
Class CodecFields `{Primitives} : Prop := {
  leaf_back : ∀ key value, ∃ value',
    unmarshalLeaf (marshalLeaf key value) = Some (key, value')
    ∧ gocontent value' = gocontent value;
  ext_back : ∀ key child,
    unmarshalExt (marshalExt key child) = Some (key, child);
  branch_back : ∀ children target, ∃ target',
    unmarshalBranch (marshalBranch children target) = Some (children, target')
    ∧ gocontent target' = gocontent target;
  leaf_bytes : ∀ key value,
    marshalLeaf key value = [] → key = [] ∧ gocontent value = [];
  ext_bytes : ∀ key child,
    marshalExt key child = [] → key = [] ∧ child = [];
  branch_bytes : ∀ children target,
    marshalBranch children target = [] → children = [] ∧ gocontent target = [];
}.

(** No leaf of the node, nor of a node below it, has an empty key together
    with an empty value: the one node whose message has only empty
    fields. *)
Fixpoint solid (n : node) : bool :=
  match n with
  | leafNode key value =>
      negb (bool_decide (key = [] ∧ gocontent value = []))
  | extNode _ child =>
      match child with Some c => solid c | None => true end
  | branchNode children _ =>
      (fix all (l : list (option node)) : bool :=
         match l with
         | [] => true
         | c :: rest =>
             match c with Some c' => solid c' | None => true end && all rest
         end) children
  | hashNode _ => true
  end.

(** A second instance of the primitives, with the three messages laid out
    as proto3 lays out fields of bytes, numbered in the order the source
    names them ([Key] and [Children] 1, [Value], [Node] and [Target] 2): a
    tag, the length as a varint, the bytes; a field that is empty is left
    out, an entry of the repeated field [Children] never is. A message with
    any other tag is refused: the package writes none. The digest is the
    one of [Sample]. *)
Module Proto3.

(** A number as a varint: groups of seven bits, the low group first, the
    high bit set on every byte but the last. *)
Fixpoint varintFrom (groups : nat) (n : N) : list byte :=
  match groups with
  | 0 => [byte_of_N n]
  | S groups' =>
      if decide (n < 128)%N then [byte_of_N n]
      else byte_of_N (128 + n mod 128) :: varintFrom groups' (n / 128)
  end.

Definition varint (n : N) : list byte := varintFrom (N.to_nat n) n.

Fixpoint readVarint (bytes : list byte) : option (N * list byte) :=
  match bytes with
  | [] => None
  | b :: rest =>
      if decide (Byte.to_N b < 128)%N then Some (Byte.to_N b, rest)
      else
        '(high, rest') ← readVarint rest;
        Some ((Byte.to_N b - 128 + 128 * high)%N, rest')
  end.

(** The tags of the fields 1 and 2, both of bytes. *)
Definition tagOne : byte := x0a.
Definition tagTwo : byte := x12.

(** A field: its tag, its length, its bytes. *)
Definition field (tag : byte) (bytes : list byte) : list byte :=
  tag :: varint (N.of_nat (length bytes)) ++ bytes.

(** A field that is left out when it is empty. *)
Definition unlessEmpty (tag : byte) (bytes : list byte) : list byte :=
  if decide (bytes = []) then [] else field tag bytes.

Fixpoint readFields (fuel : nat) (bytes : list byte)
  : option (list (byte * list byte)) :=
  match bytes with
  | [] => Some []
  | tag :: rest =>
      match fuel with
      | 0 => None
      | S fuel' =>
          '(n, rest') ← readVarint rest;
          if decide (N.to_nat n ≤ length rest') then
            fields ← readFields fuel' (drop (N.to_nat n) rest');
            Some ((tag, take (N.to_nat n) rest') :: fields)
          else None
      end
  end.

(** The fields of a message, when each has one of the two tags. *)
Definition parse (bytes : list byte) : option (list (byte * list byte)) :=
  fields ← readFields (length bytes) bytes;
  if forallb (λ f, bool_decide (f.1 = tagOne ∨ f.1 = tagTwo)) fields
  then Some fields else None.

(** The last field with the tag, nil when there is none. *)
Definition lastOf (tag : byte) (fields : list (byte * list byte)) : gobytes :=
  foldl (λ acc f, if decide (f.1 = tag) then Some f.2 else acc) None fields.

(** Every field with the tag, in order. *)
Definition allOf (tag : byte) (fields : list (byte * list byte))
  : list (list byte) :=
  snd <$> filter (λ f, f.1 = tag) fields.

#[export] Instance primitives : Primitives := {|
  Keccak256 := Sample.digest;
  marshalLeaf key value :=
    unlessEmpty tagOne key ++ unlessEmpty tagTwo (gocontent value);
  unmarshalLeaf bytes :=
    fields ← parse bytes;
    Some (gocontent (lastOf tagOne fields), lastOf tagTwo fields);
  marshalExt key child :=
    unlessEmpty tagOne key ++ unlessEmpty tagTwo child;
  unmarshalExt bytes :=
    fields ← parse bytes;
    Some (gocontent (lastOf tagOne fields), gocontent (lastOf tagTwo fields));
  marshalBranch children target :=
    mjoin (field tagOne <$> children) ++ unlessEmpty tagTwo (gocontent target);
  unmarshalBranch bytes :=
    fields ← parse bytes;
    Some (allOf tagOne fields, lastOf tagTwo fields);
|}.

(** [t.Insert(key, value)] on a handle, the receiver forgotten. *)
Definition insertInto (t : outcome Trie) (kv : list byte * gobytes)
  : outcome Trie :=
  t' ← t; (TrieInsert ∅ Sample.fuel t' kv.1 kv.2).2.

(** The insertions of a list, one after the other, into the empty trie on
    an empty store. *)
Definition insertAll (kvs : list (list byte * gobytes)) : outcome Trie :=
  foldl insertInto (Ok Sample.emptyTrie) kvs.

(** One key with an empty value, then a key that differs from it in the
    last nibble. *)
Definition emptyThenB : list (list byte * gobytes) :=
  [([x13], Some []); ([x12], Some (Sample.text "b"))].

(** The same keys, the first value not empty. *)
Definition aThenB : list (list byte * gobytes) :=
  [([x13], Some (Sample.text "a")); ([x12], Some (Sample.text "b"))].

(** The first of them alone. *)
Definition aOnly : list (list byte * gobytes) :=
  [([x13], Some (Sample.text "a"))].

(** The trie that a list of insertions answers, the empty trie when they
    stop. *)
Definition trieOf (kvs : list (list byte * gobytes)) : Trie :=
  match insertAll kvs with Ok t => t | _ => Sample.emptyTrie end.

(** The trie of the two keys, with the second key deleted again. *)
Definition aAgain : Trie :=
  match (TrieDelete ∅ Sample.fuel (trieOf aThenB) [x12]).2 with
  | Ok t => t
  | _ => Sample.emptyTrie
  end.

End Proto3.

(* ===================================================================== *)
(** * Properties *)
(* ===================================================================== *)

(** ** Outcomes *)

Lemma outcome_bind_Ok {A B} (m : outcome A) (f : A → outcome B) b :
  m ≫= f = Ok b ↔ ∃ a, m = Ok a ∧ f a = Ok b.
Proof.
  destruct m as [a| |]; simpl; split;
    first [ by eauto | by intros (? & [= <-] & ?) | by intros (? & ? & ?) | done ].
Qed.

Ltac outcome_inv :=
  repeat match goal with
  | H : _ ≫= _ = Ok _ |- _ =>
      apply outcome_bind_Ok in H; destruct H as (? & ? & H)
  | H : Ok _ = Ok _ |- _ => injection H as H; subst
  | H : Panic _ = Ok _ |- _ => discriminate H
  | H : OutOfFuel = Ok _ |- _ => discriminate H
  | H : mret _ = Ok _ |- _ => injection H as H; subst
  end.

Ltac destruct_pairs :=
  repeat match goal with
  | x : decoded |- _ => destruct x
  | x : (_ * _)%type |- _ => destruct x
  end.

(** ** The journal *)

Section JournalFacts.
Context `{Primitives}.

Lemma insert_keeps_apart lg k v :
  inserted lg ##ₘ deleted lg →
  inserted (Log.insert lg k v) ##ₘ deleted (Log.insert lg k v).
Proof.
  intros Hd. simpl. apply map_disjoint_insert_l. split.
  - apply lookup_delete_eq.
  - by apply map_disjoint_delete_r.
Qed.

Lemma delete_keeps_apart lg k :
  inserted lg ##ₘ deleted lg →
  inserted (Log.delete lg k) ##ₘ deleted (Log.delete lg k).
Proof.
  intros Hd. simpl. apply map_disjoint_insert_r. split.
  - apply lookup_delete_eq.
  - by apply map_disjoint_delete_l.
Qed.

Lemma copy_keeps_apart lg :
  inserted lg ##ₘ deleted lg →
  inserted (Log.copy lg) ##ₘ deleted (Log.copy lg).
Proof.
  intros Hd. simpl. apply map_disjoint_spec. intros h x y Hx Hy.
  rewrite lookup_fmap in Hy.
  destruct (deleted lg !! h) as [z|] eqn:Hz; [|done].
  eapply map_disjoint_spec; eauto.
Qed.

Lemma mergeDeleted_keeps_apart nodes : ∀ lg oldRoot lg',
  mergeDeleted lg oldRoot nodes = Ok lg' →
  inserted lg ##ₘ deleted lg → inserted lg' ##ₘ deleted lg'.
Proof.
  induction nodes as [|n rest IH]; intros lg oldRoot lg' Hm Hd; simpl in Hm.
  - by injection Hm as <-.
  - outcome_inv. case_decide; eauto using delete_keeps_apart.
Qed.

Lemma mergeInserted_keeps_apart nodes : ∀ lg newRoot lg',
  mergeInserted lg newRoot nodes = Ok lg' →
  inserted lg ##ₘ deleted lg → inserted lg' ##ₘ deleted lg'.
Proof.
  induction nodes as [|n rest IH]; intros lg newRoot lg' Hm Hd; simpl in Hm.
  - by injection Hm as <-.
  - outcome_inv. case_decide; [|by eauto].
    outcome_inv. eauto using insert_keeps_apart.
Qed.

Lemma reachable_keeps_apart lg :
  reachable lg → inserted lg ##ₘ deleted lg.
Proof.
  induction 1 as [| | | | |lg oldRoot newRoot del ins lg' _ IH Hm];
    eauto using insert_keeps_apart, delete_keeps_apart, copy_keeps_apart.
  - apply map_disjoint_empty_l.
  - unfold merge in Hm. outcome_inv.
    eauto using mergeDeleted_keeps_apart, mergeInserted_keeps_apart.
Qed.

End JournalFacts.

(** C8. In every journal reachable from a fresh one by [cache], [insert],
    [delete], [copy] and [merge], no hash is a key of both [inserted] and
    [deleted]: an insertion erases the deletion of its hash and a deletion
    erases the insertion of its hash. *)
Theorem journal_inserted_deleted_apart `{Primitives} (lg : updateLog) :
  reachable lg →
  (∀ h, ¬ (is_Some (inserted lg !! h) ∧ is_Some (deleted lg !! h)))
  ∧ (∀ k v, inserted (Log.insert lg k v) !! k = Some v
            ∧ deleted (Log.insert lg k v) !! k = None)
  ∧ (∀ k, inserted (Log.delete lg k) !! k = None
          ∧ deleted (Log.delete lg k) !! k = Some []).
Proof.
  intros Hr. split; [|split].
  - intros h [[x Hx] [y Hy]].
    pose proof (reachable_keeps_apart lg Hr) as Hd.
    by eapply map_disjoint_spec.
  - intros k v. simpl. by rewrite lookup_insert_eq lookup_delete_eq.
  - intros k. simpl. by rewrite lookup_insert_eq lookup_delete_eq.
Qed.

Section MergeFacts.
Context `{Primitives}.

Lemma Capped_Ok_Encode n c : Capped n = Ok c → ∃ e, Encode n = Ok e.
Proof. rewrite /Capped. intros Hc. outcome_inv. eauto. Qed.

Lemma Encode_Ok_Hash n e : Encode n = Ok e → ∃ h, Hash n = Ok h.
Proof.
  intros He. destruct n; rewrite /Hash; try rewrite He /=; eauto.
Qed.

Lemma mergeInserted_app nodes more : ∀ lg newRoot,
  mergeInserted lg newRoot (nodes ++ more) =
  lg' ← mergeInserted lg newRoot nodes; mergeInserted lg' newRoot more.
Proof.
  induction nodes as [|n0 rest IH]; intros lg newRoot; [done|].
  simpl. destruct (Capped n0) as [c| |]; simpl; [|done..].
  destruct (match newRoot with Some r => Capped r | None => _ end);
    simpl; [|done..].
  case_decide; [|by apply IH].
  destruct (Hash n0); simpl; [|done..].
  destruct (Encode n0); simpl; [|done..]. by apply IH.
Qed.

Lemma mergeInserted_snoc nodes n lg newRoot :
  mergeInserted lg newRoot (nodes ++ [n]) =
  lg' ← mergeInserted lg newRoot nodes; mergeInserted lg' newRoot [n].
Proof. apply mergeInserted_app. Qed.

(** One turn of the second loop. *)
Lemma mergeInserted_one lg newRoot n lg' :
  mergeInserted lg newRoot [n] = Ok lg' →
  ∃ h e, Hash n = Ok h ∧ Encode n = Ok e ∧
    ((recordedBy newRoot n ∧ lg' = Log.insert lg h e)
     ∨ (¬ recordedBy newRoot n ∧ lg' = lg)).
Proof.
  simpl. intros Hm. outcome_inv.
  match goal with Hc : Capped n = Ok ?c |- _ =>
    destruct (Capped_Ok_Encode _ _ Hc) as [e He];
    destruct (Encode_Ok_Hash _ _ He) as [h Hh] end.
  exists h, e. split; [done|]. split; [done|].
  case_decide as Hcond.
  - left. rewrite Hh He /= in Hm. injection Hm as <-. split; [|done].
    eexists _, _. eauto.
  - right. injection Hm as <-. split; [|done].
    intros (c' & r' & Hc' & Hr' & Hcond'). apply Hcond. congruence.
Qed.

(** A hash none of whose nodes passes the test is left as it was. *)
Lemma mergeInserted_untouched nodes : ∀ lg newRoot lg' h,
  mergeInserted lg newRoot nodes = Ok lg' →
  (∀ n, n ∈ nodes → Hash n = Ok h → ¬ recordedBy newRoot n) →
  inserted lg' !! h = inserted lg !! h
  ∧ deleted lg' !! h = deleted lg !! h
  ∧ cached lg' !! h = cached lg !! h.
Proof.
  induction nodes as [|n rest IH] using rev_ind; intros lg newRoot lg' h Hm Hno.
  - by injection Hm as <-.
  - rewrite mergeInserted_snoc in Hm. outcome_inv.
    match goal with Hr : mergeInserted _ _ rest = Ok ?l |- _ =>
      destruct (IH _ _ _ h Hr) as (Hi & Hd & Hc) end.
    { intros n' Hn'. apply Hno. apply elem_of_app. by left. }
    destruct (mergeInserted_one _ _ _ _ Hm)
      as (h' & e' & Hh' & He' & [[Hrec ->]|[Hrec ->]]); [|done].
    assert (h' ≠ h) as Hne.
    { intros ->. eapply Hno; [|done..]. apply elem_of_app. right. by apply list_elem_of_singleton. }
    simpl. by rewrite lookup_insert_ne // !lookup_delete_ne.
Qed.

(** A hash one of whose nodes passes the test holds its encoding. *)
Lemma mergeInserted_recorded nodes : ∀ lg newRoot lg' n h e,
  mergeInserted lg newRoot nodes = Ok lg' →
  n ∈ nodes → recordedBy newRoot n → Hash n = Ok h →
  (∀ n', n' ∈ nodes → Hash n' = Ok h → Encode n' = Ok e) →
  inserted lg' !! h = Some e ∧ deleted lg' !! h = None
  ∧ cached lg' !! h = None.
Proof.
  induction nodes as [|n0 rest IH] using rev_ind;
    intros lg newRoot lg' n h e Hm Hn Hrec Hh Hsame.
  - by apply elem_of_nil in Hn.
  - rewrite mergeInserted_snoc in Hm. outcome_inv.
    destruct (mergeInserted_one _ _ _ _ Hm)
      as (h0 & e0 & Hh0 & He0 & [[Hrec0 ->]|[Hrec0 ->]]).
    + destruct (decide (h0 = h)) as [->|Hne].
      * assert (e0 = e) as ->.
        { assert (Encode n0 = Ok e) as E by (apply Hsame; [apply elem_of_app; right; by apply list_elem_of_singleton|done]).
          congruence. }
        simpl. by rewrite lookup_insert_eq !lookup_delete_eq.
      * simpl. rewrite lookup_insert_ne // !lookup_delete_ne //.
        assert (n ∈ rest) as Hin.
        { apply elem_of_app in Hn as [Hn|Hn]; [done|].
          apply list_elem_of_singleton in Hn as ->. congruence. }
        eapply (IH _ _ _ n h e); eauto.
        intros n' Hn'. apply Hsame. apply elem_of_app. by left.
    + assert (n ∈ rest) as Hin.
      { apply elem_of_app in Hn as [Hn|Hn]; [done|].
        by apply list_elem_of_singleton in Hn as ->. }
      eapply (IH _ _ _ n h e); eauto.
      intros n' Hn'. apply Hsame. apply elem_of_app. by left.
Qed.

Lemma mergeInserted_Ok_each nodes : ∀ lg newRoot lg' n,
  mergeInserted lg newRoot nodes = Ok lg' → n ∈ nodes →
  ∃ c e h, Capped n = Ok c ∧ Encode n = Ok e ∧ Hash n = Ok h
    ∧ (recordedBy newRoot n ∨ ¬ recordedBy newRoot n).
Proof.
  induction nodes as [|n0 rest IH]; intros lg newRoot lg' n Hm Hn.
  - by apply elem_of_nil in Hn.
  - simpl in Hm. outcome_inv.
    apply elem_of_cons in Hn as [->|Hn].
    + match goal with Hc : Capped n0 = Ok ?c |- _ =>
        destruct (Capped_Ok_Encode _ _ Hc) as [e He];
        destruct (Encode_Ok_Hash _ _ He) as [h Hh] end.
      eexists _, _, _. do 3 (split; [done|]).
      case_decide as Hcond.
      * left. eexists _, _. eauto.
      * right. intros (c' & r' & Hc' & Hr' & Hcond'). apply Hcond.
        congruence.
    + case_decide; outcome_inv; eauto.
Qed.

End MergeFacts.

(** C5. In [merge], a node [n] of the inserted list is recorded in
    [log.inserted] under its hash, with its encoding, if and only if its
    capped form is 32 bytes long or is the capped form of the new root
    ([EmptyHash] when there is none): when the test holds the entry is
    written, when it fails the entry is what the first loop left, so that a
    hash not yet in the map is in it afterwards exactly when the test
    holds. In particular the new root is recorded whatever its length. *)
Theorem merge_records_inserted `{Primitives}
    (lg lg' : updateLog) (oldRoot : list byte) (newRoot : option node)
    (del ins : list node) (n : node) :
  merge lg oldRoot newRoot del ins = Ok lg' →
  n ∈ ins →
  (∀ n', n' ∈ ins → Hash n' = Hash n →
         Encode n' = Encode n ∧ Capped n' = Capped n) →
  ∃ h e lgd,
    Hash n = Ok h ∧ Encode n = Ok e ∧ mergeDeleted lg oldRoot del = Ok lgd ∧
    (recordedBy newRoot n → inserted lg' !! h = Some e) ∧
    (¬ recordedBy newRoot n → inserted lg' !! h = inserted lgd !! h) ∧
    (inserted lgd !! h = None →
       (inserted lg' !! h = Some e ↔ recordedBy newRoot n)) ∧
    (newRoot = Some n → inserted lg' !! h = Some e).
Proof.
  rewrite /merge. intros Hm Hn Hsame. outcome_inv.
  rename x into lgd.
  destruct (mergeInserted_Ok_each _ _ _ _ _ Hm Hn) as (c & e & h & Hc & He & Hh & Hdec).
  exists h, e, lgd. split; [done|]. split; [done|]. split; [done|].
  assert (recordedBy newRoot n → inserted lg' !! h = Some e) as Hyes.
  { intros Hrec. eapply mergeInserted_recorded; eauto.
    intros n' Hn' Hh'. rewrite -He. apply Hsame; [done|congruence]. }
  assert (¬ recordedBy newRoot n → inserted lg' !! h = inserted lgd !! h)
    as Hnot.
  { intros Hrec. eapply mergeInserted_untouched; eauto.
    intros n' Hn' Hh' (c' & r' & Hc' & Hr' & Hcond). apply Hrec.
    destruct (Hsame n' Hn') as [_ Hcap]; [congruence|].
    exists c', r'. split; [congruence|done]. }
  split; [done|]. split; [done|]. split.
  - intros Hfresh. split; [|done].
    intros Hin. destruct Hdec as [|Hrec]; [done|].
    rewrite (Hnot Hrec) Hfresh in Hin. done.
  - intros ->. apply Hyes. exists c, c. rewrite Hc. eauto.
Qed.

(** ** Resolving a hash *)


(** ** Decoding does not depend on the fuel it is given, once it is enough *)

Section DecodeFuel.
Context `{Primitives}.

Lemma decodeChildren_agree (rec1 rec2 : list byte → outcome decoded) raw :
  (∀ b r, rec1 b = Ok r → rec2 b = Ok r) →
  ∀ i children err r,
    decodeChildren rec1 i raw children err = Ok r →
    decodeChildren rec2 i raw children err = Ok r.
Proof.
  intros Hrec. induction raw as [|child rest IH]; intros i children err r;
    simpl; [done|].
  repeat case_decide.
  - intros Hd. outcome_inv.
    match goal with E : setChild _ _ _ _ = Ok _ |- _ => rewrite E /= end.
    eauto.
  - intros Hd. outcome_inv.
    match goal with E : setChild _ _ _ _ = Ok _ |- _ => rewrite E /= end.
    eauto.
  - intros Hd. outcome_inv.
    match goal with E : rec1 _ = Ok ?x |- _ =>
      rewrite (Hrec _ _ E) /=; destruct x end.
    outcome_inv.
    match goal with E : setChild _ _ _ _ = Ok _ |- _ => rewrite E /= end.
    eauto.
Qed.

Lemma decodeNode_unfold fuel bytes :
  decodeNode (S fuel) bytes =
  if decide (length bytes ≤ 1) then Ok (None, Some ErrUnexpectedEOF)
  else
    let flag := default x00 (last bytes) in
    let raw := take (length bytes - 1) bytes in
    let tag := lowNibble flag in
    if decide (tag = leafType) then decodeLeafNode raw flag
    else if decide (tag = extType) then
      decodeExtNode (decodeNode fuel) raw flag
    else if decide (tag = branchType) then
      decodeBranchNode (decodeNode fuel) raw
    else Ok (None, Some (ErrUnknownNodeType flag)).
Proof. done. Qed.

Lemma decodeNode_S fuel : ∀ bytes r,
  decodeNode fuel bytes = Ok r → decodeNode (S fuel) bytes = Ok r.
Proof.
  induction fuel as [|fuel IH]; intros bytes r; [done|].
  rewrite !decodeNode_unfold. cbv zeta.
  repeat case_decide; try done.
  - rewrite /decodeExtNode.
    destruct (unmarshalExt _) as [[rawKey rawNode]|]; [|done].
    destruct (decodeKey _ _) as [[keyNibbles ?]| |]; [|done..].
    rewrite [_ ≫= _]/=. rewrite [X in _ → X]/=.
    case_decide; [done|]. intros Hd. outcome_inv.
    match goal with E : decodeNode fuel _ = Ok ?x |- _ =>
      rewrite (IH _ _ E); by destruct x end.
  - rewrite /decodeBranchNode.
    destruct (unmarshalBranch _) as [[rawChildren rawTarget]|]; [|done].
    intros Hd. outcome_inv.
    match goal with E : decodeChildren _ _ _ _ _ = Ok ?x |- _ =>
      rewrite (decodeChildren_agree _ _ _ (IH) _ _ _ _ E); by destruct x
    end.
Qed.

Lemma decodeNode_le fuel fuel' bytes r :
  fuel ≤ fuel' → decodeNode fuel bytes = Ok r →
  decodeNode fuel' bytes = Ok r.
Proof. induction 1; eauto using decodeNode_S. Qed.

Lemma decodeNode_det fuel fuel' bytes r r' :
  decodeNode fuel bytes = Ok r → decodeNode fuel' bytes = Ok r' → r = r'.
Proof.
  intros H1 H2.
  apply (decodeNode_le _ (fuel `max` fuel')) in H1; [|lia].
  apply (decodeNode_le _ (fuel `max` fuel')) in H2; [|lia]. congruence.
Qed.

End DecodeFuel.

(** ** What a call does to the receiver's journal *)

Section Frame.
Context `{Primitives}.
Variable db : store.

Lemma cacheGrows_refl lg : cacheGrows db lg lg.
Proof. repeat split. intros h. by left. Qed.

Lemma cacheGrows_trans lg1 lg2 lg3 :
  cacheGrows db lg1 lg2 → cacheGrows db lg2 lg3 → cacheGrows db lg1 lg3.
Proof.
  intros (Hi1 & Hd1 & Hc1) (Hi2 & Hd2 & Hc2).
  split; [congruence|]. split; [congruence|].
  intros h. destruct (Hc2 h) as [E2|(Hn & Hni & Hnd & b & Hb)].
  - rewrite E2. apply Hc1.
  - destruct (Hc1 h) as [E1|(_ & _ & _ & b' & Hb' & _)]; [|congruence].
    right. rewrite -E1 -Hi1 -Hd1. eauto.
Qed.

Lemma M_bind_unfold {A B} (m : M A) (f : A → M B) lg :
  (m ≫= f) lg =
  match m lg with
  | (lg', Ok a) => f a lg'
  | (lg', Panic p) => (lg', Panic p)
  | (lg', OutOfFuel) => (lg', OutOfFuel)
  end.
Proof. done. Qed.

Lemma M_bind_Ok {A B} (m : M A) (f : A → M B) lg lg' b :
  (m ≫= f) lg = (lg', Ok b) →
  ∃ a lg1, m lg = (lg1, Ok a) ∧ f a lg1 = (lg', Ok b).
Proof.
  rewrite M_bind_unfold. destruct (m lg) as [lg1 [a| |]]; [|done..]. eauto.
Qed.

Lemma cachesOnly_ret {A} (a : A) : cachesOnly db (mret a).
Proof. intros lg. apply cacheGrows_refl. Qed.

Lemma cachesOnly_pure {A} (o : outcome A) : cachesOnly db (pure o).
Proof. intros lg. apply cacheGrows_refl. Qed.

Lemma cachesOnly_panic {A} msg : cachesOnly db (panic (A:=A) msg).
Proof. apply cachesOnly_pure. Qed.

Lemma cachesOnly_currentLog : cachesOnly db currentLog.
Proof. intros lg. apply cacheGrows_refl. Qed.

Lemma cachesOnly_bind {A B} (m : M A) (f : A → M B) :
  cachesOnly db m → (∀ a, cachesOnly db (f a)) → cachesOnly db (m ≫= f).
Proof.
  intros Hm Hf lg. rewrite M_bind_unfold. specialize (Hm lg).
  destruct (m lg) as [lg' [a| |]]; [|done..].
  eapply cacheGrows_trans; [done|]. apply Hf.
Qed.

Lemma cachesOnly_resolveHash fuel h : cachesOnly db (resolveHash db fuel h).
Proof.
  intros lg. rewrite /resolveHash /fetchFromDB.
  destruct (deleted lg !! h) eqn:Hd; [apply cacheGrows_refl|].
  destruct (inserted lg !! h) eqn:Hi; [apply cacheGrows_refl|].
  destruct (cached lg !! h) eqn:Hc; [apply cacheGrows_refl|].
  destruct (db !! h) as [bytes|] eqn:Hdb; [|apply cacheGrows_refl].
  case_decide as Hl; [apply cacheGrows_refl|].
  destruct (decodeNode fuel bytes) as [[n [e|]]| |] eqn:Hdec;
    try apply cacheGrows_refl.
  simpl. split; [done|]. split; [done|]. intros h'.
  destruct (decide (h = h')) as [<-|Hne].
  - right. rewrite lookup_insert_eq. do 3 (split; [done|]).
    exists bytes. do 2 (split; [done|]). split; [|eauto].
    by intros ->.
  - left. by rewrite lookup_insert_ne.
Qed.

Lemma cacheBlind_ret {A} (a : A) : cacheBlind db (mret a).
Proof. by intros lg1 lg2 Hg. Qed.

Lemma cacheBlind_pure {A} (o : outcome A) : cacheBlind db (pure o).
Proof. by intros lg1 lg2 Hg. Qed.

Lemma cacheBlind_bind {A B} (m : M A) (f : A → M B) :
  cacheBlind db m → (∀ a, cacheBlind db (f a)) → cacheBlind db (m ≫= f).
Proof.
  intros Hm Hf lg1 lg2 Hg. rewrite !M_bind_unfold.
  destruct (Hm _ _ Hg) as [Hr Hg'].
  destruct (m lg1) as [lg1' r1], (m lg2) as [lg2' r2]. simpl in *. subst r2.
  destruct r1 as [a| |]; [|done..]. by apply Hf.
Qed.

Lemma cacheBlind_resolveHash fuel h : cacheBlind db (resolveHash db fuel h).
Proof.
  intros lg1 lg2 Hg.
  pose proof (cachesOnly_resolveHash fuel h lg1) as Hg1.
  pose proof (cachesOnly_resolveHash fuel h lg2) as Hg2.
  destruct Hg as (Hi & Hd & Hc).
  move: Hg1 Hg2. rewrite /resolveHash /fetchFromDB Hi Hd.
  destruct (deleted lg1 !! h) eqn:Ed.
  { intros _ _. by split; [|split]. }
  destruct (inserted lg1 !! h) eqn:Ei.
  { intros _ _. by split; [|split]. }
  destruct (Hc h) as [E|(Hn & _ & _ & bytes & Hb & Hdb & Hne & f0 & n0 & Hdec)].
  - rewrite E. destruct (cached lg1 !! h) eqn:Ec.
    { intros _ _. by split; [|split]. }
    destruct (db !! h) as [bytes|] eqn:Hdb; [|intros _ _; by split; [|split]].
    case_decide; [intros _ _; by split; [|split]|].
    destruct (decodeNode fuel bytes) as [[n [e|]]| |] eqn:Hdec;
      try (intros _ _; by split; [|split]).
    simpl. intros Hg1 Hg2. split; [done|].
    split; [by rewrite Hi|]. split; [by rewrite Hd|].
    intros h'. destruct (decide (h = h')) as [<-|Hne].
    + left. by rewrite !lookup_insert_eq.
    + rewrite !lookup_insert_ne //.
  - rewrite Hn Hb Hdb. case_decide as Hl; [by destruct bytes|].
    destruct (decodeNode fuel bytes) as [[n [e|]]| |] eqn:Hdec'.
    + by pose proof (decodeNode_det _ _ _ _ _ Hdec Hdec').
    + simpl. intros Hg1 Hg2. split; [done|].
      split; [by rewrite Hi|]. split; [by rewrite Hd|].
      intros h'. destruct (decide (h = h')) as [<-|Hne'].
      * left. by rewrite lookup_insert_eq.
      * rewrite lookup_insert_ne //.
    + intros _ _. by split; [|split].
    + intros _ _. by split; [|split].
Qed.

End Frame.

Section FrameTrie.
Context `{Primitives}.
Variable db : store.

Lemma tryGet_unfold fuel startNode searchKey :
  tryGet db (S fuel) startNode searchKey =
  match startNode with
  | Some (leafNode key value) =>
      if decide (searchKey = key) then mret value else mret None
  | Some (extNode key child) =>
      if decide (length searchKey < length key) then mret None
      else if decide (take (length key) searchKey = key)
      then tryGet db fuel child (drop (length key) searchKey)
      else mret None
  | Some (branchNode children target) =>
      match searchKey with
      | [] => mret target
      | p :: rest =>
          child ← pure (index "tryGet: n.children[searchKey[0]]"
                          children (Byte.to_nat p));
          tryGet db fuel child rest
      end
  | Some (hashNode hash) =>
      h ← pure (Hash (hashNode hash));
      '(resolved, err) ← resolveHash db fuel h;
      match err with
      | Some _ => mret None
      | None => tryGet db fuel resolved searchKey
      end
  | None => mret None
  end.
Proof. done. Qed.

Lemma insert_unfold fuel startNode searchKey value :
  insert db (S fuel) startNode searchKey value =
  match startNode with
  | Some (leafNode key leafValue) =>
      insertToLeaf (insert db fuel) key leafValue searchKey value
  | Some (extNode key child) =>
      insertToExt (insert db fuel) key child searchKey value
  | Some (branchNode children target) =>
      insertToBranch (insert db fuel) children target searchKey value
  | Some (hashNode hash) =>
      h ← pure (Hash (hashNode hash));
      '(resolved, err) ← resolveHash db fuel h;
      match err with
      | Some _ => panic "insert: can't resolve hashNode"
      | None => insert db fuel resolved searchKey value
      end
  | None => nilResult
  end.
Proof. done. Qed.

Lemma delete_unfold fuel startNode searchKey :
  delete db (S fuel) startNode searchKey =
  match startNode with
  | Some (leafNode key leafValue) => deleteFromLeaf key leafValue searchKey
  | Some (extNode key child) =>
      deleteFromExt db (delete db fuel) fuel key child searchKey
  | Some (branchNode children target) =>
      deleteFromBranch db (delete db fuel) fuel children target searchKey
  | Some (hashNode hash) =>
      h ← pure (Hash (hashNode hash));
      '(resolved, err) ← resolveHash db fuel h;
      match err with
      | Some _ => panic "delete: can't resolve hashNode"
      | None => delete db fuel resolved searchKey
      end
  | None => nilResult
  end.
Proof. done. Qed.

(** One step of a proof that a method only caches. *)
Ltac caches_step :=
  first
    [ apply cachesOnly_ret
    | apply cachesOnly_pure
    | apply cachesOnly_panic
    | apply cachesOnly_currentLog
    | apply cachesOnly_resolveHash
    | progress auto
    | apply cachesOnly_bind; [|intros ?]
    | case_decide
    | case_match ].

Lemma cachesOnly_tryGet fuel : ∀ startNode searchKey,
  cachesOnly db (tryGet db fuel startNode searchKey).
Proof.
  induction fuel as [|fuel IH]; intros startNode searchKey.
  - apply cachesOnly_pure.
  - rewrite tryGet_unfold. repeat caches_step.
Qed.

Lemma cachesOnly_Get root fuel key : cachesOnly db (Get db root fuel key).
Proof.
  rewrite /Get. pose proof (cachesOnly_tryGet fuel). repeat caches_step.
Qed.

Lemma cachesOnly_insert fuel : ∀ startNode searchKey value,
  cachesOnly db (insert db fuel startNode searchKey value).
Proof.
  induction fuel as [|fuel IH]; intros startNode searchKey value.
  - apply cachesOnly_pure.
  - rewrite insert_unfold.
    rewrite /insertToLeaf /insertToExt /insertToBranch /nilResult.
    repeat caches_step.
Qed.

Lemma cachesOnly_Insert root fuel key value :
  cachesOnly db (Insert db root fuel key value).
Proof.
  rewrite /Insert /insertAtRoot. pose proof (cachesOnly_insert fuel).
repeat caches_step.
Qed.

Lemma cachesOnly_tryFix fuel startNode updates :
  cachesOnly db (tryFix db fuel startNode updates).
Proof.
  rewrite /tryFix /tryFixBranch /tryFixExt. repeat caches_step.
Qed.

Lemma cachesOnly_delete fuel : ∀ startNode searchKey,
  cachesOnly db (delete db fuel startNode searchKey).
Proof.
  induction fuel as [|fuel IH]; intros startNode searchKey.
  - apply cachesOnly_pure.
  - rewrite delete_unfold.
    rewrite /deleteFromLeaf /deleteFromExt /deleteFromBranch /nilResult.
    pose proof (cachesOnly_tryFix fuel).
    repeat caches_step.
Qed.

Lemma cachesOnly_Delete root fuel key :
  cachesOnly db (Delete db root fuel key).
Proof.
  rewrite /Delete. pose proof (cachesOnly_delete fuel). repeat caches_step.
Qed.

Ltac blind_step :=
  first
    [ apply cacheBlind_ret
    | apply cacheBlind_pure
    | apply cacheBlind_resolveHash
    | progress auto
    | apply cacheBlind_bind; [|intros ?]
    | case_decide
    | case_match ].

Lemma cacheBlind_tryGet fuel : ∀ startNode searchKey,
  cacheBlind db (tryGet db fuel startNode searchKey).
Proof.
  induction fuel as [|fuel IH]; intros startNode searchKey.
  - apply cacheBlind_pure.
  - rewrite tryGet_unfold. repeat blind_step.
Qed.

Lemma cacheBlind_Get root fuel key : cacheBlind db (Get db root fuel key).
Proof.
  rewrite /Get. pose proof (cacheBlind_tryGet fuel). repeat blind_step.
Qed.

End FrameTrie.

(** ** The receiver of a call *)

(** C10. A handle made by [NewTrie] has an empty journal (all three maps);
    so [CommitToBatch] on it asks for no put and no delete and [Persist]
    leaves the store as it is, also after reads through the handle, and a
    handle reopened on the root of another carries none of that one's
    journal. *)
Theorem NewTrie_journal_empty `{Primitives} (db : store) (root : list byte) :
  cached (log (NewTrie root)) = ∅
  ∧ inserted (log (NewTrie root)) = ∅
  ∧ deleted (log (NewTrie root)) = ∅
  ∧ CommitToBatch (NewTrie root) = []
  ∧ Persist db (NewTrie root) = db
  ∧ (∀ t : Trie, log (NewTrie (StateRoot t)) = newUpdateLog
                 ∧ CommitToBatch (NewTrie (StateRoot t)) = [])
  ∧ (∀ fuel key,
       CommitToBatch (TrieGet db fuel (NewTrie root) key).1 = []).
Proof.
  do 6 (split; [done|]).
  intros fuel key. rewrite /TrieGet /=.
  pose proof (cachesOnly_Get db root fuel key newUpdateLog) as (Hi & Hd & _).
  destruct (Get db root fuel key newUpdateLog) as [lg r].
  rewrite /CommitToBatch /=. simpl in Hi, Hd. by rewrite Hi Hd.
Qed.

(** C3, as the code has it. After [T.Insert(k, v)], whatever its outcome,
    the receiver [T] has the root hash it had, its journal has the
    insertions and the deletions it had, and [cached] has what it had and,
    besides, the store's bytes for hashes the call fetched; [T.Get] answers
    for every key what it answered before. *)
Theorem Insert_leaves_receiver `{Primitives}
    (db : store) (fuel : nat) (t : Trie) (key : list byte) (value : gobytes) :
  let tAfter := (TrieInsert db fuel t key value).1 in
  rootHash tAfter = rootHash t
  ∧ inserted (log tAfter) = inserted (log t)
  ∧ deleted (log tAfter) = deleted (log t)
  ∧ cached (log t) ⊆ cached (log tAfter)
  ∧ cacheGrows db (log t) (log tAfter)
  ∧ ∀ fuel' key',
      (TrieGet db fuel' tAfter key').2 = (TrieGet db fuel' t key').2.
Proof.
  rewrite /TrieInsert.
  pose proof (cachesOnly_Insert db (rootHash t) fuel key value (log t)) as Hg.
  destruct (Insert db (rootHash t) fuel key value (log t)) as [lg r].
  simpl in *. split; [done|].
  destruct Hg as (Hi & Hd & Hc).
  split; [done|]. split; [done|]. split; [|split; [done|]].
  - apply map_subseteq_spec. intros h b Hb.
    destruct (Hc h) as [E|(Hn & _)]; congruence.
  - intros fuel' key'. rewrite /TrieGet /=.
    destruct (cacheBlind_Get db (rootHash t) fuel' key' (log t) lg) as [E _];
      [done|].
    destruct (Get db (rootHash t) fuel' key' (log t)),
             (Get db (rootHash t) fuel' key' lg). done.
Qed.

Section ReceiverOnSample.
#[local] Existing Instance Sample.primitives.

(** C3, as stated, fails: on a handle reopened on a persisted root, [Insert]
  fetches the root node from the store and the receiver's [cached] map,
  empty before the call, holds it afterwards. *)
Lemma Insert_writes_receiver_cache :
succeeded (TrieInsert Scenario.oneKeyStore Sample.fuel Scenario.reloaded
             (Sample.text "dog") (Some (Sample.text "bark"))).2 = true
∧ cached (log Scenario.reloaded) = ∅
∧ log (TrieInsert Scenario.oneKeyStore Sample.fuel Scenario.reloaded
         (Sample.text "dog") (Some (Sample.text "bark"))).1
  ≠ log Scenario.reloaded.
Proof.
split; [|split].
- vm_compute. reflexivity.
- vm_compute. reflexivity.
- intros E. apply (f_equal (λ lg, size (cached lg))) in E.
  vm_compute in E. discriminate E.
Qed.

End ReceiverOnSample.

(** ** Failures of resolution *)

Section Failures.
Context `{Primitives}.
Variable db : store.






End Failures.


Section FailuresOnSample.
#[local] Existing Instance Sample.primitives.


End FailuresOnSample.

(** ** Slots taken at the first nibble of the search key *)

Section Nibbles.

Lemma byte_of_N_to_N n : (n < 256)%N → Byte.to_N (byte_of_N n) = n.
Proof.
  intros Hn. rewrite /byte_of_N.
  destruct (Byte.of_N n) as [b|] eqn:E.
  - by apply Byte.to_of_N in E.
  - apply Byte.of_N_None_iff in E. lia.
Qed.

Lemma to_N_lt_256 b : (Byte.to_N b < 256)%N.
Proof. pose proof (Byte.to_N_bounded b). lia. Qed.

Lemma bytesToNibbles_nibbles bytes : Forall is_nibble (bytesToNibbles bytes).
Proof.
  induction bytes as [|b rest IH]; simpl; [constructor|].
  pose proof (to_N_lt_256 b) as Hb.
  assert (Byte.to_N b / 16 < 16)%N as Hhi
    by (apply N.Div0.div_lt_upper_bound; lia).
  assert (Byte.to_N b mod 16 < 16)%N as Hlo by (apply N.mod_lt; lia).
  constructor; [|constructor; [|done]];
    rewrite /is_nibble byte_of_N_to_N; lia.
Qed.

Lemma bytesToNibbles_length bytes :
  length (bytesToNibbles bytes) = 2 * length bytes.
Proof. induction bytes as [|b rest IH]; simpl; [done|]. lia. Qed.

Lemma nibble_to_nat p : is_nibble p → Byte.to_nat p < 16.
Proof. rewrite /is_nibble Byte.to_nat_via_N. lia. Qed.

End Nibbles.

Section Bounds.
Context `{Primitives}.

(** A site that is not one of those at the search key. *)
Ltac other_site :=
  let Hs := fresh in
  intros Hs; apply list_elem_of_In in Hs; simpl in Hs;
  repeat (destruct Hs as [Hs|Hs]; [discriminate Hs|]); exact Hs.

Lemma yields_bind {A B} (o : outcome A) (f : A → outcome B) Q R :
  yields o Q → (∀ a, Q a → yields (f a) R) → yields (o ≫= f) R.
Proof. destruct o as [a| |]; simpl; eauto. Qed.

Lemma yields_weaken {A} (o : outcome A) (Q R : A → Prop) :
  yields o Q → (∀ a, Q a → R a) → yields o R.
Proof. destruct o as [a| |]; simpl; eauto. Qed.

Lemma answers_ret {A} (a : A) (Q : A → Prop) : Q a → answers (mret a) Q.
Proof. by intros Ha lg. Qed.

Lemma answers_pure {A} (o : outcome A) Q : yields o Q → answers (pure o) Q.
Proof. by intros Ho lg. Qed.

Lemma answers_bind {A B} (m : M A) (f : A → M B) Q R :
  answers m Q → (∀ a, Q a → answers (f a) R) → answers (m ≫= f) R.
Proof.
  intros Hm Hf lg. rewrite M_bind_unfold. specialize (Hm lg).
  destruct (m lg) as [lg' [a| |]]; simpl in *; [|done..].
  by apply Hf.
Qed.

Lemma answers_bind_Ok {A B} (a : A) (f : A → M B) R :
  answers (f a) R → answers (pure (Ok a) ≫= f) R.
Proof. intros Hf lg. apply Hf. Qed.

Lemma answers_weaken {A} (m : M A) (Q R : A → Prop) :
  answers m Q → (∀ a, Q a → R a) → answers m R.
Proof. intros Hm HQR lg. eapply yields_weaken; eauto. Qed.

(** *** Branches of 16 slots *)

Lemma sixteen_branch children target :
  sixteen (branchNode children target) =
  bool_decide (length children = 16)
  && forallb (sixteenOpt sixteen) children.
Proof.
  reflexivity.
Qed.

Lemma sixteen_noChildren target : sixteen (branchNode noChildren target).
Proof. done. Qed.

Lemma forallb_insert (children : list (option node)) pos n :
  forallb (sixteenOpt sixteen) children →
  sixteenOpt sixteen n →
  forallb (sixteenOpt sixteen) (<[pos:=n]> children).
Proof.
  revert pos. induction children as [|c rest IH]; intros pos; [done|].
  simpl. intros [Hc Hr]%andb_prop_elim Hn. destruct pos as [|pos]; simpl.
  - apply andb_prop_intro. by split.
  - apply andb_prop_intro. split; [done|]. by apply IH.
Qed.

Lemma setChild_in_range site (children : list (option node)) pos n :
  pos < length children →
  setChild site children pos n = Ok (<[pos:=n]> children).
Proof. intros Hp. rewrite /setChild. by case_decide. Qed.

Lemma insert_sixteen children pos n target :
  sixteen (branchNode children target) → sixteenOpt sixteen n →
  sixteen (branchNode (<[pos:=n]> children) target).
Proof.
  rewrite !sixteen_branch. intros [Hl Hc]%andb_prop_elim Hn.
  apply andb_prop_intro. split.
  - by rewrite length_insert.
  - by apply forallb_insert.
Qed.

Lemma setChild_sixteen site children pos n target :
  site ∉ searchKeySites →
  sixteen (branchNode children target) → sixteenOpt sixteen n →
  yields (setChild site children pos n)
    (λ children', sixteen (branchNode children' target)).
Proof.
  intros Hs Hb Hn. rewrite /setChild.
  case_decide; [exact (insert_sixteen _ _ _ target Hb Hn)|done].
Qed.

Lemma sixteen_lookup children target pos :
  sixteen (branchNode children target) → pos < 16 →
  ∃ c, children !! pos = Some c ∧ sixteenOpt sixteen c.
Proof.
  rewrite (sixteen_branch children target).
  intros [Hl Hc]%andb_prop_elim Hp.
  apply bool_decide_unpack in Hl.
  destruct (lookup_lt_is_Some_2 children pos) as [c Hc']; [lia|].
  exists c. split; [done|].
  apply Is_true_true in Hc. rewrite forallb_forall in Hc.
  apply Is_true_true, Hc. apply list_elem_of_In. by eapply list_elem_of_lookup_2.
Qed.

Lemma sixteen_length children target :
  sixteen (branchNode children target) → length children = 16.
Proof.
  rewrite (sixteen_branch children target). intros [Hl _]%andb_prop_elim.
  by apply bool_decide_unpack in Hl.
Qed.

(** *** Decoding *)

Lemma decodeKey_yields flag bytes : yields (decodeKey flag bytes) (λ _, True).
Proof. rewrite /decodeKey. case_decide; [|done]. by case_match. Qed.

Lemma decodeChildren_yields (rec : list byte → outcome decoded) raw :
  (∀ b, yields (rec b) (λ r, sixteenOpt sixteen r.1)) →
  ∀ i children err target,
    sixteen (branchNode children target) →
    yields (decodeChildren rec i raw children err)
      (λ r, sixteen (branchNode r.1 target)).
Proof.
  intros Hrec. induction raw as [|child rest IH];
    intros i children err target Hb; cbn [decodeChildren]; [done|].
  assert ("decodeBranchNode: n.children[i]"%string ∉ searchKeySites)
    as Hsite by other_site.
  repeat case_decide.
  - eapply yields_bind; [by apply (setChild_sixteen _ _ _ _ target)|].
    intros children' Hc. by apply (IH _ _ _ target).
  - eapply yields_bind; [by apply (setChild_sixteen _ _ _ _ target)|].
    intros children' Hc. by apply (IH _ _ _ target).
  - eapply yields_bind; [apply Hrec|]. intros [n err'] Hn.
    eapply yields_bind; [by apply (setChild_sixteen _ _ _ _ target)|].
    intros children' Hc. by apply (IH _ _ _ target).
Qed.

Lemma decodeNode_yields fuel : ∀ bytes,
  yields (decodeNode fuel bytes) (λ r, sixteenOpt sixteen r.1).
Proof.
  induction fuel as [|fuel IH]; intros bytes; [done|].
  rewrite decodeNode_unfold. cbv zeta. repeat case_decide; try done.
  - rewrite /decodeLeafNode. case_match; [|done]. case_match.
    eapply yields_bind; [apply decodeKey_yields|]. by intros [? ?] _.
  - rewrite /decodeExtNode. case_match; [|done]. case_match.
    eapply yields_bind; [apply decodeKey_yields|]. intros [? ?] _.
    case_decide; [done|].
    eapply yields_bind; [apply IH|]. by intros [? ?] ?.
  - rewrite /decodeBranchNode. case_match; [|done]. case_match.
    eapply yields_bind.
    + apply (decodeChildren_yields _ _ IH 0 noChildren None g).
      apply sixteen_noChildren.
    + by intros [? ?] ?.
Qed.


(** *** Encoding stops at no slot of a branch *)

Lemma nibblesToBytes_yields nibbles :
  yields (nibblesToBytes nibbles) (λ _, True).
Proof.
  assert (∀ n nibbles, length nibbles ≤ n →
            yields (nibblesToBytes nibbles) (λ _, True)) as Hn.
  { clear nibbles. induction n as [|n IH]; intros [|hi [|lo rest]] Hl;
      simpl in *; try done; try lia.
    all: try other_site.
    eapply yields_bind; [|done]. apply IH. lia. }
  by apply (Hn (length nibbles)).
Qed.

Lemma encodeKey_yields nibbles nodeType :
  yields (encodeKey nibbles nodeType) (λ _, True).
Proof.
  rewrite /encodeKey.
  eapply yields_bind; [apply nibblesToBytes_yields|done].
Qed.

Lemma Encode_yields n : yields (Encode n) (λ _, True).
Proof.
  induction n as [key value|key child IH|children target IH|hash]
    using node_induction; cbn [Encode].
  - eapply yields_bind; [apply encodeKey_yields|]. by intros [? ?] _.
  - eapply (yields_bind _ _ (λ _, True)).
    + destruct child as [c|]; [|done].
      eapply yields_bind; [apply IH|done].
    + intros capped _.
      eapply yields_bind; [apply encodeKey_yields|]. by intros [? ?] _.
  - eapply (yields_bind _ _ (λ _, True)); [|done].
    induction IH as [|c rest Hc _ IHrest]; [done|].
    destruct c as [c|].
    + eapply yields_bind; [apply Hc|]. intros encoded _.
      eapply yields_bind; [apply IHrest|done].
    + eapply yields_bind; [apply IHrest|done].
  - done.
Qed.

Lemma Capped_yields n : yields (Capped n) (λ _, True).
Proof.
  rewrite /Capped. eapply yields_bind; [apply Encode_yields|done].
Qed.

Lemma Hash_yields n : yields (Hash n) (λ _, True).
Proof.
  rewrite /Hash. destruct n; try done;
    (eapply yields_bind; [apply Encode_yields|done]).
Qed.

Lemma hashOf_yields site n : yields (hashOf site n) (λ _, True).
Proof. destruct n; [apply Hash_yields|done]. Qed.

Lemma getNodeFrom_yields nodes hash :
  yields (getNodeFrom nodes hash) (λ _, True).
Proof.
  induction nodes as [|n rest IH]; [done|]. simpl.
  eapply yields_bind; [apply Hash_yields|]. intros h _. by case_decide.
Qed.

Lemma mergeDeleted_yields nodes : ∀ lg oldRoot,
  yields (mergeDeleted lg oldRoot nodes) (λ _, True).
Proof.
  induction nodes as [|n rest IH]; intros lg oldRoot; [done|]. simpl.
  eapply yields_bind; [apply Capped_yields|]. intros c _.
  eapply yields_bind; [apply Hash_yields|]. intros h _.
  case_decide; apply IH.
Qed.

Lemma mergeInserted_yields nodes : ∀ lg newRoot,
  yields (mergeInserted lg newRoot nodes) (λ _, True).
Proof.
  induction nodes as [|n rest IH]; intros lg newRoot; [done|]. simpl.
  eapply yields_bind; [apply Capped_yields|]. intros c _.
  eapply (yields_bind _ _ (λ _, True)).
  { destruct newRoot; [apply Capped_yields|done]. }
  intros r _. case_decide; [|apply IH].
  eapply yields_bind; [apply Hash_yields|]. intros h _.
  eapply yields_bind; [apply Encode_yields|]. intros e _. apply IH.
Qed.

Lemma merge_yields lg oldRoot newRoot del ins :
  yields (merge lg oldRoot newRoot del ins) (λ _, True).
Proof.
  rewrite /merge. eapply yields_bind; [apply mergeDeleted_yields|].
  intros lg' _. apply mergeInserted_yields.
Qed.


(** *** The trie *)

Variable db : store.

Lemma resolveHash_answers fuel h :
  answers (resolveHash db fuel h) (λ r, sixteenOpt sixteen r.1).
Proof.
  intros lg. rewrite /resolveHash /fetchFromDB.
  repeat case_match; simplify_eq/=; try done;
    try apply decodeNode_yields.
  all: match goal with
       | E : decodeNode ?f ?b = _ |- _ =>
           pose proof (decodeNode_yields f b) as Hy; rewrite E in Hy
       end; done.
Qed.

Lemma index_nibble site children target p :
  sixteen (branchNode children target) → is_nibble p →
  ∃ c, index site children (Byte.to_nat p) = Ok c ∧ sixteenOpt sixteen c.
Proof.
  intros Hb Hp.
  destruct (sixteen_lookup children target (Byte.to_nat p) Hb)
    as (c & Hc & Hs); [by apply nibble_to_nat|].
  exists c. by rewrite /index Hc.
Qed.

Lemma updateChild_nibble children target p n :
  sixteen (branchNode children target) → is_nibble p →
  ∃ b, updateChild children target (Byte.to_nat p) n = Ok b.
Proof.
  intros Hb Hp.
  assert (Byte.to_nat p < length children) as Hlt.
  { rewrite (sixteen_length _ _ Hb). by apply nibble_to_nat. }
  rewrite /updateChild (setChild_in_range _ _ _ _ Hlt). by eauto.
Qed.

Lemma branchWithChild_yields pos n target :
  sixteenOpt sixteen n →
  yields (branchWithChild pos n target) (λ b, sixteen b).
Proof.
  intros Hn. rewrite /branchWithChild.
  eapply yields_bind.
  - apply (setChild_sixteen _ _ _ _ target); [other_site|done..].
  - by intros children' Hc.
Qed.

Lemma tryGet_answers fuel : ∀ startNode searchKey,
  sixteenOpt sixteen startNode → Forall is_nibble searchKey →
  answers (tryGet db fuel startNode searchKey) (λ _, True).
Proof.
  induction fuel as [|fuel IH]; intros startNode searchKey Hs Hk; [done|].
  rewrite tryGet_unfold.
  destruct startNode as [[key value|key child|children target|hash]|].
  - case_decide; by apply answers_ret.
  - repeat case_decide; try by apply answers_ret.
    apply IH; [done|]. by apply Forall_drop.
  - destruct searchKey as [|p rest]; [by apply answers_ret|].
    apply Forall_cons in Hk as [Hp Hrest].
    destruct (index_nibble "tryGet: n.children[searchKey[0]]"
                children target p Hs Hp) as (c & -> & Hc).
    apply answers_bind_Ok. by apply IH.
  - apply answers_bind_Ok.
    eapply answers_bind; [apply resolveHash_answers|].
    intros [resolved [e|]] Hr; [by apply answers_ret|]. by apply IH.
  - by apply answers_ret.
Qed.

Lemma Get_answers root fuel key :
  answers (Get db root fuel key) (λ _, True).
Proof.
  rewrite /Get. case_decide; [by apply answers_ret|].
  eapply answers_bind; [apply resolveHash_answers|].
  intros [rootNode [e|]] Hr; [by apply answers_ret|].
  apply tryGet_answers; [done|]. apply bytesToNibbles_nibbles.
Qed.

Lemma insertToLeaf_answers rec key leafValue searchKey value :
  insertsInBounds rec → Forall is_nibble searchKey →
  answers (insertToLeaf rec key leafValue searchKey value) (λ _, True).
Proof.
  intros Hrec Hk. rewrite /insertToLeaf. cbv zeta.
  case_decide; [by apply answers_ret|].
  case_decide.
  - eapply (answers_bind _ _ (λ r, sixteen r.1)).
    + destruct key as [|k0 key']; [by apply answers_ret|].
      eapply answers_bind.
      * apply answers_pure. by apply branchWithChild_yields.
      * intros b Hb. by apply answers_ret.
    + intros [tempBranch maybeLeaf] Hb.
      eapply answers_bind; [by apply Hrec|].
      intros result _. by apply answers_ret.
  - eapply answers_bind.
    + apply Hrec; [by case_decide|]. by apply Forall_drop.
    + intros result _. by apply answers_ret.
Qed.

Lemma insertToExt_answers rec key child searchKey value :
  insertsInBounds rec → sixteenOpt sixteen child →
  Forall is_nibble searchKey →
  answers (insertToExt rec key child searchKey value) (λ _, True).
Proof.
  intros Hrec Hc Hk. rewrite /insertToExt. cbv zeta.
  case_decide; [|case_decide].
  - eapply (answers_bind _ _ (λ r, sixteen r.1)).
    + destruct key as [|k0 [|k1 key']].
      * by apply answers_pure.
      * eapply answers_bind.
        -- apply answers_pure. by apply branchWithChild_yields.
        -- intros b Hb. by apply answers_ret.
      * eapply answers_bind.
        -- apply answers_pure. by apply branchWithChild_yields.
        -- intros b Hb. by apply answers_ret.
    + intros [tempBranch maybeChild] Hb.
      eapply answers_bind; [by apply Hrec|].
      intros result _. by apply answers_ret.
  - eapply answers_bind.
    + apply Hrec; [done|]. by apply Forall_drop.
    + intros result _. by apply answers_ret.
  - eapply answers_bind.
    + apply Hrec; [done|]. by apply Forall_drop.
    + intros result _. by apply answers_ret.
Qed.

Lemma insertToBranch_answers rec children target searchKey value :
  insertsInBounds rec → sixteen (branchNode children target) →
  Forall is_nibble searchKey →
  answers (insertToBranch rec children target searchKey value) (λ _, True).
Proof.
  intros Hrec Hb Hk. rewrite /insertToBranch. cbv zeta.
  destruct searchKey as [|p rest]; [by apply answers_ret|].
  apply Forall_cons in Hk as [Hp Hrest].
  destruct (index_nibble "insertToBranch: branch.children[pos]"
              children target p Hb Hp) as (c & -> & Hc).
  apply answers_bind_Ok.
  destruct c as [c|].
  - eapply answers_bind; [by apply Hrec|]. intros result _.
    destruct (updateChild_nibble children target p (newNode result) Hb Hp)
      as [b ->].
    apply answers_bind_Ok. by apply answers_ret.
  - destruct (updateChild_nibble children target p
                (Some (newLeafNode rest value)) Hb Hp) as [b ->].
    apply answers_bind_Ok. by apply answers_ret.
Qed.

Lemma insert_answers fuel : insertsInBounds (insert db fuel).
Proof.
  induction fuel as [|fuel IH]; intros startNode searchKey value Hs Hk;
    [done|].
  rewrite insert_unfold.
  destruct startNode as [[key leafValue|key child|children target|hash]|].
  - by apply insertToLeaf_answers.
  - by apply insertToExt_answers.
  - by apply insertToBranch_answers.
  - apply answers_bind_Ok.
    eapply answers_bind; [apply resolveHash_answers|].
    intros [resolved [e|]] Hr; [by apply answers_pure|]. by apply IH.
  - by apply answers_pure.
Qed.

Lemma Insert_answers root fuel key value :
  answers (Insert db root fuel key value) (λ _, True).
Proof.
  rewrite /Insert. cbv zeta.
  eapply (answers_bind _ _ (λ _, True)).
  - rewrite /insertAtRoot. case_decide; [by apply answers_ret|].
    eapply answers_bind; [apply resolveHash_answers|].
    intros [rootNode [e|]] Hr; [by apply answers_pure|].
    apply insert_answers; [done|]. apply bytesToNibbles_nibbles.
  - intros result _.
    eapply answers_bind; [apply answers_pure, hashOf_yields|].
    intros newRootHash _.
    eapply (answers_bind _ _ (λ _, True)); [done|]. intros lg _.
    eapply answers_bind; [apply answers_pure, merge_yields|].
    intros newLog _. by apply answers_ret.
Qed.


Lemma tryFixExt_answers fuel key child updates :
  answers (tryFixExt db fuel key child updates) (λ _, True).
Proof.
  rewrite /tryFixExt. cbv zeta.
  eapply (answers_bind _ _ (λ _, True)).
  - destruct child as [[| | |hash]|]; try by apply answers_ret.
    apply answers_bind_Ok.
    eapply answers_bind; [apply answers_pure, getNodeFrom_yields|].
    intros [found|] _; [by apply answers_ret|].
    eapply answers_bind; [apply resolveHash_answers|].
    intros [resolved [e|]] _; [by apply answers_pure|by apply answers_ret].
  - intros [[| | |]|] _; by apply answers_ret.
Qed.

Lemma tryFix_answers fuel startNode updates :
  answers (tryFix db fuel startNode updates) (λ _, True).
Proof.
  rewrite /tryFix.
  destruct startNode as [[| |children target|]|]; try by apply answers_ret.
  - apply tryFixExt_answers.
  - rewrite /tryFixBranch. cbv zeta.
    repeat case_decide; try by apply answers_ret.
    eapply (answers_bind _ _ (λ _, True)).
    { apply answers_pure. rewrite /index. case_match; [done|other_site]. }
    intros idx _.
    eapply (answers_bind _ _ (λ _, True)).
    { apply answers_pure. rewrite /index. case_match; [done|other_site]. }
    intros c _. apply tryFixExt_answers.
Qed.

Lemma deleteFromExt_answers rec fuel key child searchKey :
  deletesInBounds rec → sixteenOpt sixteen child →
  Forall is_nibble searchKey →
  answers (deleteFromExt db rec fuel key child searchKey) (λ _, True).
Proof.
  intros Hrec Hc Hk. rewrite /deleteFromExt. cbv zeta.
  case_decide; [by apply answers_ret|].
  eapply answers_bind.
  - apply Hrec; [done|]. by apply Forall_drop.
  - intros result _. case_match; [by apply answers_ret|].
    eapply answers_bind; [apply tryFix_answers|].
    intros fixedNode _. by apply answers_ret.
Qed.

Lemma deleteFromBranch_answers rec fuel children target searchKey :
  deletesInBounds rec → sixteen (branchNode children target) →
  Forall is_nibble searchKey →
  answers (deleteFromBranch db rec fuel children target searchKey)
    (λ _, True).
Proof.
  intros Hrec Hb Hk. rewrite /deleteFromBranch. cbv zeta.
  destruct searchKey as [|p rest].
  - case_match; [|by apply answers_ret].
    eapply answers_bind; [apply tryFix_answers|].
    intros fixedNode _. by apply answers_ret.
  - apply Forall_cons in Hk as [Hp Hrest].
    destruct (index_nibble "deleteFromBranch: branch.children[childIndex]"
                children target p Hb Hp) as (c & -> & Hc).
    apply answers_bind_Ok.
    destruct c as [c|]; [|by apply answers_ret].
    eapply answers_bind; [by apply Hrec|]. intros result _.
    case_match; [by apply answers_ret|].
    destruct (updateChild_nibble children target p
                (newNode (operation result)) Hb Hp) as [b ->].
    apply answers_bind_Ok.
    eapply answers_bind; [apply tryFix_answers|].
    intros fixedNode _. by apply answers_ret.
Qed.

Lemma delete_answers fuel : deletesInBounds (delete db fuel).
Proof.
  induction fuel as [|fuel IH]; intros startNode searchKey Hs Hk; [done|].
  rewrite delete_unfold.
  destruct startNode as [[key leafValue|key child|children target|hash]|].
  - rewrite /deleteFromLeaf. case_decide; by apply answers_ret.
  - by apply deleteFromExt_answers.
  - by apply deleteFromBranch_answers.
  - apply answers_bind_Ok.
    eapply answers_bind; [apply resolveHash_answers|].
    intros [resolved [e|]] Hr; [by apply answers_pure|]. by apply IH.
  - by apply answers_pure.
Qed.

Lemma Delete_answers root fuel key :
  answers (Delete db root fuel key) (λ _, True).
Proof.
  rewrite /Delete. cbv zeta.
  case_decide.
  { eapply (answers_bind _ _ (λ _, True)); [done|].
    intros lg _. by apply answers_ret. }
  eapply answers_bind; [apply resolveHash_answers|].
  intros [rootNode [e|]] Hr; [by apply answers_pure|].
  eapply (answers_bind _ _ (λ _, True)).
  { apply delete_answers; [done|]. apply bytesToNibbles_nibbles. }
  intros result _. case_match.
  { eapply (answers_bind _ _ (λ _, True)); [done|].
    intros lg _. by apply answers_ret. }
  eapply (answers_bind _ _ (λ _, True)).
  { case_match; [apply answers_pure, Hash_yields|by apply answers_ret]. }
  intros newRootHash _.
  eapply (answers_bind _ _ (λ _, True)); [done|]. intros lg _.
  eapply answers_bind; [apply answers_pure, merge_yields|].
  intros newLog _. by apply answers_ret.
Qed.

(*BOUNDS-MORE*)
End Bounds.

(** C9. The nibbles [bytesToNibbles] makes of a key are all below 16 and
    twice as many as the key's bytes; so no call of [Get], [Insert] or
    [Delete], on any handle and store, stops with an index out of range
    where a slot of a branch is taken at the first nibble of the search
    key: on the 16 slots of a branch that index is in range. *)
Theorem searchKey_slots_in_bounds `{Primitives}
    (db : store) (fuel : nat) (t : Trie) (key : list byte) (value : gobytes) :
  Forall is_nibble (bytesToNibbles key)
  ∧ length (bytesToNibbles key) = 2 * length key
  ∧ (∀ children target p,
       sixteen (branchNode children target) → p ∈ bytesToNibbles key →
       is_Some (children !! Byte.to_nat p))
  ∧ inBounds (TrieGet db fuel t key).2
  ∧ inBounds (TrieInsert db fuel t key value).2
  ∧ inBounds (TrieDelete db fuel t key).2.
Proof.
  split; [apply bytesToNibbles_nibbles|].
  split; [apply bytesToNibbles_length|].
  split.
  { intros children target p Hb Hp.
    pose proof (bytesToNibbles_nibbles key) as Hn.
    rewrite Forall_forall in Hn.
    destruct (sixteen_lookup children target (Byte.to_nat p) Hb)
      as (c & Hc & _); [by apply nibble_to_nat, Hn|]. by eexists. }
  rewrite /TrieGet /TrieInsert /TrieDelete.
  pose proof (Get_answers db (rootHash t) fuel key (log t)) as Hg.
  pose proof (Insert_answers db (rootHash t) fuel key value (log t)) as Hi.
  pose proof (Delete_answers db (rootHash t) fuel key (log t)) as Hd.
  destruct (Get _ _ _ _ _) as [? [?| |]],
           (Insert _ _ _ _ _ _) as [? [?| |]],
           (Delete _ _ _ _ _) as [? [?| |]]; done.
Qed.

(** ** Reading back what was inserted *)

Section Keys.

Lemma BytesToHash_length b : length (BytesToHash b) = HashLength.
Proof.
  rewrite /BytesToHash /HashLength. rewrite length_app length_replicate.
  rewrite length_drop. lia.
Qed.

Lemma BytesToHash_id b : length b = HashLength → BytesToHash b = b.
Proof.
  intros Hl. rewrite /BytesToHash Hl Nat.sub_diag drop_0 Hl Nat.sub_diag.
  done.
Qed.

Lemma Keccak256Hash_length `{Primitives} b :
  length (Keccak256Hash b) = HashLength.
Proof. apply BytesToHash_length. Qed.

Lemma is_nibble_nibbles b : is_nibble b → b ∈ nibbles.
Proof.
  rewrite /is_nibble. intros Hb. apply list_elem_of_In.
  destruct b; try (vm_compute in Hb; discriminate Hb); simpl; tauto.
Qed.

Lemma pack_unpack hi lo :
  is_nibble hi → is_nibble lo →
  byte_of_N (Byte.to_N (pack hi lo) / 16) = hi
  ∧ byte_of_N (Byte.to_N (pack hi lo) mod 16) = lo.
Proof.
  intros Hhi%is_nibble_nibbles Hlo%is_nibble_nibbles.
  assert (forallb (λ hi, forallb (λ lo,
            bool_decide (byte_of_N (Byte.to_N (pack hi lo) / 16) = hi
                         ∧ byte_of_N (Byte.to_N (pack hi lo) mod 16) = lo))
            nibbles) nibbles = true) as Hall by (vm_compute; reflexivity).
  rewrite forallb_forall in Hall.
  specialize (Hall hi). rewrite forallb_forall in Hall.
  eapply bool_decide_eq_true_1. apply Hall; by apply list_elem_of_In.
Qed.

Lemma nibblesToBytes_even k :
  Forall is_nibble k → length k mod 2 = 0 →
  ∃ bytes, nibblesToBytes k = Ok bytes ∧ bytesToNibbles bytes = k.
Proof.
  assert (∀ n k, length k ≤ n → Forall is_nibble k → length k mod 2 = 0 →
            ∃ bytes, nibblesToBytes k = Ok bytes ∧ bytesToNibbles bytes = k)
    as Hn.
  { clear k. induction n as [|n IH]; intros k Hl Hk Hm.
    - destruct k; [|simpl in Hl; lia]. by exists [].
    - destruct k as [|hi [|lo rest]].
      + by exists [].
      + by vm_compute in Hm.
      + cbn [length] in Hl, Hm.
        apply Forall_cons in Hk as [Hhi Hk].
        apply Forall_cons in Hk as [Hlo Hk].
        destruct (IH rest) as (bytes & Hb1 & Hb); [lia|done| |].
        { replace (S (S (length rest))) with (length rest + 1 * 2) in Hm
            by lia.
          by rewrite Nat.Div0.mod_add in Hm. }
        exists (pack hi lo :: bytes).
        cbn [nibblesToBytes]. rewrite Hb1. split; [done|].
        cbn [bytesToNibbles].
        destruct (pack_unpack hi lo Hhi Hlo) as [-> ->]. by rewrite Hb. }
  by apply (Hn (length k)).
Qed.

Lemma nibble_x00 : is_nibble x00.
Proof. by vm_compute. Qed.

(** What [encodeKey] makes of nibbles, [decodeKey] gives back. *)
Lemma encodeKey_decodeKey k nodeType :
  Forall is_nibble k → nodeType ∈ [leafType; extType] →
  ∃ keyBytes flag,
    encodeKey k nodeType = Ok (keyBytes, flag)
    ∧ decodeKey flag keyBytes = Ok (k, nodeType)
    ∧ lowNibble flag = nodeType.
Proof.
  intros Hk Ht. rewrite /encodeKey.
  case_decide as Hodd.
  - destruct (nibblesToBytes_even (k ++ [x00])) as (bytes & -> & Hb).
    { apply Forall_app. split; [done|]. constructor; [apply nibble_x00|done]. }
    { rewrite length_app. cbn [length].
      assert (length k mod 2 = 1) as Hm.
      { pose proof (Nat.mod_upper_bound (length k) 2). lia. }
      by rewrite Nat.Div0.add_mod Hm. }
    eexists _, _. split; [done|]. rewrite /decodeKey Hb.
    assert (nodeType = leafType ∨ nodeType = extType) as Hty.
    { apply elem_of_cons in Ht as [->|Ht]; [by left|].
      apply list_elem_of_singleton in Ht as ->. by right. }
    assert (take (length (k ++ [x00]) - 1) (k ++ [x00]) = k) as Htake.
    { rewrite length_app /= Nat.add_sub take_app_length. done. }
    destruct Hty as [-> | ->].
    + case_decide as Hhi; [|exfalso; apply Hhi; by vm_compute].
      destruct (k ++ [x00]) eqn:E; [by destruct k|]. rewrite Htake.
      split; [|by vm_compute]. do 2 f_equal; by vm_compute.
    + case_decide as Hhi; [|exfalso; apply Hhi; by vm_compute].
      destruct (k ++ [x00]) eqn:E; [by destruct k|]. rewrite Htake.
      split; [|by vm_compute]. do 2 f_equal; by vm_compute.
  - destruct (nibblesToBytes_even k) as (bytes & -> & Hb); [done|lia|].
    eexists _, _. split; [done|]. rewrite /decodeKey Hb.
    assert (nodeType = leafType ∨ nodeType = extType) as Hty.
    { apply elem_of_cons in Ht as [->|Ht]; [by left|].
      apply list_elem_of_singleton in Ht as ->. by right. }
    destruct Hty as [-> | ->].
    + case_decide as Hhi; [exfalso; by vm_compute in Hhi|].
      split; [|by vm_compute]. do 2 f_equal; by vm_compute.
    + case_decide as Hhi; [exfalso; by vm_compute in Hhi|].
      split; [|by vm_compute]. do 2 f_equal; by vm_compute.
Qed.

End Keys.

Section Shapes.
Context `{Primitives}.

Lemma shaped_branch children target :
  shaped (branchNode children target)
  ↔ length children = 16 ∧ Forall (onNode shaped) children.
Proof.
  cbn [shaped]. apply and_iff_compat_l.
  induction children as [|c rest IH]; [by split; [constructor|]|].
  rewrite Forall_cons IH. done.
Qed.

Lemma shaped_noChildren target : shaped (branchNode noChildren target).
Proof. apply shaped_branch. split; [done|]. by repeat constructor. Qed.

Lemma shaped_insert children target pos n :
  shaped (branchNode children target) → onNode shaped n →
  shaped (branchNode (<[pos:=n]> children) target).
Proof.
  rewrite !shaped_branch. intros [Hl Hc] Hn. split.
  - by rewrite length_insert.
  - by apply Forall_insert.
Qed.

Lemma setChild_shaped site children target pos n children' :
  shaped (branchNode children target) → onNode shaped n →
  setChild site children pos n = Ok children' →
  shaped (branchNode children' target).
Proof.
  intros Hb Hn. rewrite /setChild. case_decide; [|done].
  intros [= <-]. by apply shaped_insert.
Qed.

Lemma shaped_retarget children target target' :
  shaped (branchNode children target) → shaped (branchNode children target').
Proof. done. Qed.

Lemma decodeKey_nibbles flag bytes k t :
  decodeKey flag bytes = Ok (k, t) → Forall is_nibble k.
Proof.
  rewrite /decodeKey. pose proof (bytesToNibbles_nibbles bytes) as Hn.
  case_decide.
  - destruct (bytesToNibbles bytes) eqn:E; [done|]. intros [= <- _].
    by apply Forall_take.
  - by intros [= <- _].
Qed.

Lemma decodeChildren_shaped (rec : list byte → outcome decoded) raw :
  (∀ b n e, rec b = Ok (n, e) → onNode shaped n) →
  ∀ i children err target r,
    shaped (branchNode children target) →
    decodeChildren rec i raw children err = Ok r →
    shaped (branchNode r.1 target).
Proof.
  intros Hrec. induction raw as [|child rest IH];
    intros i children err target r Hb; cbn [decodeChildren].
  - by intros [= <-].
  - repeat case_decide; intros Hd; outcome_inv.
    + eapply IH; [|done].
      eapply setChild_shaped; [exact Hb| |eassumption]. done.
    + eapply IH; [|done].
      eapply setChild_shaped; [exact Hb| |eassumption]. done.
    + destruct_pairs. outcome_inv. eapply IH; [|done].
      eapply setChild_shaped; [exact Hb| |eassumption]. by eapply Hrec.
Qed.

Lemma decodeNode_shaped fuel : ∀ bytes n e,
  decodeNode fuel bytes = Ok (n, e) → onNode shaped n.
Proof.
  induction fuel as [|fuel IH]; intros bytes n e; [done|].
  rewrite decodeNode_unfold. cbv zeta. repeat case_decide.
  - by intros [= <- _].
  - rewrite /decodeLeafNode. case_match; [|by intros [= <- _]]. case_match.
    intros Hd. outcome_inv. destruct_pairs.
    outcome_inv. simpl. by eapply decodeKey_nibbles.
  - rewrite /decodeExtNode. case_match; [|by intros [= <- _]]. case_match.
    intros Hd. outcome_inv. destruct_pairs.
    case_decide.
    + outcome_inv. simpl. split; [by eapply decodeKey_nibbles|done].
    + outcome_inv. destruct_pairs.
      outcome_inv. simpl. split; [by eapply decodeKey_nibbles|].
      by eapply IH.
  - rewrite /decodeBranchNode. case_match; [|by intros [= <- _]]. case_match.
    intros Hd. outcome_inv. destruct_pairs.
    outcome_inv.
    match goal with E : decodeChildren _ _ _ _ _ = Ok _ |- _ =>
      apply (decodeChildren_shaped _ _ IH _ _ _ g) in E;
        [|apply shaped_noChildren] end.
    done.
  - by intros [= <- _].
Qed.

Lemma Encode_branch children target :
  Encode (branchNode children target) =
  raws ← encodeSlots children;
  Ok (marshalBranch raws target ++ [branchType]).
Proof.
  cbn [Encode]. f_equal.
  induction children as [|[c|] rest IH]; cbn [encodeSlots]; [done|..];
    by rewrite -IH.
Qed.

End Shapes.

Section Roundtrip.
Context `{Primitives} `{!CodecLaws}.

Lemma Encode_length n e : notHash n → Encode n = Ok e → 2 ≤ length e.
Proof.
  destruct n as [key value|key child|children target|hash]; [..|done];
    intros _; [cbn [Encode]..|rewrite Encode_branch]; intros He;
    outcome_inv; destruct_pairs; outcome_inv; rewrite length_app /=.
  - pose proof (leaf_nonempty l value) as Hn.
    destruct (marshalLeaf l value); [done|]. simpl. lia.
  - pose proof (ext_nonempty l x) as Hn.
    destruct (marshalExt l x); [done|]. simpl. lia.
  - pose proof (branch_nonempty x target) as Hn.
    destruct (marshalBranch x target); [done|]. simpl. lia.
Qed.

Lemma decodeNode_snoc fuel m flag :
  m ≠ [] →
  decodeNode (S fuel) (m ++ [flag]) =
  if decide (lowNibble flag = leafType) then decodeLeafNode m flag
  else if decide (lowNibble flag = extType) then
    decodeExtNode (decodeNode fuel) m flag
  else if decide (lowNibble flag = branchType) then
    decodeBranchNode (decodeNode fuel) m
  else Ok (None, Some (ErrUnknownNodeType flag)).
Proof.
  intros Hm. rewrite decodeNode_unfold. cbv zeta.
  rewrite last_snoc /=.
  assert (length (m ++ [flag]) - 1 = length m) as ->.
  { rewrite length_app /=. lia. }
  rewrite take_app_length.
  case_decide as Hl; [|done].
  rewrite length_app /= in Hl. destruct m; [done|]. simpl in Hl. lia.
Qed.

(** What a decoded parent makes of the capped form of a child. *)
Lemma child_decodes c ec :
  shaped c → Encode c = Ok ec → decodesBack c →
  ∃ f0 d, ref c d ∧ length (cappedOf c ec) ≠ 0 ∧
    ((length (cappedOf c ec) = HashLength ∧ d = hashNode (cappedOf c ec))
     ∨ (length (cappedOf c ec) ≠ HashLength
        ∧ ∀ f, f0 ≤ f → decodeNode f (cappedOf c ec) = Ok (Some d, None))).
Proof.
  intros Hs He IH.
  assert (notHash c ∨ ∃ hash, c = hashNode hash) as [Hn|[hash ->]]
    by (destruct c; simpl; eauto).
  - pose proof (Encode_length _ _ Hn He) as Hl.
    assert (cappedOf c ec
            = if decide (length ec < HashLength) then ec
              else Keccak256Hash ec) as ->.
    { by destruct c. }
    case_decide as Hlt.
    + destruct (IH Hs Hn ec He) as (f0 & d & Hi & Hd).
      exists f0, d. split; [by eapply ref_inline|]. split; [lia|].
      right. split; [lia|done].
    + exists 0, (hashNode (Keccak256Hash ec)).
      split; [eapply ref_hash; [done..|lia]|].
      rewrite Keccak256Hash_length. split; [done|]. by left.
  - simpl in Hs. cbn [Encode] in He. injection He as <-. simpl.
    exists 0, (hashNode hash). split; [by apply ref_same|].
    rewrite Hs. split; [done|]. by left.
Qed.

Lemma decodeChildren_slots cs :
  Forall (onNode decodesBack) cs → Forall (onNode shaped) cs →
  ∀ raws, encodeSlots cs = Ok raws →
  ∃ f0 ds, Forall2 (option_Forall2 ref) cs ds ∧
    ∀ f, f0 ≤ f → ∀ i acc, i + length cs ≤ length acc →
      decodeChildren (decodeNode f) i raws acc None
      = Ok (take i acc ++ ds ++ drop (i + length cs) acc, None).
Proof.
  induction 1 as [|c rest IHc _ IH]; intros Hs raws He.
  - injection He as <-. exists 0, []. split; [constructor|].
    intros f _ i acc Hi. cbn [decodeChildren]. simpl.
    by rewrite Nat.add_0_r take_drop.
  - apply Forall_cons in Hs as [Hc Hrest].
    assert (∀ (acc : list (option node)) i x n, i + S n ≤ length acc →
              take (S i) (<[i:=x]> acc) = take i acc ++ [x]
              ∧ drop (S i + n) (<[i:=x]> acc) = drop (i + S n) acc) as Hacc.
    { intros acc i x n Hi. split.
      - assert (<[i:=x]> acc !! i = Some x) as Hx
          by (apply list_lookup_insert_eq; lia).
        rewrite (take_S_r _ _ x Hx). f_equal. apply take_insert_ge. lia.
      - assert (i < S i + n) as Hlt by lia.
        rewrite (drop_insert_lt _ _ _ _ Hlt). f_equal. lia. }
    destruct c as [c|]; cbn [encodeSlots] in He; outcome_inv.
    + rename x into ec, x0 into raws'.
      destruct (IH Hrest raws') as (f1 & ds & Hds & Hdec); [done|].
      destruct (child_decodes c ec Hc) as (f0 & d & Hr & Hne & Hcase);
        [done..|].
      exists (f0 `max` f1), (Some d :: ds).
      split; [constructor; [by constructor|done]|].
      intros f Hf i acc Hi. cbn [decodeChildren length] in *.
      rewrite decide_False //.
      assert (setChild "decodeBranchNode: n.children[i]" acc i (Some d)
              = Ok (<[i:=Some d]> acc)) as Hset.
      { apply setChild_in_range. lia. }
      destruct (Hacc acc i (Some d) (length rest) Hi) as [Htake Hdrop].
      assert (f1 ≤ f) as Hf1 by lia. assert (f0 ≤ f) as Hf0 by lia.
      assert (S i + length rest ≤ length (<[i:=Some d]> acc)) as Hi'
        by (rewrite length_insert; lia).
      specialize (Hdec f Hf1 (S i) (<[i:=Some d]> acc) Hi').
      destruct Hcase as [[Hl ->]|[Hl Hd]].
      * rewrite decide_True // Hset /=.
        rewrite Hdec Htake Hdrop -app_assoc. done.
      * rewrite decide_False // (Hd f Hf0). simpl. rewrite Hset /=.
        rewrite Hdec Htake Hdrop -app_assoc. done.
    + rename x into raws'.
      destruct (IH Hrest raws') as (f1 & ds & Hds & Hdec); [done|].
      exists f1, (None :: ds).
      split; [constructor; [by constructor|done]|].
      intros f Hf i acc Hi. cbn [decodeChildren length] in *.
      case_decide as Hz; [|done].
      assert (i < length acc) as Hlt by lia.
      rewrite (setChild_in_range _ acc i None Hlt) /=.
      destruct (Hacc acc i None (length rest) Hi) as [Htake Hdrop].
      assert (S i + length rest ≤ length (<[i:=None]> acc)) as Hi'
        by (rewrite length_insert; lia).
      rewrite (Hdec f Hf (S i) (<[i:=None]> acc) Hi').
      rewrite Htake Hdrop -app_assoc. done.
Qed.

(** What is encoded decodes back, to the image of the node. *)
Lemma decode_Encode n : decodesBack n.
Proof.
  induction n as [key value|key child IH|children target IH|hash]
    using node_induction; intros Hs Hn e He; [| | |done].
  - cbn [Encode] in He. simpl in Hs.
    destruct (encodeKey_decodeKey key leafType Hs)
      as (kb & flag & Hk & Hdk & Hlow); [by left|].
    rewrite Hk /= in He. injection He as <-.
    destruct (leaf_roundtrip kb value) as (value' & Hu & Hv).
    exists 1, (leafNode key value'). split; [by constructor|].
    intros [|f] Hf; [lia|].
    rewrite (decodeNode_snoc _ _ _ (leaf_nonempty kb value)) Hlow.
    destruct (decide (leafType = leafType)) as [_|E]; [|done].
    rewrite /decodeLeafNode Hu Hdk /=. done.
  - cbn [Encode] in He. destruct Hs as [Hk Hc].
    destruct child as [c|]; [|done]. simpl in Hc, IH.
    destruct (Encode c) as [ec| |] eqn:Hec; [|done..]. simpl in He.
    destruct (encodeKey_decodeKey key extType Hk)
      as (kb & flag & Hek & Hdk & Hlow); [by right; left|].
    rewrite Hek /= in He. injection He as <-.
    destruct (child_decodes c ec Hc Hec IH) as (f0 & d & Hr & Hne & Hcase).
    exists (S f0), (extNode key (Some d)). split; [by constructor|].
    intros [|f] Hf; [lia|].
    rewrite (decodeNode_snoc _ _ _ (ext_nonempty kb (cappedOf c ec))) Hlow.
    destruct (decide (extType = leafType)) as [E|_]; [done|].
    destruct (decide (extType = extType)) as [_|E]; [|done].
    rewrite /decodeExtNode ext_roundtrip Hdk /=.
    assert (f0 ≤ f) as Hf0 by lia.
    destruct Hcase as [[Hl ->]|[Hl Hd]].
    + by destruct (decide _).
    + destruct (decide _) as [E|_]; [done|]. by rewrite (Hd f Hf0).
  - rewrite Encode_branch in He. apply shaped_branch in Hs as [Hl Hc].
    destruct (encodeSlots children) as [raws| |] eqn:Hraws; [|done..].
    simpl in He. injection He as <-.
    destruct (decodeChildren_slots children IH Hc raws Hraws)
      as (f0 & ds & Hds & Hdec).
    destruct (branch_roundtrip raws target) as (target' & Hu & Ht).
    exists (S f0), (branchNode ds target'). split; [by constructor|].
    intros [|f] Hf; [lia|].
    rewrite (decodeNode_snoc _ _ _ (branch_nonempty raws target)).
    destruct (decide (lowNibble branchType = leafType)) as [E|_];
      [by vm_compute in E|].
    destruct (decide (lowNibble branchType = extType)) as [E|_];
      [by vm_compute in E|].
    destruct (decide (lowNibble branchType = branchType)) as [_|E];
      [|exfalso; apply E; by vm_compute].
    rewrite /decodeBranchNode Hu.
    assert (f0 ≤ f) as Hf0 by lia.
    assert (0 + length children ≤ length noChildren) as Hi by (by rewrite Hl).
    rewrite (Hdec f Hf0 0 noChildren Hi) Hl /=. by rewrite app_nil_r.
Qed.

End Roundtrip.

Section RoundtripFields.
Context `{Primitives} `{!CodecFields}.

Lemma solid_branch children target :
  solid (branchNode children target) = true
  ↔ Forall (onNode (λ c, solid c = true)) children.
Proof.
  cbn [solid]. induction children as [|c rest IH]; [by split; [constructor|]|].
  rewrite Forall_cons -IH andb_true_iff. destruct c; simpl; intuition.
Qed.

Lemma nibblesToBytes_none k : nibblesToBytes k = Ok [] → k = [].
Proof.
  destruct k as [|hi [|lo rest]]; [done..|]. cbn [nibblesToBytes].
  by destruct (nibblesToBytes rest).
Qed.

(** Only the empty key is packed to no bytes. *)
Lemma encodeKey_none key nodeType flag :
  encodeKey key nodeType = Ok ([], flag) → key = [].
Proof.
  rewrite /encodeKey. cbv zeta.
  destruct (nibblesToBytes _) as [bytes| |] eqn:Hb; [|done..].
  simpl. intros [= -> _]. apply nibblesToBytes_none in Hb.
  revert Hb. case_decide; [|done]. by destruct key.
Qed.

Lemma Encode_more n e : notHash n → Encode n = Ok e → e ≠ [].
Proof.
  destruct n as [key value|key child|children target|hash]; [..|done];
    intros _; [cbn [Encode]..|rewrite Encode_branch]; intros He;
    outcome_inv; destruct_pairs; outcome_inv;
    match goal with |- ?m ++ _ ≠ [] => by destruct m end.
Qed.

(** What a parent writes for a child is never empty. *)
Lemma cappedOf_more c ec : shaped c → Encode c = Ok ec → cappedOf c ec ≠ [].
Proof.
  intros Hs He.
  assert (∀ b : list byte, length b = HashLength → b ≠ []) as Hlen
    by (by intros [|]).
  destruct c as [key value|key child|children target|hash];
    [| | |injection He as <-; by apply Hlen];
    cbn [cappedOf]; (case_decide; [by eapply Encode_more; [|exact He]|]);
    apply Hlen, Keccak256Hash_length.
Qed.

Lemma encodeSlots_length cs : ∀ raws,
  encodeSlots cs = Ok raws → length raws = length cs.
Proof.
  induction cs as [|[c|] rest IH]; intros raws He; cbn [encodeSlots] in He;
    outcome_inv; [done|..]; simpl; f_equal; by apply IH.
Qed.

(** The encoding of a node that is no leaf of empty key and value has a
    message before the flag. *)
Lemma Encode_length_solid n e :
  shaped n → solid n = true → notHash n → Encode n = Ok e → 2 ≤ length e.
Proof.
  destruct n as [key value|key child|children target|hash]; [..|done];
    intros Hs Hsol _; [cbn [Encode]..|rewrite Encode_branch]; intros He;
    outcome_inv; destruct_pairs; outcome_inv; rewrite length_app /=.
  - rename l into kb.
    assert (marshalLeaf kb value ≠ []) as Hn.
    { intros [-> Hv]%leaf_bytes.
      match goal with E : encodeKey _ _ = _ |- _ =>
        apply encodeKey_none in E; subst key end.
      simpl in Hsol. rewrite bool_decide_eq_true_2 in Hsol; done. }
    destruct (marshalLeaf kb value); [done|]. simpl. lia.
  - rename l into kb. destruct child as [c|]; [|done]. outcome_inv.
    destruct Hs as [_ Hc]. simpl in Hc.
    assert (marshalExt kb (cappedOf c x0) ≠ []) as Hn.
    { intros [_ E]%ext_bytes. by eapply cappedOf_more in E. }
    destruct (marshalExt kb (cappedOf c x0)); [done|]. simpl. lia.
  - apply shaped_branch in Hs as [Hl _].
    match goal with E : encodeSlots _ = _ |- _ =>
      apply encodeSlots_length in E; rewrite Hl in E end.
    assert (marshalBranch x target ≠ []) as Hn.
    { intros [-> _]%branch_bytes. done. }
    destruct (marshalBranch x target); [done|]. simpl. lia.
Qed.

(** What a decoded parent makes of the capped form of a child. *)
Lemma child_decodes_solid c ec :
  shaped c → solid c = true → Encode c = Ok ec → decodesBack c →
  ∃ f0 d, ref c d ∧ length (cappedOf c ec) ≠ 0 ∧
    ((length (cappedOf c ec) = HashLength ∧ d = hashNode (cappedOf c ec))
     ∨ (length (cappedOf c ec) ≠ HashLength
        ∧ ∀ f, f0 ≤ f → decodeNode f (cappedOf c ec) = Ok (Some d, None))).
Proof.
  intros Hs Hsol He IH.
  assert (notHash c ∨ ∃ hash, c = hashNode hash) as [Hn|[hash ->]]
    by (destruct c; simpl; eauto).
  - pose proof (Encode_length_solid _ _ Hs Hsol Hn He) as Hl.
    assert (cappedOf c ec
            = if decide (length ec < HashLength) then ec
              else Keccak256Hash ec) as ->.
    { by destruct c. }
    case_decide as Hlt.
    + destruct (IH Hs Hn ec He) as (f0 & d & Hi & Hd).
      exists f0, d. split; [by eapply ref_inline|]. split; [lia|].
      right. split; [lia|done].
    + exists 0, (hashNode (Keccak256Hash ec)).
      split; [eapply ref_hash; [done..|lia]|].
      rewrite Keccak256Hash_length. split; [done|]. by left.
  - simpl in Hs. cbn [Encode] in He. injection He as <-. simpl.
    exists 0, (hashNode hash). split; [by apply ref_same|].
    rewrite Hs. split; [done|]. by left.
Qed.

Lemma decodeChildren_slots_solid cs :
  Forall (onNode (λ c, solid c = true → decodesBack c)) cs →
  Forall (onNode shaped) cs → Forall (onNode (λ c, solid c = true)) cs →
  ∀ raws, encodeSlots cs = Ok raws →
  ∃ f0 ds, Forall2 (option_Forall2 ref) cs ds ∧
    ∀ f, f0 ≤ f → ∀ i acc, i + length cs ≤ length acc →
      decodeChildren (decodeNode f) i raws acc None
      = Ok (take i acc ++ ds ++ drop (i + length cs) acc, None).
Proof.
  induction 1 as [|c rest IHc _ IH]; intros Hs Hsol raws He.
  - injection He as <-. exists 0, []. split; [constructor|].
    intros f _ i acc Hi. cbn [decodeChildren]. simpl.
    by rewrite Nat.add_0_r take_drop.
  - apply Forall_cons in Hs as [Hc Hrest].
    apply Forall_cons in Hsol as [Hcsol Hrestsol].
    assert (∀ (acc : list (option node)) i x n, i + S n ≤ length acc →
              take (S i) (<[i:=x]> acc) = take i acc ++ [x]
              ∧ drop (S i + n) (<[i:=x]> acc) = drop (i + S n) acc) as Hacc.
    { intros acc i x n Hi. split.
      - assert (<[i:=x]> acc !! i = Some x) as Hx
          by (apply list_lookup_insert_eq; lia).
        rewrite (take_S_r _ _ x Hx). f_equal. apply take_insert_ge. lia.
      - assert (i < S i + n) as Hlt by lia.
        rewrite (drop_insert_lt _ _ _ _ Hlt). f_equal. lia. }
    destruct c as [c|]; cbn [encodeSlots] in He; outcome_inv.
    + rename x into ec, x0 into raws'.
      destruct (IH Hrest Hrestsol raws') as (f1 & ds & Hds & Hdec); [done|].
      destruct (child_decodes_solid c ec Hc Hcsol)
        as (f0 & d & Hr & Hne & Hcase); [done|by apply IHc|].
      exists (f0 `max` f1), (Some d :: ds).
      split; [constructor; [by constructor|done]|].
      intros f Hf i acc Hi. cbn [decodeChildren length] in *.
      rewrite decide_False //.
      assert (setChild "decodeBranchNode: n.children[i]" acc i (Some d)
              = Ok (<[i:=Some d]> acc)) as Hset.
      { apply setChild_in_range. lia. }
      destruct (Hacc acc i (Some d) (length rest) Hi) as [Htake Hdrop].
      assert (f1 ≤ f) as Hf1 by lia. assert (f0 ≤ f) as Hf0 by lia.
      assert (S i + length rest ≤ length (<[i:=Some d]> acc)) as Hi'
        by (rewrite length_insert; lia).
      specialize (Hdec f Hf1 (S i) (<[i:=Some d]> acc) Hi').
      destruct Hcase as [[Hl ->]|[Hl Hd]].
      * rewrite decide_True // Hset /=.
        rewrite Hdec Htake Hdrop -app_assoc. done.
      * rewrite decide_False // (Hd f Hf0). simpl. rewrite Hset /=.
        rewrite Hdec Htake Hdrop -app_assoc. done.
    + rename x into raws'.
      destruct (IH Hrest Hrestsol raws') as (f1 & ds & Hds & Hdec); [done|].
      exists f1, (None :: ds).
      split; [constructor; [by constructor|done]|].
      intros f Hf i acc Hi. cbn [decodeChildren length] in *.
      case_decide as Hz; [|done].
      assert (i < length acc) as Hlt by lia.
      rewrite (setChild_in_range _ acc i None Hlt) /=.
      destruct (Hacc acc i None (length rest) Hi) as [Htake Hdrop].
      assert (S i + length rest ≤ length (<[i:=None]> acc)) as Hi'
        by (rewrite length_insert; lia).
      rewrite (Hdec f Hf (S i) (<[i:=None]> acc) Hi').
      rewrite Htake Hdrop -app_assoc. done.
Qed.

(** What is encoded decodes back, to the image of the node, when no leaf of
    it has an empty key together with an empty value. *)
Lemma decode_Encode_solid n : solid n = true → decodesBack n.
Proof.
  induction n as [key value|key child IH|children target IH|hash]
    using node_induction; intros Hsol Hs Hn e He; [| | |done].
  - pose proof (Encode_length_solid _ _ Hs Hsol Hn He) as Hlen.
    cbn [Encode] in He. simpl in Hs.
    destruct (encodeKey_decodeKey key leafType Hs)
      as (kb & flag & Hk & Hdk & Hlow); [by left|].
    rewrite Hk /= in He. injection He as <-.
    destruct (leaf_back kb value) as (value' & Hu & Hv).
    exists 1, (leafNode key value'). split; [by constructor|].
    intros [|f] Hf; [lia|].
    rewrite decodeNode_snoc;
      [|intros E; rewrite E /= in Hlen; lia].
    rewrite Hlow.
    destruct (decide (leafType = leafType)) as [_|E]; [|done].
    rewrite /decodeLeafNode Hu Hdk /=. done.
  - pose proof (Encode_length_solid _ _ Hs Hsol Hn He) as Hlen.
    cbn [Encode] in He. destruct Hs as [Hk Hc].
    destruct child as [c|]; [|done]. simpl in Hc, IH, Hsol.
    destruct (Encode c) as [ec| |] eqn:Hec; [|done..]. simpl in He.
    destruct (encodeKey_decodeKey key extType Hk)
      as (kb & flag & Hek & Hdk & Hlow); [by right; left|].
    rewrite Hek /= in He. injection He as <-.
    destruct (child_decodes_solid c ec Hc Hsol Hec (IH Hsol))
      as (f0 & d & Hr & Hne & Hcase).
    exists (S f0), (extNode key (Some d)). split; [by constructor|].
    intros [|f] Hf; [lia|].
    rewrite decodeNode_snoc;
      [|intros E; rewrite E /= in Hlen; lia].
    rewrite Hlow.
    destruct (decide (extType = leafType)) as [E|_]; [done|].
    destruct (decide (extType = extType)) as [_|E]; [|done].
    rewrite /decodeExtNode ext_back Hdk /=.
    assert (f0 ≤ f) as Hf0 by lia.
    destruct Hcase as [[Hl ->]|[Hl Hd]].
    + by destruct (decide _).
    + destruct (decide _) as [E|_]; [done|]. by rewrite (Hd f Hf0).
  - pose proof (Encode_length_solid _ _ Hs Hsol Hn He) as Hlen.
    rewrite Encode_branch in He. apply shaped_branch in Hs as [Hl Hc].
    apply solid_branch in Hsol.
    destruct (encodeSlots children) as [raws| |] eqn:Hraws; [|done..].
    simpl in He. injection He as <-.
    destruct (decodeChildren_slots_solid children IH Hc Hsol raws Hraws)
      as (f0 & ds & Hds & Hdec).
    destruct (branch_back raws target) as (target' & Hu & Ht).
    exists (S f0), (branchNode ds target'). split; [by constructor|].
    intros [|f] Hf; [lia|].
    rewrite decodeNode_snoc;
      [|intros E; rewrite E /= in Hlen; lia].
    destruct (decide (lowNibble branchType = leafType)) as [E|_];
      [by vm_compute in E|].
    destruct (decide (lowNibble branchType = extType)) as [E|_];
      [by vm_compute in E|].
    destruct (decide (lowNibble branchType = branchType)) as [_|E];
      [|exfalso; apply E; by vm_compute].
    rewrite /decodeBranchNode Hu.
    assert (f0 ≤ f) as Hf0 by lia.
    assert (0 + length children ≤ length noChildren) as Hi by (by rewrite Hl).
    rewrite (Hdec f Hf0 0 noChildren Hi) Hl /=. by rewrite app_nil_r.
Qed.

End RoundtripFields.

Section Matching.

Lemma matchingLength_le a b :
  matchingLength a b ≤ length a ∧ matchingLength a b ≤ length b.
Proof.
  revert b. induction a as [|x a IH]; intros [|y b]; simpl; try lia.
  case_decide; [|lia]. destruct (IH b). lia.
Qed.

Lemma matchingLength_take a b :
  take (matchingLength a b) a = take (matchingLength a b) b.
Proof.
  revert b. induction a as [|x a IH]; intros [|y b]; simpl; try done.
  case_decide; [|done]. subst. simpl. by rewrite IH.
Qed.

(** The search key is the matched part of the node's key, then the rest. *)
Lemma matchingLength_split searchKey key :
  searchKey = take (matchingLength searchKey key) key
              ++ drop (matchingLength searchKey key) searchKey.
Proof. by rewrite -matchingLength_take take_drop. Qed.

Lemma matchingLength_whole searchKey key :
  matchingLength searchKey key = length key →
  searchKey = key ++ drop (length key) searchKey.
Proof.
  intros Hm. rewrite {1}(matchingLength_split searchKey key) Hm.
  by rewrite firstn_all.
Qed.

Lemma matchingLength_same searchKey key :
  matchingLength searchKey key = length searchKey →
  matchingLength searchKey key = length key → searchKey = key.
Proof.
  intros H1 H2. rewrite (matchingLength_whole searchKey key H2).
  rewrite -H2 H1 drop_all. by rewrite app_nil_r.
Qed.

End Matching.

Section Ensures.

Lemma ensures_ret {A} (a : A) (Q : A → Prop) : Q a → ensures (mret a) Q.
Proof. intros Ha lg lg' a' [= _ <-]. done. Qed.

Lemma ensures_pure {A} (o : outcome A) (Q : A → Prop) :
  (∀ a, o = Ok a → Q a) → ensures (pure o) Q.
Proof. intros Ho lg lg' a [= _ ->]. by apply Ho. Qed.

Lemma ensures_bind {A B} (m : M A) (f : A → M B) Q R :
  ensures m Q → (∀ a, Q a → ensures (f a) R) → ensures (m ≫= f) R.
Proof.
  intros Hm Hf lg lg' b. rewrite M_bind_unfold.
  destruct (m lg) as [lg1 [a| |]] eqn:E; [|done..].
  intros Hb. eapply Hf; [|done]. by eapply Hm.
Qed.

Lemma ensures_True {A} (m : M A) : ensures m (λ _, True).
Proof. by intros lg lg' a _. Qed.

Lemma ensures_never {A} (m : M A) (Q : A → Prop) :
  (∀ lg lg' a, m lg ≠ (lg', Ok a)) → ensures m Q.
Proof. intros Hm lg lg' a E. by apply Hm in E. Qed.

End Ensures.

Section Leads.

Lemma leads_more ins ins' n key value :
  leads ins n key value → ins ⊆ ins' → leads ins' n key value.
Proof.
  induction 1; intros Hsub; econstructor; eauto.
Qed.

Lemma leads_ext_at ins key child rest searchKey value :
  searchKey = key ++ rest → child ∈ ins → leads ins child rest value →
  leads ins (extNode key (Some child)) searchKey value.
Proof. intros ->. by constructor. Qed.

Lemma inserts_more key value r r' :
  inserts key value r → newNode r' = newNode r →
  opInserted r ⊆ opInserted r' → inserts key value r'.
Proof.
  intros (n & Hn & Hs & Hin & Hl) Hnew Hsub.
  exists n. rewrite Hnew. split; [done|]. split; [done|].
  split; [by apply Hsub|]. by eapply leads_more.
Qed.

Lemma Res_insert_more r n : opInserted r ⊆ opInserted (Res.insert r n).
Proof. destruct n; simpl; [|done]. by apply sublist_subseteq, sublist_inserts_r. Qed.

End Leads.

Section InsertLeads.
Context `{Primitives}.
Variable db : store.

Lemma resolveHash_shaped fuel h :
  ensures (resolveHash db fuel h) (λ r, onNode shaped r.1).
Proof.
  intros lg lg' [n e]. rewrite /resolveHash /fetchFromDB.
  repeat case_match; intros [= <- E]; simplify_eq/=; try done;
    by eapply decodeNode_shaped.
Qed.

Lemma branchWithChild_shaped pos n target b :
  onNode shaped n → branchWithChild pos n target = Ok b → shaped b.
Proof.
  intros Hn. rewrite /branchWithChild. intros Hb. outcome_inv.
  eapply setChild_shaped; [apply (shaped_noChildren target)|done..].
Qed.

Lemma updateChild_inv children target pos n b :
  updateChild children target pos n = Ok b →
  b = branchNode (<[pos:=n]> children) target ∧ pos < length children.
Proof.
  rewrite /updateChild /setChild. case_decide; [|done]. by intros [= <-].
Qed.

Lemma insertToLeaf_inserts rec key leafValue searchKey value :
  insertsWell rec → Forall is_nibble key → Forall is_nibble searchKey →
  ensures (insertToLeaf rec key leafValue searchKey value)
    (inserts searchKey value).
Proof.
  intros Hrec Hk Hs. rewrite /insertToLeaf. cbv zeta.
  case_decide as Hsame; [|case_decide as Hzero].
  - destruct Hsame as [H1 H2].
    apply ensures_ret. exists (leafNode searchKey value).
    split; [done|]. split; [done|]. simpl.
    split; [apply list_elem_of_singleton; done|]. by constructor.
  - eapply (ensures_bind _ _ (λ r, shaped r.1)).
    + destruct key as [|k0 key'].
      * apply ensures_ret. apply shaped_noChildren.
      * eapply ensures_bind; [apply ensures_pure; intros b Hb; exact Hb|].
        intros b Hb. apply ensures_ret.
        apply branchWithChild_shaped in Hb; [exact Hb|]. simpl.
        by apply Forall_cons in Hk as [_ ?].
    + intros [tempBranch maybeLeaf] Hb.
      eapply ensures_bind; [by apply Hrec|].
      intros r Hr. apply ensures_ret.
      eapply inserts_more; [done|by destruct maybeLeaf|].
      etrans; [|apply Res_insert_more]. done.
  - eapply ensures_bind.
    + apply Hrec; [|by apply Forall_drop].
      case_decide; [apply shaped_noChildren|]. simpl. by apply Forall_drop.
    + intros r (n & Hn & Hsh & Hin & Hl). apply ensures_ret.
      eexists. split; [done|]. simpl. rewrite Hn.
      split; [split; [by apply Forall_take|done]|].
      split; [apply elem_of_app; right; by apply list_elem_of_singleton|].
      eapply leads_ext_at; [apply matchingLength_split| |].
      * apply elem_of_app. by left.
      * eapply leads_more; [done|]. intros x Hx. apply elem_of_app. by left.
Qed.

Lemma insertToExt_inserts rec key child searchKey value :
  insertsWell rec → Forall is_nibble key → onNode shaped child →
  Forall is_nibble searchKey →
  ensures (insertToExt rec key child searchKey value)
    (inserts searchKey value).
Proof.
  intros Hrec Hk Hc Hs. rewrite /insertToExt. cbv zeta.
  case_decide as Hzero; [|case_decide as Hwhole].
  - eapply (ensures_bind _ _ (λ r, shaped r.1)).
    + destruct key as [|k0 [|k1 key']].
      * by apply ensures_pure.
      * eapply ensures_bind; [apply ensures_pure; intros b Hb; exact Hb|].
        intros b Hb. apply ensures_ret.
        by apply branchWithChild_shaped in Hb.
      * eapply ensures_bind; [apply ensures_pure; intros b Hb; exact Hb|].
        intros b Hb. apply ensures_ret.
        apply branchWithChild_shaped in Hb; [exact Hb|]. simpl.
        split; [|done]. by apply Forall_cons in Hk as [_ ?].
    + intros [tempBranch maybeChild] Hb.
      eapply ensures_bind; [by apply Hrec|].
      intros r Hr. apply ensures_ret.
      eapply inserts_more; [done|by destruct maybeChild|].
      apply Res_insert_more.
  - eapply ensures_bind.
    + apply Hrec; [done|by apply Forall_drop].
    + intros r (n & Hn & Hsh & Hin & Hl). apply ensures_ret.
      eexists. split; [done|]. simpl. rewrite Hn.
      split; [by split|].
      split; [apply elem_of_app; right; by apply list_elem_of_singleton|].
      eapply leads_ext_at; [by apply matchingLength_whole| |];
        rewrite -?Hwhole.
      * apply elem_of_app. by left.
      * eapply leads_more; [done|]. intros x Hx. apply elem_of_app. by left.
  - eapply ensures_bind.
    + apply Hrec; [|by apply Forall_drop].
      simpl. split; [by apply Forall_drop|done].
    + intros r (n & Hn & Hsh & Hin & Hl). apply ensures_ret.
      eexists. split; [done|]. simpl. rewrite Hn.
      split; [split; [by apply Forall_take|done]|].
      split; [apply elem_of_app; right; by apply list_elem_of_singleton|].
      eapply leads_ext_at; [apply matchingLength_split| |].
      * apply elem_of_app. by left.
      * eapply leads_more; [done|]. intros x Hx. apply elem_of_app. by left.
Qed.

Lemma insertToBranch_inserts rec children target searchKey value :
  insertsWell rec → shaped (branchNode children target) →
  Forall is_nibble searchKey →
  ensures (insertToBranch rec children target searchKey value)
    (inserts searchKey value).
Proof.
  intros Hrec Hb Hs. rewrite /insertToBranch. cbv zeta.
  destruct searchKey as [|p rest].
  - apply ensures_ret. eexists. split; [done|]. simpl.
    split; [exact Hb|]. split; [by apply list_elem_of_singleton|].
    by constructor.
  - apply Forall_cons in Hs as [Hp Hrest].
    eapply (ensures_bind _ _
              (λ c, children !! Byte.to_nat p = Some c)).
    { apply ensures_pure. intros c. rewrite /index.
      destruct (children !! Byte.to_nat p); [by intros [= ->]|done]. }
    intros [c|] Hc.
    + assert (shaped c) as Hsc.
      { apply shaped_branch in Hb as [_ Hall].
        rewrite Forall_lookup in Hall. by apply (Hall _ _ Hc). }
      eapply ensures_bind; [by apply Hrec|].
      intros r (n & Hn & Hsh & Hin & Hl).
      eapply ensures_bind; [apply ensures_pure; intros b E; exact E|].
      intros b [-> Hlt]%updateChild_inv. apply ensures_ret.
      eexists. split; [done|]. simpl. rewrite Hn.
      split; [by apply (shaped_insert _ target)|].
      split; [apply elem_of_app; right; by apply list_elem_of_singleton|].
      econstructor.
      * by apply list_lookup_insert_eq.
      * apply elem_of_app. by left.
      * eapply leads_more; [done|]. intros x Hx. apply elem_of_app. by left.
    + eapply ensures_bind; [apply ensures_pure; intros b E; exact E|].
      intros b [-> Hlt]%updateChild_inv. apply ensures_ret.
      eexists. split; [done|]. simpl.
      split; [by apply (shaped_insert _ target)|].
      split; [apply elem_of_cons; by left|].
      econstructor.
      * by apply list_lookup_insert_eq.
      * apply elem_of_cons. right. by apply list_elem_of_singleton.
      * by constructor.
Qed.

Lemma insert_inserts fuel : insertsWell (insert db fuel).
Proof.
  induction fuel as [|fuel IH]; intros startNode searchKey value Hs Hk.
  { by intros lg lg' a. }
  rewrite insert_unfold.
  destruct startNode as [[key leafValue|key child|children target|hash]|].
  - by apply insertToLeaf_inserts.
  - destruct Hs. by apply insertToExt_inserts.
  - by apply insertToBranch_inserts.
  - eapply ensures_bind; [apply ensures_True|]. intros h _.
    eapply ensures_bind; [apply resolveHash_shaped|].
    intros [resolved [e|]] Hr; [by intros lg lg' a|]. by apply IH.
  - by intros lg lg' a.
Qed.

Lemma insertAtRoot_inserts root fuel key value :
  ensures (insertAtRoot db root fuel (bytesToNibbles key) value)
    (inserts (bytesToNibbles key) value).
Proof.
  rewrite /insertAtRoot. pose proof (bytesToNibbles_nibbles key) as Hk.
  case_decide.
  - apply ensures_ret. eexists. split; [done|]. simpl.
    split; [done|]. split; [by apply list_elem_of_singleton|].
    by constructor.
  - eapply ensures_bind; [apply resolveHash_shaped|].
    intros [rootNode [e|]] Hr; [by intros lg lg' a|].
    by apply insert_inserts.
Qed.

End InsertLeads.

Section Follow.
Context `{Primitives} `{!CodecFields}.
Variable lg : updateLog.
Variable ins : list node.
Hypothesis Hheld : holdsAll lg ins.
Hypothesis Hsolid : ∀ n, n ∈ ins → solid n = true.

Lemma leads_notHash n key value : leads ins n key value → notHash n.
Proof. by destruct 1. Qed.

Lemma encodeSlots_lookup cs raws i c :
  encodeSlots cs = Ok raws → cs !! i = Some (Some c) → ∃ e, Encode c = Ok e.
Proof.
  revert raws i. induction cs as [|[c'|] rest IH]; intros raws i He Hi;
    [done|..]; cbn [encodeSlots] in He; outcome_inv;
    destruct i as [|i]; simpl in Hi; simplify_eq; eauto.
Qed.

(** The search goes on through what the decoded parent holds for a child:
    a hash node is resolved from the journal, the bytes decode to the image
    of the child. *)
Lemma child_found child dc rest value :
  child ∈ ins → shaped child → (∃ e, Encode child = Ok e) → notHash child →
  found lg child rest value → ref child dc →
  ∃ f0 v', gocontent v' = gocontent value ∧
    ∀ db f, f0 ≤ f → tryGet db f (Some dc) rest lg = (lg, Ok v').
Proof.
  intros Hin Hs [e He] Hn Hfound Hr.
  destruct Hr as [c ec _ Hec Hlen|c ec d _ Hec Hlen Hi|hash]; [| |done].
  - destruct (decode_Encode_solid c (Hsolid c Hin) Hs Hn ec Hec)
      as (f1 & d & Hi & Hdec).
    destruct (Hfound d Hi) as (f2 & v' & Hv & Hget).
    destruct (Hheld c ec Hin Hn Hec Hlen) as [Hins Hdel].
    exists (S (f1 `max` f2)), v'. split; [done|].
    intros db [|f] Hf; [lia|].
    rewrite tryGet_unfold M_bind_unfold /= M_bind_unfold.
    rewrite (BytesToHash_id _ (Keccak256Hash_length ec)).
    rewrite /resolveHash Hdel Hins.
    assert (f1 ≤ f) as Hf1 by lia.
    rewrite (Hdec f Hf1) /=. apply Hget. lia.
  - by apply Hfound.
Qed.

Lemma leads_found n key value :
  leads ins n key value → shaped n → (∃ e, Encode n = Ok e) →
  found lg n key value.
Proof.
  induction 1 as [key value value' Hv
                 |key child rest value Hin Hl IH
                 |children target value Hv
                 |children target p rest child value Hc Hin Hl IH];
    intros Hs [e He] d Hi.
  - inversion Hi as [? ? value'' Hv'| |]; subst.
    exists 1, value''. split; [congruence|].
    intros db [|f] Hf; [lia|]. rewrite tryGet_unfold. by rewrite decide_True.
  - inversion Hi as [|? ? dc Hr|]; subst.
    destruct Hs as [Hk Hsc]. simpl in Hsc.
    cbn [Encode] in He.
    destruct (Encode child) as [ec| |] eqn:Hec; [|done..].
    destruct (child_found child dc rest value) as (f0 & v' & Hv & Hget);
      [done|done|by eauto|by eapply leads_notHash|by apply IH; eauto|done|].
    exists (S f0), v'. split; [done|].
    intros db [|f] Hf; [lia|]. rewrite tryGet_unfold.
    case_decide as Hlt; [rewrite length_app in Hlt; lia|].
    rewrite take_app_length drop_app_length.
    case_decide; [|done]. apply Hget. lia.
  - inversion Hi as [| |? ds ? target' Hds Ht]; subst.
    exists 1, target'. split; [congruence|].
    intros db [|f] Hf; [lia|]. by rewrite tryGet_unfold.
  - inversion Hi as [| |? ds ? target' Hds Ht]; subst.
    apply shaped_branch in Hs as [Hlen Hall].
    rewrite Encode_branch in He.
    destruct (encodeSlots children) as [raws| |] eqn:Hraws; [|done..].
    destruct (encodeSlots_lookup _ _ _ _ Hraws Hc) as [ec Hec].
    assert (shaped child) as Hsc.
    { rewrite Forall_lookup in Hall. by apply (Hall _ _ Hc). }
    destruct (Forall2_lookup_l _ _ _ _ _ Hds Hc) as (dslot & Hd & Hslot).
    inversion Hslot as [? dc Hr|]; subst.
    destruct (child_found child dc rest value) as (f0 & v' & Hv & Hget);
      [done|done|by eauto|by eapply leads_notHash|by apply IH; eauto|done|].
    exists (S f0), v'. split; [done|].
    intros db [|f] Hf; [lia|]. rewrite tryGet_unfold.
    rewrite M_bind_unfold /index Hd /=. apply Hget. lia.
Qed.

End Follow.

Section InsertGet.
Context `{Primitives}.

Lemma notHash_Hash n e : notHash n → Encode n = Ok e →
  Hash n = Ok (Keccak256Hash e) ∧
  Capped n = Ok (if decide (length e < HashLength) then e
                 else Keccak256Hash e).
Proof.
  intros Hn He. rewrite /Hash /Capped He /=. by destruct n.
Qed.

(** After a merge, the journal holds every inserted node that a parent
    refers to by hash, and the new root. *)
Lemma merge_holds lg oldRoot root del ins lg' :
  merge lg oldRoot (Some root) del ins = Ok lg' →
  collisionFree ins →
  holdsAll lg' ins
  ∧ (root ∈ ins → notHash root → ∀ e, Encode root = Ok e →
     inserted lg' !! Keccak256Hash e = Some e
     ∧ deleted lg' !! Keccak256Hash e = None).
Proof.
  rewrite /merge. intros Hm Hfree. outcome_inv. rename x into lgd.
  assert (∀ c ec, c ∈ ins → notHash c → Encode c = Ok ec →
            recordedBy (Some root) c →
            inserted lg' !! Keccak256Hash ec = Some ec
            ∧ deleted lg' !! Keccak256Hash ec = None) as Hrec.
  { intros c ec Hin Hn Hec Hr.
    destruct (notHash_Hash c ec Hn Hec) as [Hh _].
    destruct (mergeInserted_recorded ins lgd (Some root) lg' c
                (Keccak256Hash ec) ec Hm Hin Hr Hh) as (Hi & Hd & _);
      [|done].
    intros n' Hn' Hh'. rewrite -Hec. apply Hfree; [done..|congruence]. }
  split.
  - intros c ec Hin Hn Hec Hlen. apply (Hrec c ec); try done.
    destruct (notHash_Hash c ec Hn Hec) as [_ Hc].
    destruct (mergeInserted_Ok_each _ _ _ _ c Hm Hin)
      as (_ & _ & _ & _ & _ & _ & [Hr|Hr]); [done|].
    exfalso. apply Hr.
    destruct (mergeInserted_Ok_each _ _ _ _ c Hm Hin)
      as (c0 & e0 & h0 & Hc0 & _).
    clear Hr. revert Hc. case_decide; [lia|]. intros Hc.
    assert (∃ rc, Capped root = Ok rc) as [rc Hrc].
    { destruct ins as [|n0 rest]; [by apply elem_of_nil in Hin|].
      simpl in Hm. outcome_inv. eauto. }
    exists (Keccak256Hash ec), rc. split; [done|]. split; [done|].
    left. apply Keccak256Hash_length.
  - intros Hin Hn e He. apply (Hrec root e); try done.
    destruct (notHash_Hash root e Hn He) as [_ Hc].
    eexists _, _. split; [exact Hc|]. split; [exact Hc|]. by right.
Qed.

End InsertGet.

(** Nodes whose hashes are pairwise different are free of collisions. *)
Lemma distinct_hashes_collisionFree `{Primitives} (nodes : list node) :
  NoDup (Hash <$> nodes) → collisionFree nodes.
Proof.
  intros Hnd n n' Hn Hn' Hh.
  apply list_elem_of_lookup in Hn as [i Hi].
  apply list_elem_of_lookup in Hn' as [j Hj].
  assert (i = j) as ->.
  { eapply (NoDup_lookup _ _ _ _ Hnd); rewrite list_lookup_fmap.
    - by rewrite Hi.
    - by rewrite Hj /= Hh. }
  congruence.
Qed.

(** Insert, then read. When [T.Insert(k, v)] answers a trie, [Get(k)] on
    that trie answers [v] (equal in the sense of [bytes.Equal]) whatever [T]
    held, on any store and with any fuel from some amount on. Asked of the
    codec: to give back what it marshalled, and to marshal to no bytes only
    a message of empty fields, as proto3 does. Asked of the nodes this
    insertion made: that none holds, in itself or below, a leaf of empty key
    and empty value, and that they do not collide under the digest, among
    themselves and with the empty trie. *)
Theorem Insert_then_Get `{Primitives} `{!CodecFields}
    (db : store) (fuel : nat) (t tAfter t' : Trie)
    (key : list byte) (value : gobytes) :
  TrieInsert db fuel t key value = (tAfter, Ok t') →
  (∀ lg r,
     insertAtRoot db (rootHash t) fuel (bytesToNibbles key) value (log t)
     = (lg, Ok r) →
     collisionFree (opInserted r) ∧ forallb solid (opInserted r) = true) →
  rootHash t' ≠ EmptyHash →
  ∃ fuel0 v',
    bytesEqual v' value = true ∧
    ∀ db' fuel', fuel0 ≤ fuel' → (TrieGet db' fuel' t' key).2 = Ok v'.
Proof.
  rewrite /TrieInsert.
  destruct (Insert db (rootHash t) fuel key value (log t)) as [lgA rA] eqn:E.
  intros [= <- ->] Hfree Hne.
  rewrite /Insert in E. cbv zeta in E.
  apply M_bind_Ok in E as (r & lg1 & Hroot & E).
  apply M_bind_Ok in E as (h & lg2 & Hh & E).
  apply M_bind_Ok in E as (lg3 & lg4 & Hcur & E).
  apply M_bind_Ok in E as (newLog & lg5 & Hm & E).
  injection Hh as <- Hh. injection Hcur as <- <-. injection Hm as <- Hm.
  injection E as <- <-. rewrite /mergeFromInsertResult in Hm.
  simpl in Hne.
  destruct (Hfree lg1 r Hroot) as [Hfree' Hsol]. clear Hfree.
  rename Hfree' into Hfree.
  assert (∀ c, c ∈ opInserted r → solid c = true) as Hsolid.
  { intros c Hc. rewrite forallb_forall in Hsol. by apply Hsol, list_elem_of_In. }
  destruct (insertAtRoot_inserts db (rootHash t) fuel key value _ _ _ Hroot)
    as (n & Hn & Hs & Hin & Hl).
  rewrite Hn in Hh, Hm. simpl in Hh.
  pose proof (leads_notHash _ _ _ _ Hl) as Hnh.
  assert (∃ e, Encode n = Ok e) as [e He].
  { destruct n; try done; rewrite /Hash in Hh; outcome_inv; eauto. }
  destruct (notHash_Hash n e Hnh He) as [Hh' _].
  assert (h = Keccak256Hash e) as -> by congruence.
  destruct (merge_holds _ _ _ _ _ _ Hm Hfree) as [Hheld Hrootheld].
  destruct (Hrootheld Hin Hnh e He) as [Hi Hd].
  destruct (decode_Encode_solid n (Hsolid n Hin) Hs Hnh e He)
    as (f1 & d & Himg & Hdec).
  destruct (leads_found newLog (opInserted r) Hheld Hsolid n _ _ Hl Hs
              (ex_intro _ e He) d Himg) as (f2 & v' & Hv & Hget).
  exists (f1 `max` f2), v'. split; [by apply bool_decide_eq_true|].
  intros db' fuel' Hf. rewrite /TrieGet /Get /=.
  assert (f1 ≤ fuel') as Hf1 by lia. assert (f2 ≤ fuel') as Hf2 by lia.
  destruct (decide _) as [E|_]; [done|].
  rewrite M_bind_unfold /resolveHash Hd Hi (Hdec fuel' Hf1) /=.
  by rewrite (Hget db' fuel' Hf2).
Qed.

(** ** The sample codec gives back what it marshalled *)

Section SampleCodec.
Import Sample.

Lemma readUnary_unary n rest : readUnary (unary n ++ rest) = Some (n, rest).
Proof.
  induction n as [|n IH]; [done|].
  rewrite /unary /= in IH |- *. by rewrite IH.
Qed.

Lemma readField_field bytes rest :
  readField (field bytes ++ rest) = Some (bytes, rest).
Proof.
  rewrite /readField /field -app_assoc readUnary_unary /=.
  case_decide as Hl; [|rewrite length_app in Hl; lia].
  by rewrite take_app_length drop_app_length.
Qed.

Lemma readTail_tail value : readTail (tail value) = Some value.
Proof. by destruct value. Qed.

Lemma readFields_fields fields rest :
  readFields (length fields) (mjoin (field <$> fields) ++ rest)
  = Some (fields, rest).
Proof.
  induction fields as [|f fields IH]; [done|].
  cbn [length fmap list_fmap mjoin list_join readFields].
  rewrite -app_assoc readField_field /= IH. done.
Qed.

Lemma unary_nonempty n rest : unary n ++ rest ≠ [].
Proof. rewrite /unary. by destruct n. Qed.

Lemma sample_laws : @CodecLaws primitives.
Proof.
  split; simpl.
  - intros key value. exists value.
    by rewrite readField_field /= readTail_tail.
  - intros key child. apply readField_field.
  - intros children target. exists target.
    by rewrite readUnary_unary /= readFields_fields /= readTail_tail.
  - intros key value. rewrite /field -app_assoc. apply unary_nonempty.
  - intros key child. rewrite /field -app_assoc. apply unary_nonempty.
  - intros children target. apply unary_nonempty.
Qed.

End SampleCodec.

(** ** The codec laid out as proto3 gives back what it marshalled *)

Section Proto3Codec.
Import Proto3.

Lemma readVarint_varintFrom groups : ∀ n rest,
  (n < 2 ^ N.of_nat groups)%N →
  readVarint (varintFrom groups n ++ rest) = Some (n, rest).
Proof.
  induction groups as [|groups IH]; intros n rest Hn.
  - assert (n = 0%N) as -> by (simpl in Hn; lia). done.
  - cbn [varintFrom]. case_decide as Hlt.
    + cbn [app readVarint]. rewrite byte_of_N_to_N; [|lia].
      by rewrite decide_True.
    + cbn [app readVarint].
      assert (n mod 128 < 128)%N as Hm by (by apply N.mod_upper_bound).
      assert (0 ≤ n mod 128)%N as Hm0 by apply N.le_0_l.
      rewrite byte_of_N_to_N; [|lia].
      rewrite decide_False; [|lia].
      assert (n / 128 < 2 ^ N.of_nat groups)%N as Hd.
      { apply N.Div0.div_lt_upper_bound.
        rewrite Nat2N.inj_succ N.pow_succ_r' in Hn.
        assert (0 < 2 ^ N.of_nat groups)%N
          by (apply N.neq_0_lt_0, N.pow_nonzero; lia).
        lia. }
      rewrite (IH _ _ Hd) /=.
      do 2 f_equal. pose proof (N.div_mod n 128). lia.
Qed.

Lemma readVarint_varint n rest : readVarint (varint n ++ rest) = Some (n, rest).
Proof.
  apply readVarint_varintFrom. rewrite N2Nat.id.
  by apply N.pow_gt_lin_r.
Qed.

Lemma readFields_written fields : ∀ fuel,
  length (mjoin ((λ f, field f.1 f.2) <$> fields)) ≤ fuel →
  readFields fuel (mjoin ((λ f, field f.1 f.2) <$> fields)) = Some fields.
Proof.
  induction fields as [|[tag bytes] fields IH]; intros fuel Hf.
  { by destruct fuel. }
  cbn [fmap list_fmap mjoin list_join fst snd] in Hf |- *.
  set (more := mjoin _) in Hf, IH |- *.
  rewrite /field in Hf |- *.
  cbn [app length] in Hf |- *. rewrite -app_assoc in Hf |- *.
  destruct fuel as [|fuel]; [lia|].
  cbn [readFields]. rewrite readVarint_varint /= Nat2N.id.
  rewrite decide_True; [|rewrite length_app; lia].
  rewrite drop_app_length take_app_length IH; [done|].
  rewrite !length_app in Hf. lia.
Qed.

Lemma parse_written fields :
  Forall (λ f, f.1 = tagOne ∨ f.1 = tagTwo) fields →
  parse (mjoin ((λ f, field f.1 f.2) <$> fields)) = Some fields.
Proof.
  intros Hk. rewrite /parse readFields_written /=; [|done].
  assert (forallb (λ f : byte * list byte,
            bool_decide (f.1 = tagOne ∨ f.1 = tagTwo)) fields = true) as ->;
    [|done].
  apply forallb_forall. intros f Hin. apply bool_decide_eq_true.
  rewrite Forall_forall in Hk. by apply Hk, list_elem_of_In.
Qed.

(** A field that may be left out, as the list of the fields written. *)
Lemma unlessEmpty_fields tag bytes :
  unlessEmpty tag bytes
  = mjoin ((λ f, field f.1 f.2)
             <$> (if decide (bytes = []) then [] else [(tag, bytes)])).
Proof.
  rewrite /unlessEmpty. case_decide; [done|]. by rewrite /= app_nil_r.
Qed.

Lemma unlessEmpty_known tag bytes :
  tag = tagOne ∨ tag = tagTwo →
  Forall (λ f : byte * list byte, f.1 = tagOne ∨ f.1 = tagTwo)
    (if decide (bytes = []) then [] else [(tag, bytes)]).
Proof.
  intros Ht. destruct (decide (bytes = [])); [by apply Forall_nil|].
  apply Forall_cons. split; [done|by apply Forall_nil].
Qed.

Lemma allOf_children children rest :
  Forall (λ f : byte * list byte, f.1 = tagTwo) rest →
  allOf tagOne (((λ c, (tagOne, c)) <$> children) ++ rest) = children.
Proof.
  intros Hrest. rewrite /allOf filter_app fmap_app.
  assert (filter (λ f : byte * list byte, f.1 = tagOne) rest = []) as ->.
  { induction Hrest as [|f rest Hf _ IH]; [done|].
    rewrite filter_cons_False; [done|]. rewrite Hf. by vm_compute. }
  rewrite app_nil_r.
  induction children as [|c children IH]; [done|].
  rewrite fmap_cons filter_cons_True; [|done]. by rewrite fmap_cons IH.
Qed.

Lemma lastOf_children children rest :
  lastOf tagTwo (((λ c, (tagOne, c)) <$> children) ++ rest)
  = lastOf tagTwo rest.
Proof.
  rewrite /lastOf foldl_app. f_equal.
  induction children as [|c children IH] using rev_ind; [done|].
  by rewrite fmap_app foldl_app /= IH.
Qed.

Lemma proto3_fields : @CodecFields primitives.
Proof.
  split; simpl.
  - intros key value. rewrite !unlessEmpty_fields -join_app -fmap_app.
    rewrite parse_written;
      [|apply Forall_app; split; apply unlessEmpty_known; by (left + right)].
    simpl.
    destruct (decide (key = [])) as [->|Hk];
      destruct (decide (gocontent value = [])) as [Hv|Hv];
      rewrite /lastOf /=; eexists; (split; [reflexivity|]); by rewrite ?Hv.
  - intros key child. rewrite !unlessEmpty_fields -join_app -fmap_app.
    rewrite parse_written;
      [|apply Forall_app; split; apply unlessEmpty_known; by (left + right)].
    simpl.
    destruct (decide (key = [])) as [->|Hk];
      destruct (decide (child = [])) as [->|Hc]; by rewrite /lastOf /=.
  - intros children target.
    rewrite unlessEmpty_fields.
    assert (field tagOne <$> children
            = (λ f, field f.1 f.2) <$> ((λ c, (tagOne, c)) <$> children))
      as -> by (by rewrite -list_fmap_compose).
    rewrite -join_app -fmap_app parse_written; last first.
    { apply Forall_app. split.
      - apply Forall_fmap, Forall_true. intros c. by left.
      - apply unlessEmpty_known. by right. }
    simpl. rewrite allOf_children;
      [|destruct (decide _); [by apply Forall_nil|by repeat constructor]].
    rewrite lastOf_children. eexists. split; [reflexivity|].
    case_decide as E; rewrite /lastOf /=; [by rewrite E|done].
  - intros key value. rewrite /unlessEmpty.
    repeat case_decide; simpl; try done.
  - intros key child. rewrite /unlessEmpty.
    repeat case_decide; simpl; try done.
  - intros children target. rewrite /unlessEmpty.
    destruct children as [|c children]; [|done].
    case_decide; simpl; done.
Qed.

End Proto3Codec.

(** A codec that marshals no message to no bytes is one that marshals to no
    bytes only messages of empty fields. *)
Lemma laws_fields `{Primitives} : CodecLaws → CodecFields.
Proof.
  intros Hlaws. split.
  - apply leaf_roundtrip.
  - apply ext_roundtrip.
  - apply branch_roundtrip.
  - intros key value E. by apply leaf_nonempty in E.
  - intros key child E. by apply ext_nonempty in E.
  - intros children target E. by apply branch_nonempty in E.
Qed.

(** ** The properties on inputs *)

Section OnSample.
#[local] Existing Instance Sample.primitives.

Lemma merge_records_inserted_witness :
merge newUpdateLog EmptyHash (Some Scenario.shortLeaf) []
  [Scenario.shortLeaf] = Ok Scenario.shortLeafJournal
∧ Encode Scenario.shortLeaf = Ok [x01; x00; x12; x01; x01; x02; x00]
∧ ∃ h, Hash Scenario.shortLeaf = Ok h
       ∧ inserted Scenario.shortLeafJournal !! h
         = Some [x01; x00; x12; x01; x01; x02; x00].
Proof.
assert (merge newUpdateLog EmptyHash (Some Scenario.shortLeaf) []
          [Scenario.shortLeaf] = Ok Scenario.shortLeafJournal) as Hm
  by (vm_compute; reflexivity).
split; [exact Hm|]. split; [vm_compute; reflexivity|].
destruct (merge_records_inserted _ _ _ _ _ _ Scenario.shortLeaf Hm)
  as (h & e & lgd & Hh & He & _ & _ & _ & _ & Hroot).
- apply list_elem_of_singleton. reflexivity.
- intros n' Hn' _. apply list_elem_of_singleton in Hn'. subst n'.
  split; reflexivity.
- exists h. split; [exact Hh|].
  rewrite (Hroot eq_refl). f_equal.
  assert (Encode Scenario.shortLeaf = Ok [x01; x00; x12; x01; x01; x02; x00])
    as He' by (vm_compute; reflexivity).
  congruence.
Defined.

Lemma journal_inserted_deleted_apart_witness :
reachable Scenario.usedJournal
∧ ∀ h, ¬ (is_Some (inserted Scenario.usedJournal !! h)
          ∧ is_Some (deleted Scenario.usedJournal !! h)).
Proof.
assert (reachable Scenario.usedJournal) as Hr
  by (apply reach_delete, reach_insert, reach_new).
split; [exact Hr|].
exact (proj1 (journal_inserted_deleted_apart Scenario.usedJournal Hr)).
Defined.


(** C4 on an input: three keys that end alike, with one value. After the
  three insertions, deleting the first key marks the leaf all three share
  as deleted in the journal; deleting the second stops on it, and the
  root never becomes [EmptyHash]. *)
Lemma delete_all_stops_on_shared_leaf :
succeeded Scenario.alikeTrie = true
∧ Sample.deleteAll ∅ Scenario.alikeTrie
    [Sample.text "ax"; Sample.text "bx"; Sample.text "cx"]
  = Panic (Explicit "delete: can't resolve hashNode")
∧ Sample.deleteAll ∅ Scenario.alikeTrie
    [Sample.text "ax"; Sample.text "bx"]
  = Panic (Explicit "delete: can't resolve hashNode").
Proof. split; [|split]; vm_compute; reflexivity. Qed.

(** C2 on an input: one mapping of four keys inserted in two orders. In one
  order the third insertion replaces a leaf that another key still uses
  and marks its hash deleted, and the fourth insertion stops on it; in the
  other order all four insertions come back. *)
Lemma insert_order_stops_on_shared_leaf :
Scenario.orderA ≡ₚ Scenario.orderB
∧ NoDup (Scenario.orderA.*1)
∧ Sample.insertAll ∅ Sample.emptyTrie Scenario.orderA
  = Panic (Explicit "insert: can't resolve hashNode")
∧ succeeded (Sample.insertAll ∅ Sample.emptyTrie Scenario.orderB) = true.
Proof.
split; [|split; [|split]].
- rewrite /Scenario.orderA /Scenario.orderB.
  apply (Permutation_app_comm [_; _] [_; _]).
- apply (bool_decide_unpack _). vm_compute. exact I.
- vm_compute. reflexivity.
- vm_compute. reflexivity.
Qed.

End OnSample.

(* ===================================================================== *)
(** * More of the package *)
(* ===================================================================== *)

(** ** The nibble codec (encoding.go) *)

Section NibbleCodec.

Lemma pack_halves b :
  pack (byte_of_N (Byte.to_N b / 16)) (byte_of_N (Byte.to_N b mod 16)) = b.
Proof. destruct b; vm_compute; reflexivity. Qed.

(** The bytes of the nibbles of a byte string are that byte string: the two
    loops of encoding.go undo each other, on any input. *)
Theorem nibblesToBytes_bytesToNibbles (bytes : list byte) :
  nibblesToBytes (bytesToNibbles bytes) = Ok bytes.
Proof.
  induction bytes as [|b rest IH]; [done|].
  cbn [bytesToNibbles nibblesToBytes]. rewrite IH /=.
  by rewrite pack_halves.
Qed.

Lemma nibblesToBytes_pairs (nibbles : list byte) :
  match nibblesToBytes nibbles with
  | Ok bytes => Nat.even (length nibbles) = true
                ∧ length nibbles = 2 * length bytes
  | Panic f => Nat.even (length nibbles) = false
               ∧ f = IndexOutOfRange "nibblesToBytes: nibbles[ni+1]"
  | OutOfFuel => False
  end.
Proof.
  pose proof (Nat.le_refl (length nibbles)) as Hl.
  revert Hl. generalize (length nibbles) at 2. intros n. revert nibbles.
  induction n as [|n IH]; intros [|hi [|lo rest]] Hl;
    cbn [length] in *; try lia; try done.
  cbn [nibblesToBytes]. specialize (IH rest ltac:(lia)).
  destruct (nibblesToBytes rest) as [bytes|f|]; [|done..].
  simpl. destruct IH as [He Hlen]. split; [done|]. lia.
Qed.

(** [nibblesToBytes] answers one byte for every two nibbles when their
    number is even, and stops at [nibbles[ni+1]], an index out of range,
    when it is odd. *)
Theorem nibblesToBytes_outcome (nibbles : list byte) :
  (Nat.even (length nibbles) = true
   ∧ ∃ bytes, nibblesToBytes nibbles = Ok bytes
              ∧ length nibbles = 2 * length bytes)
  ∨ (Nat.even (length nibbles) = false
     ∧ nibblesToBytes nibbles
       = Panic (IndexOutOfRange "nibblesToBytes: nibbles[ni+1]")).
Proof.
  pose proof (nibblesToBytes_pairs nibbles) as Ho.
  destruct (nibblesToBytes nibbles) as [bytes|f|]; [| |done].
  - left. destruct Ho as [He Hlen]. split; [exact He|]. by exists bytes.
  - right. destruct Ho as [He ->]. by split.
Qed.

(** [encodeKey] never stops: it pads an odd number of nibbles, so it
    answers a byte for every two nibbles, rounded up, and a flag whose low
    half is the node type and whose high half is 1 exactly when a nibble
    was padded. *)
Theorem encodeKey_total (nibbles : list byte) (nodeType : byte) :
  is_nibble nodeType →
  ∃ keyBytes flag,
    encodeKey nibbles nodeType = Ok (keyBytes, flag)
    ∧ length keyBytes = (length nibbles + 1) / 2
    ∧ lowNibble flag = nodeType
    ∧ highNibble flag = if Nat.odd (length nibbles) then x01 else x00.
Proof.
  intros Hty%is_nibble_nibbles. rewrite /encodeKey.
  assert (length nibbles mod 2 = if Nat.odd (length nibbles) then 1 else 0)
    as Hmod.
  { destruct (Nat.odd (length nibbles)) eqn:E.
    - apply Nat.odd_spec in E as [k ->].
      by rewrite Nat.add_comm Nat.mul_comm Nat.Div0.mod_add.
    - rewrite -Nat.negb_even in E. apply negb_false_iff in E.
      apply Nat.even_spec in E as [k ->].
      by rewrite Nat.mul_comm Nat.Div0.mod_mul. }
  destruct (Nat.odd (length nibbles)) eqn:Hodd; rewrite Hmod.
  - destruct (decide (1 ≠ 0)) as [_|]; [|lia].
    pose proof (nibblesToBytes_pairs (nibbles ++ [x00])) as Ho.
    rewrite length_app /= in Ho.
    destruct (nibblesToBytes (nibbles ++ [x00])) as [bytes|f|]; [|..|done].
    + destruct Ho as [_ Hlen]. exists bytes. eexists. split; [done|].
      split; [|].
      { replace (length nibbles + 1) with (length bytes * 2) by lia.
        by rewrite Nat.div_mul. }
      apply list_elem_of_In in Hty. simpl in Hty.
      repeat (destruct Hty as [<-|Hty]; [by vm_compute|]). done.
    + destruct Ho as [He _]. rewrite Nat.add_1_r Nat.even_succ Hodd in He.
      done.
  - destruct (decide (0 ≠ 0)) as [|_]; [lia|].
    pose proof (nibblesToBytes_pairs nibbles) as Ho.
    destruct (nibblesToBytes nibbles) as [bytes|f|]; [|..|done].
    + destruct Ho as [_ Hlen]. exists bytes. eexists. split; [done|].
      split; [|].
      { rewrite Hlen. replace (2 * length bytes + 1)
          with (1 + length bytes * 2) by lia.
        by rewrite Nat.div_add. }
      apply list_elem_of_In in Hty. simpl in Hty.
      repeat (destruct Hty as [<-|Hty]; [by vm_compute|]). done.
    + destruct Ho as [He _]. rewrite -Nat.negb_odd Hodd in He. done.
Qed.

Lemma encodeKey_total_witness :
  is_nibble extType
  ∧ ∃ keyBytes flag,
      encodeKey [x0a; x0b; x0c] extType = Ok (keyBytes, flag)
      ∧ length keyBytes = (length [x0a; x0b; x0c] + 1) / 2
      ∧ lowNibble flag = extType
      ∧ highNibble flag
        = if Nat.odd (length [x0a; x0b; x0c]) then x01 else x00.
Proof.
  assert (is_nibble extType) as Hty by (vm_compute; reflexivity).
  split; [exact Hty|]. apply (encodeKey_total [x0a; x0b; x0c] extType Hty).
Defined.

(** What [encodeKey] makes of the nibbles of a leaf or of an extension,
    [decodeKey] reads back, with the node type. *)
Theorem decodeKey_encodeKey (nibbles : list byte) (nodeType : byte) :
  Forall is_nibble nibbles → nodeType ∈ [leafType; extType] →
  ('(keyBytes, flag) ← encodeKey nibbles nodeType; decodeKey flag keyBytes)
  = Ok (nibbles, nodeType).
Proof.
  intros Hk Hty.
  destruct (encodeKey_decodeKey nibbles nodeType Hk Hty)
    as (keyBytes & flag & -> & Hd & _).
  exact Hd.
Qed.

Lemma decodeKey_encodeKey_witness :
  Forall is_nibble [x0a; x0b; x0c] ∧ leafType ∈ [leafType; extType]
  ∧ ('(keyBytes, flag) ← encodeKey [x0a; x0b; x0c] leafType;
     decodeKey flag keyBytes) = Ok ([x0a; x0b; x0c], leafType).
Proof.
  assert (Forall is_nibble [x0a; x0b; x0c]) as Hk
    by (repeat constructor).
  assert (leafType ∈ [leafType; extType]) as Hty by (by left).
  split; [exact Hk|]. split; [exact Hty|].
  apply (decodeKey_encodeKey _ _ Hk Hty).
Defined.

(** [matchingLength a b] is the length of the longest common prefix of [a]
    and [b]: the prefixes of that length or less are the common ones. *)
Theorem matchingLength_common_prefix (a b : list byte) (n : nat) :
  n ≤ matchingLength a b
  ↔ n ≤ length a ∧ n ≤ length b ∧ take n a = take n b.
Proof.
  revert b n. induction a as [|x a IH]; intros [|y b] n; cbn [matchingLength].
  1-3: split;
    [intros Hn; assert (n = 0) as -> by lia; simpl; split; [lia|split; [lia|done]]
    |intros (? & ? & _); simpl in *; lia].
  - destruct n as [|n].
    { split; [intros _|intros _; lia]. simpl. split; [lia|split; [lia|done]]. }
    case_decide as Hxy.
    + subst y. rewrite -Nat.succ_le_mono IH. simpl.
      rewrite -!Nat.succ_le_mono. split.
      * intros (? & ? & ->). done.
      * intros (? & ? & [= ?]). done.
    + split; [lia|]. intros (_ & _ & [= ? _]). done.
Qed.

End NibbleCodec.

(** ** Nodes and their encodings (node.go) *)

Section NodeCodec.
Context `{Primitives}.

(** For a leaf, an extension or a branch that encodes, [Hash] is the digest
    of the encoding, 32 bytes long, and [Capped] is the encoding itself when
    that is shorter than 32 bytes and the hash otherwise: [Capped] has 32
    bytes exactly when the encoding has 32 or more, which is how
    [decodeExtNode] and [decodeBranchNode] tell a reference from an inline
    child. *)
Theorem Capped_inline_or_hash (n : node) (encoded : list byte) :
  notHash n → Encode n = Ok encoded →
  Hash n = Ok (Keccak256Hash encoded)
  ∧ length (Keccak256Hash encoded) = HashLength
  ∧ Capped n
    = Ok (if decide (length encoded < HashLength) then encoded
          else Keccak256Hash encoded)
  ∧ ∀ capped, Capped n = Ok capped →
      (length capped = HashLength ↔ HashLength ≤ length encoded)
      ∧ length capped ≤ HashLength.
Proof.
  intros Hn He.
  assert (Capped n
          = Ok (if decide (length encoded < HashLength) then encoded
                else Keccak256Hash encoded)) as Hc.
  { rewrite /Capped He /=. by destruct n. }
  split; [|split; [|split]].
  - destruct n; [..|done]; by rewrite /Hash He.
  - apply Keccak256Hash_length.
  - exact Hc.
  - intros capped. rewrite Hc. intros [= <-].
    pose proof (Keccak256Hash_length encoded) as Hk.
    case_decide; rewrite ?Hk; lia.
Qed.

Lemma decodeNode_panic_sites (fuel : nat) (bytes : list byte) (f : fault) :
  decodeNode fuel bytes = Panic f →
  f = SliceOutOfRange "decodeKey: nibbles[0:len(nibbles)-1]"
  ∨ f = IndexOutOfRange "decodeBranchNode: n.children[i]".
Proof.
  revert bytes f. induction fuel as [|fuel IH]; intros bytes f; [done|].
  assert (∀ flag rawKey p, decodeKey flag rawKey = Panic p →
            p = SliceOutOfRange "decodeKey: nibbles[0:len(nibbles)-1]")
    as Hkey.
  { intros flag rawKey p. rewrite /decodeKey. case_decide; [|done].
    destruct (bytesToNibbles rawKey); [|done]. by intros [= <-]. }
  assert (∀ raw i children err p,
            decodeChildren (decodeNode fuel) i raw children err = Panic p →
            p = SliceOutOfRange "decodeKey: nibbles[0:len(nibbles)-1]"
            ∨ p = IndexOutOfRange "decodeBranchNode: n.children[i]")
    as Hchildren.
  { induction raw as [|child rest IHr]; intros i children err p;
      cbn [decodeChildren]; [done|].
    rewrite /setChild. repeat case_decide; simpl;
      try (destruct (decodeNode fuel child) as [[n e]|p'|] eqn:Ed; simpl);
      try done; eauto; intros [= <-]; eauto. }
  rewrite decodeNode_unfold. cbv zeta. repeat case_decide; try done.
  - rewrite /decodeLeafNode. destruct (unmarshalLeaf _) as [[k v]|]; [|done].
    destruct (decodeKey _ k) as [[kn ?]|p|] eqn:Ek; simpl; [done| |done].
    intros [= <-]. left. by eapply Hkey.
  - rewrite /decodeExtNode. destruct (unmarshalExt _) as [[k c]|]; [|done].
    destruct (decodeKey _ k) as [[kn ?]|p|] eqn:Ek; simpl; [| |done].
    + case_decide; [done|].
      destruct (decodeNode fuel c) as [[n e]|p|] eqn:Ed; simpl; [done| |done].
      intros [= <-]. eauto.
    + intros [= <-]. left. by eapply Hkey.
  - rewrite /decodeBranchNode.
    destruct (unmarshalBranch _) as [[cs t]|]; [|done].
    destruct (decodeChildren _ _ _ _ _) as [[cs' e]|p|] eqn:Ec; simpl;
      [done| |done].
    intros [= <-]. eauto.
Qed.

(** [decodeNode] stops at two places only: the slice
    [nibbles[0:len(nibbles)-1]] of [decodeKey] and the slot
    [n.children[i]] of [decodeBranchNode]; anything else that is wrong with
    the bytes is answered as an error. *)
Theorem decodeNode_aborts_only (fuel : nat) (bytes : list byte) (f : fault) :
  decodeNode fuel bytes = Panic f → f ∈ decodeFaults.
Proof.
  intros Hd. rewrite /decodeFaults.
  destruct (decodeNode_panic_sites fuel bytes f Hd) as [-> | ->].
  - by left.
  - right. by left.
Qed.

(** The encoding of a leaf or of an extension that is flagged as padded
    and holds no key bytes makes [decodeNode] stop, at the slice of
    [decodeKey], instead of answering an error. *)
Theorem decodeNode_padded_empty_key (fuel : nat) (raw : list byte) :
  raw ≠ [] →
  (∀ value, unmarshalLeaf raw = Some ([], value) →
     decodeNode (S fuel) (raw ++ [leafWithPad])
     = Panic (SliceOutOfRange "decodeKey: nibbles[0:len(nibbles)-1]"))
  ∧ (∀ child, unmarshalExt raw = Some ([], child) →
       decodeNode (S fuel) (raw ++ [extWithPad])
       = Panic (SliceOutOfRange "decodeKey: nibbles[0:len(nibbles)-1]")).
Proof.
  intros Hraw. split.
  - intros value Hu. rewrite (decodeNode_snoc _ _ _ Hraw).
    destruct (decide (lowNibble leafWithPad = leafType)) as [_|E];
      [|by vm_compute in E].
    by rewrite /decodeLeafNode Hu.
  - intros child Hu. rewrite (decodeNode_snoc _ _ _ Hraw).
    destruct (decide (lowNibble extWithPad = leafType)) as [E|_];
      [by vm_compute in E|].
    destruct (decide (lowNibble extWithPad = extType)) as [_|E];
      [|by vm_compute in E].
    by rewrite /decodeExtNode Hu.
Qed.

Lemma decodeChildren_overflow (rec : list byte → outcome decoded) raw :
  ∀ i children err r,
    length children = 16 → i ≤ 16 → 16 < i + length raw →
    decodeChildren rec i raw children err ≠ Ok r.
Proof.
  induction raw as [|child rest IH]; intros i children err r Hl Hle Hi;
    cbn [decodeChildren]; [simpl in Hi; lia|].
  cbn [length] in Hi. rewrite /setChild.
  repeat case_decide; simpl;
    try (destruct (rec child) as [[n e]| |]; simpl);
    try done; try lia; apply IH; rewrite ?length_insert; (done || lia).
Qed.

(** The encoding of a branch with more than 16 children never decodes:
    [decodeBranchNode] writes [n.children[i]] for every child of the
    message and stops at the seventeenth. *)
Theorem decodeNode_seventeen_children (fuel : nat) (raw : list byte)
    (children : list (list byte)) (target : gobytes) (r : decoded) :
  raw ≠ [] → unmarshalBranch raw = Some (children, target) →
  16 < length children →
  decodeNode fuel (raw ++ [branchType]) ≠ Ok r.
Proof.
  intros Hraw Hu Hl. destruct fuel as [|fuel]; [done|].
  rewrite (decodeNode_snoc _ _ _ Hraw).
  destruct (decide (lowNibble branchType = leafType)) as [E|_];
    [by vm_compute in E|].
  destruct (decide (lowNibble branchType = extType)) as [E|_];
    [by vm_compute in E|].
  destruct (decide (lowNibble branchType = branchType)) as [_|E];
    [|by vm_compute in E].
  rewrite /decodeBranchNode Hu.
  destruct (decodeChildren _ _ _ _ _) as [[cs e]| |] eqn:Ed; [|done..].
  exfalso. eapply decodeChildren_overflow; [| | |exact Ed]; [done|lia|lia].
Qed.

(** Whatever the bytes, a node that [decodeNode] answers is a leaf, an
    extension or a branch, its keys are nibbles, its branches have 16
    slots and the hash nodes it holds have 32 bytes. *)
Theorem decodeNode_well_formed (fuel : nat) (bytes : list byte)
    (n : node) (err : option error) :
  decodeNode fuel bytes = Ok (Some n, err) → shaped n ∧ notHash n.
Proof.
  intros Hd. split; [exact (decodeNode_shaped _ _ _ _ Hd)|].
  destruct fuel as [|fuel]; [done|].
  rewrite decodeNode_unfold in Hd. cbv zeta in Hd.
  repeat case_decide; try done.
  - rewrite /decodeLeafNode in Hd. destruct (unmarshalLeaf _) as [[k v]|];
      [|done]. outcome_inv. destruct_pairs. by outcome_inv.
  - rewrite /decodeExtNode in Hd. destruct (unmarshalExt _) as [[k c]|];
      [|done]. outcome_inv. destruct_pairs. case_decide.
    + by outcome_inv.
    + outcome_inv. destruct_pairs. by outcome_inv.
  - rewrite /decodeBranchNode in Hd.
    destruct (unmarshalBranch _) as [[cs t]|]; [|done].
    outcome_inv. destruct_pairs. by outcome_inv.
Qed.

End NodeCodec.

Section EncodeDecode.
Context `{Primitives} `{!CodecLaws}.

(** With a codec that gives back what it marshalled: the encoding of a
    leaf, an extension or a branch of the right shape decodes, without error
    and from some fuel on, to the node's image, in which a child whose
    encoding has 32 bytes or more is the hash node of its digest, a shorter
    child is the image of that child, and a value is the same bytes; the
    image has the right shape too. *)
Theorem decodeNode_Encode (n : node) (encoded : list byte) :
  shaped n → notHash n → Encode n = Ok encoded →
  ∃ fuel0 d,
    img n d ∧ shaped d ∧ notHash d
    ∧ ∀ fuel, fuel0 ≤ fuel → decodeNode fuel encoded = Ok (Some d, None).
Proof.
  intros Hs Hn He.
  destruct (decode_Encode n Hs Hn encoded He) as (fuel0 & d & Hi & Hd).
  exists fuel0, d. split; [exact Hi|].
  pose proof (Hd fuel0 (Nat.le_refl _)) as Hd0.
  split; [exact (decodeNode_shaped _ _ _ _ Hd0)|].
  split; [|exact Hd]. by destruct Hi.
Qed.

End EncodeDecode.

Section EncodeDecodeFields.
Context `{Primitives} `{!CodecFields}.

(** With a codec that gives back what it marshalled and marshals to no
    bytes only a message of empty fields, as proto3 does: the encoding of a
    leaf, an extension or a branch of the right shape that holds, in itself
    or below, no leaf of empty key and empty value decodes, without error
    and from some fuel on, to the node's image, which has the right shape
    too. *)
Theorem Encode_decodeNode_fields (n : node) (encoded : list byte) :
  shaped n → notHash n → solid n = true → Encode n = Ok encoded →
  ∃ fuel0 d,
    img n d ∧ shaped d ∧ notHash d
    ∧ ∀ fuel, fuel0 ≤ fuel → decodeNode fuel encoded = Ok (Some d, None).
Proof.
  intros Hs Hn Hsol He.
  destruct (decode_Encode_solid n Hsol Hs Hn encoded He)
    as (fuel0 & d & Hi & Hd).
  exists fuel0, d. split; [exact Hi|].
  pose proof (Hd fuel0 (Nat.le_refl _)) as Hd0.
  split; [exact (decodeNode_shaped _ _ _ _ Hd0)|].
  split; [|exact Hd]. by destruct Hi.
Qed.

End EncodeDecodeFields.

(** ** The journal (update_log.go) *)

Section JournalMore.
Context `{Primitives}.

Lemma mergeDeleted_untouched nodes : ∀ lg oldRoot lg' h,
  mergeDeleted lg oldRoot nodes = Ok lg' →
  (∀ n, n ∈ nodes → Hash n ≠ Ok h) →
  inserted lg' !! h = inserted lg !! h
  ∧ deleted lg' !! h = deleted lg !! h
  ∧ cached lg' !! h = cached lg !! h.
Proof.
  induction nodes as [|n rest IH]; intros lg oldRoot lg' h Hm Hno;
    cbn [mergeDeleted] in Hm.
  - by injection Hm as <-.
  - outcome_inv.
    assert (∀ n', n' ∈ rest → Hash n' ≠ Ok h) as Hrest.
    { intros n' Hn'. apply Hno. by right. }
    case_decide; [|by eapply IH].
    destruct (IH _ _ _ h Hm Hrest) as (-> & -> & ->).
    match goal with Hh : Hash n = Ok ?x |- _ =>
      assert (x ≠ h) as Hne by (intros ->; by eapply Hno; [left|]) end.
    simpl. by rewrite lookup_insert_ne // !lookup_delete_ne.
Qed.

Lemma mergeDeleted_marked nodes : ∀ lg oldRoot lg' h,
  mergeDeleted lg oldRoot nodes = Ok lg' →
  deleted lg !! h = Some [] ∧ inserted lg !! h = None
  ∧ cached lg !! h = None →
  deleted lg' !! h = Some [] ∧ inserted lg' !! h = None
  ∧ cached lg' !! h = None.
Proof.
  induction nodes as [|n rest IH]; intros lg oldRoot lg' h Hm Hh;
    cbn [mergeDeleted] in Hm.
  - by injection Hm as <-.
  - outcome_inv. case_decide; [|by eapply IH].
    eapply IH; [exact Hm|]. destruct Hh as (Hd & Hi & Hc).
    match goal with |- context [Log.delete lg ?x] =>
      destruct (decide (x = h)) as [->|Hne] end; simpl.
    + by rewrite lookup_insert_eq !lookup_delete_eq.
    + by rewrite lookup_insert_ne // !lookup_delete_ne.
Qed.

Lemma mergeDeleted_records nodes : ∀ lg oldRoot lg' d h c,
  mergeDeleted lg oldRoot nodes = Ok lg' →
  d ∈ nodes → Hash d = Ok h → Capped d = Ok c →
  length c = HashLength ∨ h = oldRoot →
  deleted lg' !! h = Some [] ∧ inserted lg' !! h = None
  ∧ cached lg' !! h = None.
Proof.
  induction nodes as [|n rest IH]; intros lg oldRoot lg' d h c Hm Hd Hh Hc Ht.
  - by apply elem_of_nil in Hd.
  - cbn [mergeDeleted] in Hm. outcome_inv.
    apply elem_of_cons in Hd as [->|Hd].
    + match goal with E : Capped n = Ok _ |- _ => rewrite Hc in E end.
      match goal with E : Hash n = Ok _ |- _ => rewrite Hh in E end.
      outcome_inv. case_decide; [|done].
      eapply mergeDeleted_marked; [exact Hm|]. simpl.
      by rewrite lookup_insert_eq !lookup_delete_eq.
    + case_decide; eapply IH; eauto.
Qed.

(** The first loop of [merge], read as C5 reads the second: a node of the
    deleted list whose capped form has 32 bytes, or whose hash is the old
    root, is marked deleted under its hash in the journal that [merge]
    leaves, and is in neither other map, unless the inserted list records a
    node under that hash; whether another node still refers to the hash is
    not looked at. *)
Theorem merge_marks_deleted
    (lg lg' : updateLog) (oldRoot : list byte) (newRoot : option node)
    (del ins : list node) (d : node) (h capped : list byte) :
  merge lg oldRoot newRoot del ins = Ok lg' →
  d ∈ del → Hash d = Ok h → Capped d = Ok capped →
  length capped = HashLength ∨ h = oldRoot →
  (∀ n, n ∈ ins → Hash n = Ok h → ¬ recordedBy newRoot n) →
  deleted lg' !! h = Some []
  ∧ inserted lg' !! h = None
  ∧ cached lg' !! h = None.
Proof.
  rewrite /merge. intros Hm Hd Hh Hc Ht Hins. outcome_inv.
  match goal with E : mergeDeleted _ _ _ = Ok _ |- _ =>
    pose proof (mergeDeleted_records _ _ _ _ _ _ _ E Hd Hh Hc Ht)
      as (Hd1 & Hi1 & Hc1) end.
  destruct (mergeInserted_untouched _ _ _ _ h Hm Hins) as (-> & -> & ->).
  done.
Qed.

(** [merge] changes the journal at the hashes of the nodes it is handed
    and nowhere else. *)
Theorem merge_elsewhere
    (lg lg' : updateLog) (oldRoot : list byte) (newRoot : option node)
    (del ins : list node) (h : list byte) :
  merge lg oldRoot newRoot del ins = Ok lg' →
  (∀ n, n ∈ del ++ ins → Hash n ≠ Ok h) →
  inserted lg' !! h = inserted lg !! h
  ∧ deleted lg' !! h = deleted lg !! h
  ∧ cached lg' !! h = cached lg !! h.
Proof.
  rewrite /merge. intros Hm Hno. outcome_inv.
  match goal with E : mergeDeleted _ _ _ = Ok _ |- _ =>
    destruct (mergeDeleted_untouched _ _ _ _ h E) as (Hi & Hd & Hc) end.
  { intros n Hn. apply Hno. apply elem_of_app. by left. }
  destruct (mergeInserted_untouched _ _ _ _ h Hm) as (-> & -> & ->); [|done].
  intros n Hn Hh. exfalso. eapply Hno; [|exact Hh].
  apply elem_of_app. by right.
Qed.

Lemma mergeDeleted_blank nodes : ∀ lg oldRoot lg',
  mergeDeleted lg oldRoot nodes = Ok lg' →
  (∀ h v, deleted lg !! h = Some v → v = []) →
  ∀ h v, deleted lg' !! h = Some v → v = [].
Proof.
  induction nodes as [|n rest IH]; intros lg oldRoot lg' Hm Hb;
    cbn [mergeDeleted] in Hm.
  - by injection Hm as <-.
  - outcome_inv. case_decide; [|by eapply IH].
    eapply IH; [exact Hm|]. intros h v. simpl.
    intros [[_ <-]|[_ Hv]]%lookup_insert_Some; [done|by eapply Hb].
Qed.

Lemma mergeInserted_blank nodes : ∀ lg newRoot lg',
  mergeInserted lg newRoot nodes = Ok lg' →
  (∀ h v, deleted lg !! h = Some v → v = []) →
  ∀ h v, deleted lg' !! h = Some v → v = [].
Proof.
  induction nodes as [|n rest IH]; intros lg newRoot lg' Hm Hb;
    cbn [mergeInserted] in Hm.
  - by injection Hm as <-.
  - outcome_inv. case_decide; [|by eapply IH]. outcome_inv.
    eapply IH; [exact Hm|]. intros h v. simpl.
    intros [_ Hv]%lookup_delete_Some. by eapply Hb.
Qed.

(** In every journal a program can build, a deleted hash maps to the empty
    byte string, so that [copy], which writes [[]byte{}] again for every
    deleted hash, makes an equal journal. *)
Theorem copy_of_reachable (lg : updateLog) :
  reachable lg →
  (∀ h v, deleted lg !! h = Some v → v = []) ∧ Log.copy lg = lg.
Proof.
  intros Hr.
  assert (∀ h v, deleted lg !! h = Some v → v = []) as Hb.
  { induction Hr as [|lg k v0 _ IH|lg k v0 _ IH|lg k _ IH|lg _ IH
                     |lg oldRoot newRoot del ins lg' _ IH Hm]; intros h v.
    - by rewrite lookup_empty.
    - apply IH.
    - simpl. intros [_ Hv]%lookup_delete_Some. by eapply IH.
    - simpl. intros [[_ <-]|[_ Hv]]%lookup_insert_Some; [done|by eapply IH].
    - simpl. rewrite lookup_fmap. by destruct (deleted lg !! h); intros [= <-].
    - unfold merge in Hm. outcome_inv.
      eapply mergeInserted_blank; [exact Hm|].
      eapply mergeDeleted_blank; eauto. }
  split; [exact Hb|]. destruct lg as [c i d]. rewrite /Log.copy /=. f_equal.
  apply map_eq. intros h. rewrite lookup_fmap. simpl in Hb.
  destruct (d !! h) as [v|] eqn:E; [|done]. simpl. by rewrite (Hb h v E).
Qed.

End JournalMore.

(** ** The receiver of a read or of a deletion (trie.go) *)

Section ReceiverMore.
Context `{Primitives}.

Lemma cacheGrows_from_store db lg lg' h bytes :
  cacheGrows db lg lg' → cached lg' !! h = Some bytes →
  cached lg !! h = Some bytes ∨ db !! h = Some bytes.
Proof.
  intros (_ & _ & Hc) Hb.
  destruct (Hc h) as [E|(_ & _ & _ & b & Hb' & Hdb & _)].
  - left. congruence.
  - right. congruence.
Qed.

(** [T.Get(k)], whatever it answers, leaves the receiver its root hash and
    the insertions and deletions of its journal; [cached] keeps what it had
    and gains only bytes the store holds under the same hash; a later [Get]
    answers, for every key, what it would have answered before. *)
Theorem Get_leaves_receiver
    (db : store) (fuel : nat) (t : Trie) (key : list byte) :
  let tAfter := (TrieGet db fuel t key).1 in
  rootHash tAfter = rootHash t
  ∧ inserted (log tAfter) = inserted (log t)
  ∧ deleted (log tAfter) = deleted (log t)
  ∧ cached (log t) ⊆ cached (log tAfter)
  ∧ (∀ h bytes, cached (log tAfter) !! h = Some bytes →
       cached (log t) !! h = Some bytes ∨ db !! h = Some bytes)
  ∧ ∀ fuel' key',
      (TrieGet db fuel' tAfter key').2 = (TrieGet db fuel' t key').2.
Proof.
  rewrite /TrieGet.
  pose proof (cachesOnly_Get db (rootHash t) fuel key (log t)) as Hg.
  destruct (Get db (rootHash t) fuel key (log t)) as [lg r].
  simpl in *. split; [done|].
  pose proof Hg as (Hi & Hd & Hc).
  split; [done|]. split; [done|]. split; [|split].
  - apply map_subseteq_spec. intros h b Hb.
    destruct (Hc h) as [E|(Hn & _)]; congruence.
  - intros h bytes. by apply cacheGrows_from_store.
  - intros fuel' key'.
    destruct (cacheBlind_Get db (rootHash t) fuel' key' (log t) lg) as [E _];
      [done|].
    destruct (Get db (rootHash t) fuel' key' (log t)),
             (Get db (rootHash t) fuel' key' lg). done.
Qed.

(** [T.Delete(k)], whatever it answers, leaves the receiver as [Get] does:
    the same root hash, insertions and deletions, a [cached] map that only
    gained bytes of the store, and the same answers of [Get]. *)
Theorem Delete_leaves_receiver
    (db : store) (fuel : nat) (t : Trie) (key : list byte) :
  let tAfter := (TrieDelete db fuel t key).1 in
  rootHash tAfter = rootHash t
  ∧ inserted (log tAfter) = inserted (log t)
  ∧ deleted (log tAfter) = deleted (log t)
  ∧ cached (log t) ⊆ cached (log tAfter)
  ∧ (∀ h bytes, cached (log tAfter) !! h = Some bytes →
       cached (log t) !! h = Some bytes ∨ db !! h = Some bytes)
  ∧ ∀ fuel' key',
      (TrieGet db fuel' tAfter key').2 = (TrieGet db fuel' t key').2.
Proof.
  rewrite /TrieDelete.
  pose proof (cachesOnly_Delete db (rootHash t) fuel key (log t)) as Hg.
  destruct (Delete db (rootHash t) fuel key (log t)) as [lg r].
  simpl in *. split; [done|].
  pose proof Hg as (Hi & Hd & Hc).
  split; [done|]. split; [done|]. split; [|split].
  - apply map_subseteq_spec. intros h b Hb.
    destruct (Hc h) as [E|(Hn & _)]; congruence.
  - intros h bytes. by apply cacheGrows_from_store.
  - intros fuel' key'. rewrite /TrieGet /=.
    destruct (cacheBlind_Get db (rootHash t) fuel' key' (log t) lg) as [E _];
      [done|].
    destruct (Get db (rootHash t) fuel' key' (log t)),
             (Get db (rootHash t) fuel' key' lg). done.
Qed.

End ReceiverMore.

(** ** Writing the journal to the store (trie.go) *)

Section PersistStore.

Lemma foldl_puts (l : list (list byte * list byte)) : ∀ (db : store) h,
  NoDup l.*1 →
  foldl applyOp db ((λ kv, Put kv.1 kv.2) <$> l) !! h
  = match list_to_map (M:=gmap (list byte) (list byte)) l !! h with
    | Some v => Some v
    | None => db !! h
    end.
Proof.
  induction l as [|[k v] rest IH]; intros db h Hnd; [done|].
  apply NoDup_cons in Hnd as [Hk Hnd]. cbn [fmap list_fmap foldl applyOp].
  rewrite (IH _ _ Hnd). simpl.
  destruct (decide (k = h)) as [->|Hne].
  - rewrite lookup_insert_eq.
    rewrite (not_elem_of_list_to_map_1 _ _ Hk). by rewrite lookup_insert_eq.
  - rewrite !lookup_insert_ne //.
Qed.

Lemma foldl_dels (l : list (list byte * list byte)) : ∀ (db : store) h,
  foldl applyOp db ((λ kv, Del kv.1) <$> l) !! h
  = if decide (h ∈ l.*1) then None else db !! h.
Proof.
  induction l as [|[k v] rest IH]; intros db h; [done|].
  cbn [fmap list_fmap foldl applyOp]. rewrite IH. simpl.
  destruct (decide (k = h)) as [->|Hne].
  - rewrite lookup_delete_eq.
    destruct (decide (h ∈ h :: rest.*1)) as [_|Hn];
      [|exfalso; apply Hn; by left].
    by case_decide.
  - rewrite lookup_delete_ne //.
    destruct (decide (h ∈ rest.*1)) as [Hin|Hin],
             (decide (h ∈ k :: rest.*1)) as [Hin'|Hin']; try done.
    + exfalso. apply Hin'. by right.
    + apply elem_of_cons in Hin' as [?|?]; congruence.
Qed.

Lemma Persist_lookup (db : store) (t : Trie) (h : list byte) :
  Persist db t !! h =
  match deleted (log t) !! h with
  | Some _ => None
  | None =>
      match inserted (log t) !! h with
      | Some bytes => Some bytes
      | None => db !! h
      end
  end.
Proof.
  rewrite /Persist /CommitToBatch foldl_app foldl_dels.
  rewrite foldl_puts; [|apply NoDup_fst_map_to_list].
  rewrite list_to_map_to_list.
  case_decide as Hin.
  - apply list_elem_of_fmap in Hin as ([k v] & -> & Hkv).
    apply elem_of_map_to_list in Hkv. by rewrite Hkv.
  - destruct (deleted (log t) !! h) as [v|] eqn:E; [|done].
    exfalso. apply Hin. apply list_elem_of_fmap. exists (h, v).
    split; [done|]. by apply elem_of_map_to_list.
Qed.

(** What the store holds after [Persist]: nothing under a hash the journal
    marks deleted, the journal's bytes under a hash it holds inserted, and
    what was there before under any other hash. The order in which Go
    ranges over the two maps does not matter: each is written as a whole,
    [inserted] first. Writing the same journal again changes nothing. *)
Theorem Persist_store (db : store) (t : Trie) :
  (∀ h, Persist db t !! h =
        match deleted (log t) !! h with
        | Some _ => None
        | None =>
            match inserted (log t) !! h with
            | Some bytes => Some bytes
            | None => db !! h
            end
        end)
  ∧ Persist (Persist db t) t = Persist db t.
Proof.
  split; [apply Persist_lookup|].
  apply map_eq. intros h. rewrite !Persist_lookup.
  destruct (deleted (log t) !! h); [done|].
  by destruct (inserted (log t) !! h).
Qed.

End PersistStore.

(** ** Reading back from the store what was inserted (trie.go) *)

Section Reload.
Context `{Primitives} `{!CodecFields}.
Variable ins : list node.
Hypothesis Hsolid : ∀ n, n ∈ ins → solid n = true.

(** A hash the store holds bytes for, which decode, is resolved by a handle
    that has only read, from its cache or from the store. *)
Lemma resolveHash_stored db lg fuel h encoded d :
  readsOnly db lg → db !! h = Some encoded → encoded ≠ [] →
  decodeNode fuel encoded = Ok (Some d, None) →
  ∃ lg', readsOnly db lg'
         ∧ resolveHash db fuel h lg = (lg', Ok (Some d, None)).
Proof.
  intros (Hi & Hd & Hc) Hdb Hne Hdec. rewrite /resolveHash Hi Hd !lookup_empty.
  destruct (cached lg !! h) as [bytes|] eqn:E.
  - apply Hc in E. assert (bytes = encoded) as -> by congruence.
    exists lg. by rewrite Hdec.
  - rewrite /fetchFromDB Hdb.
    destruct (decide (length encoded = 0)) as [Hl|_];
      [by destruct encoded|].
    rewrite Hdec. eexists. split; [|done].
    split; [done|]. split; [done|]. intros h' b. simpl.
    intros [[<- <-]|[_ Hb]]%lookup_insert_Some; [done|by apply Hc].
Qed.

Lemma child_foundInStore child dc rest value :
  child ∈ ins → shaped child → (∃ e, Encode child = Ok e) → notHash child →
  foundInStore ins child rest value → ref child dc →
  ∃ f0 v', gocontent v' = gocontent value ∧
    ∀ db lg f, storesAll db ins → readsOnly db lg → f0 ≤ f →
      ∃ lg', readsOnly db lg' ∧ tryGet db f (Some dc) rest lg = (lg', Ok v').
Proof.
  intros Hin Hs [e He] Hn Hfound Hr.
  destruct Hr as [c ec _ Hec Hlen|c ec d _ Hec Hlen Hi|hash]; [| |done].
  - destruct (decode_Encode_solid c (Hsolid c Hin) Hs Hn ec Hec)
      as (f1 & d & Hi & Hdec).
    destruct (Hfound d Hi) as (f2 & v' & Hv & Hget).
    exists (S (f1 `max` f2)), v'. split; [done|].
    intros db lg [|f] Hstored Hlg Hf; [lia|].
    pose proof (Hstored c ec Hin Hn Hec Hlen) as Hdb.
    rewrite tryGet_unfold M_bind_unfold /= M_bind_unfold.
    rewrite (BytesToHash_id _ (Keccak256Hash_length ec)).
    assert (f1 ≤ f) as Hf1 by lia.
    destruct (resolveHash_stored db lg f _ ec d Hlg Hdb) as (lg1 & Hlg1 & ->);
      [intros ->; rewrite /HashLength /= in Hlen; lia|by apply Hdec|].
    apply Hget; [done|done|lia].
  - by apply Hfound.
Qed.

Lemma leads_foundInStore n key value :
  leads ins n key value → shaped n → (∃ e, Encode n = Ok e) →
  foundInStore ins n key value.
Proof.
  induction 1 as [key value value' Hv
                 |key child rest value Hin Hl IH
                 |children target value Hv
                 |children target p rest child value Hc Hin Hl IH];
    intros Hs [e He] d Hi.
  - inversion Hi as [? ? value'' Hv'| |]; subst.
    exists 1, value''. split; [congruence|].
    intros db lg [|f] _ Hlg Hf; [lia|]. exists lg. split; [done|].
    rewrite tryGet_unfold. by rewrite decide_True.
  - inversion Hi as [|? ? dc Hr|]; subst.
    destruct Hs as [Hk Hsc]. simpl in Hsc.
    cbn [Encode] in He.
    destruct (Encode child) as [ec| |] eqn:Hec; [|done..].
    destruct (child_foundInStore child dc rest value)
      as (f0 & v' & Hv & Hget);
      [done|done|by eauto|by eapply leads_notHash|by apply IH; eauto|done|].
    exists (S f0), v'. split; [done|].
    intros db lg [|f] Hstored Hlg Hf; [lia|]. rewrite tryGet_unfold.
    case_decide as Hlt; [rewrite length_app in Hlt; lia|].
    rewrite take_app_length drop_app_length.
    case_decide; [|done]. apply Hget; [done|done|lia].
  - inversion Hi as [| |? ds ? target' Hds Ht]; subst.
    exists 1, target'. split; [congruence|].
    intros db lg [|f] _ Hlg Hf; [lia|]. exists lg. split; [done|].
    by rewrite tryGet_unfold.
  - inversion Hi as [| |? ds ? target' Hds Ht]; subst.
    apply shaped_branch in Hs as [Hlen Hall].
    rewrite Encode_branch in He.
    destruct (encodeSlots children) as [raws| |] eqn:Hraws; [|done..].
    destruct (encodeSlots_lookup _ _ _ _ Hraws Hc) as [ec Hec].
    assert (shaped child) as Hsc.
    { rewrite Forall_lookup in Hall. by apply (Hall _ _ Hc). }
    destruct (Forall2_lookup_l _ _ _ _ _ Hds Hc) as (dslot & Hd & Hslot).
    inversion Hslot as [? dc Hr|]; subst.
    destruct (child_foundInStore child dc rest value)
      as (f0 & v' & Hv & Hget);
      [done|done|by eauto|by eapply leads_notHash|by apply IH; eauto|done|].
    exists (S f0), v'. split; [done|].
    intros db lg [|f] Hstored Hlg Hf; [lia|]. rewrite tryGet_unfold.
    rewrite M_bind_unfold /index Hd /=. apply Hget; [done|done|lia].
Qed.

End Reload.

(** Insert, write, reopen, read. When [T.Insert(k, v)] answers a trie [T'],
    and the journal of [T'] is written to a store by [Persist], [Get(k)] on
    a handle reopened by [NewTrie] on the root of [T'] answers [v], with any
    fuel from some amount on, whatever the store held before. Asked as for
    [Get] on [T'] itself: a codec that gives back what it marshalled and
    marshals to no bytes only a message of empty fields; among the nodes the
    insertion made no leaf of empty key and empty value, in them or below,
    and no collision; a root that is not [EmptyHash]. *)
Theorem Insert_Persist_Get `{Primitives} `{!CodecFields}
    (db : store) (fuel : nat) (t tAfter t' : Trie)
    (key : list byte) (value : gobytes) :
  TrieInsert db fuel t key value = (tAfter, Ok t') →
  (∀ lg r,
     insertAtRoot db (rootHash t) fuel (bytesToNibbles key) value (log t)
     = (lg, Ok r) →
     collisionFree (opInserted r) ∧ forallb solid (opInserted r) = true) →
  rootHash t' ≠ EmptyHash →
  ∃ fuel0 v',
    bytesEqual v' value = true ∧
    ∀ db0 fuel', fuel0 ≤ fuel' →
      (TrieGet (Persist db0 t') fuel' (NewTrie (StateRoot t')) key).2 = Ok v'.
Proof.
  rewrite /TrieInsert.
  destruct (Insert db (rootHash t) fuel key value (log t)) as [lgA rA] eqn:E.
  intros [= <- ->] Hfree Hne.
  rewrite /Insert in E. cbv zeta in E.
  apply M_bind_Ok in E as (r & lg1 & Hroot & E).
  apply M_bind_Ok in E as (h & lg2 & Hh & E).
  apply M_bind_Ok in E as (lg3 & lg4 & Hcur & E).
  apply M_bind_Ok in E as (newLog & lg5 & Hm & E).
  injection Hh as <- Hh. injection Hcur as <- <-. injection Hm as <- Hm.
  injection E as <- <-. rewrite /mergeFromInsertResult in Hm.
  simpl in Hne.
  destruct (Hfree lg1 r Hroot) as [Hfree' Hsol]. clear Hfree.
  rename Hfree' into Hfree.
  assert (∀ c, c ∈ opInserted r → solid c = true) as Hsolid.
  { intros c Hc. rewrite forallb_forall in Hsol. by apply Hsol, list_elem_of_In. }
  destruct (insertAtRoot_inserts db (rootHash t) fuel key value _ _ _ Hroot)
    as (n & Hn & Hs & Hin & Hl).
  rewrite Hn in Hh, Hm. simpl in Hh.
  pose proof (leads_notHash _ _ _ _ Hl) as Hnh.
  assert (∃ e, Encode n = Ok e) as [e He].
  { destruct n; try done; rewrite /Hash in Hh; outcome_inv; eauto. }
  destruct (notHash_Hash n e Hnh He) as [Hh' _].
  assert (h = Keccak256Hash e) as -> by congruence.
  destruct (merge_holds _ _ _ _ _ _ Hm Hfree) as [Hheld Hrootheld].
  destruct (Hrootheld Hin Hnh e He) as [Hi Hd].
  destruct (decode_Encode_solid n (Hsolid n Hin) Hs Hnh e He)
    as (f1 & d & Himg & Hdec).
  set (t' := {| rootHash := Keccak256Hash e; log := newLog |}).
  assert (∀ db0, storesAll (Persist db0 t') (opInserted r)) as Hstored.
  { intros db0 c ec Hc Hcn Hec Hlen. rewrite Persist_lookup /=.
    destruct (Hheld c ec Hc Hcn Hec Hlen) as [-> ->]. done. }
  destruct (leads_foundInStore (opInserted r) Hsolid n _ _ Hl Hs
              (ex_intro _ e He) d Himg) as (f2 & v' & Hv & Hget).
  exists (f1 `max` f2), v'. split; [by apply bool_decide_eq_true|].
  intros db0 fuel' Hf. rewrite /TrieGet /Get /StateRoot /=.
  assert (f1 ≤ fuel') as Hf1 by lia. assert (f2 ≤ fuel') as Hf2 by lia.
  destruct (decide _) as [E|_]; [done|].
  assert (readsOnly (Persist db0 t') newUpdateLog) as Hnew.
  { split; [done|]. split; [done|]. intros h b. by rewrite lookup_empty. }
  assert (Persist db0 t' !! Keccak256Hash e = Some e) as Hdb.
  { by rewrite Persist_lookup /= Hd Hi. }
  destruct (resolveHash_stored (Persist db0 t') newUpdateLog fuel' _ e d
              Hnew Hdb) as (lg1' & Hlg1 & Hres).
  { intros ->. by destruct n. }
  { by apply Hdec. }
  rewrite M_bind_unfold Hres /=.
  destruct (Hget (Persist db0 t') lg1' fuel' (Hstored db0) Hlg1 Hf2)
    as (lg2' & _ & ->).
  done.
Qed.

(** ** Reading after a deletion (trie.go) *)

Section FuelEnough.
Context `{Primitives}.
Variable db : store.

Lemma resolveHash_le fuel fuel' h lg lg' r :
  resolveHash db fuel h lg = (lg', Ok r) → fuel ≤ fuel' →
  resolveHash db fuel' h lg = (lg', Ok r).
Proof.
  intros Hr Hf. revert Hr. rewrite /resolveHash /fetchFromDB.
  destruct (deleted lg !! h); [done|].
  destruct (inserted lg !! h) as [bytes|].
  { intros [= <- Hd]. by rewrite (decodeNode_le _ _ _ _ Hf Hd). }
  destruct (cached lg !! h) as [bytes|].
  { intros [= <- Hd]. by rewrite (decodeNode_le _ _ _ _ Hf Hd). }
  destruct (db !! h) as [encoded|]; [|done].
  case_decide; [done|].
  destruct (decodeNode fuel encoded) as [[n [e|]]| |] eqn:Hd; try done.
  by rewrite (decodeNode_le _ _ _ _ Hf Hd).
Qed.

Lemma tryGet_le fuel : ∀ fuel' startNode searchKey lg lg' v,
  tryGet db fuel startNode searchKey lg = (lg', Ok v) → fuel ≤ fuel' →
  tryGet db fuel' startNode searchKey lg = (lg', Ok v).
Proof.
  induction fuel as [|fuel IH]; intros fuel' startNode searchKey lg lg' v;
    [done|].
  intros Hg Hf. destruct fuel' as [|fuel']; [lia|].
  assert (fuel ≤ fuel') as Hf' by lia.
  rewrite tryGet_unfold in Hg. rewrite tryGet_unfold.
  destruct startNode as [[key value|key child|children target|hash]|];
    [done| | | |done].
  - repeat case_decide; try done. by apply IH.
  - destruct searchKey as [|p rest]; [done|].
    apply M_bind_Ok in Hg as (child & lg1 & Hc & Hg).
    rewrite M_bind_unfold Hc. by apply IH.
  - apply M_bind_Ok in Hg as (h & lg1 & Hh & Hg).
    apply M_bind_Ok in Hg as ([resolved err] & lg2 & Hr & Hg).
    rewrite M_bind_unfold Hh M_bind_unfold.
    rewrite (resolveHash_le _ _ _ _ _ _ Hr Hf').
    destruct err; [done|]. by apply IH.
Qed.

End FuelEnough.
Section Unchanged.
Context `{Primitives}.
Variable db : store.

Lemma matchingLength_prefix key rest :
  matchingLength key (key ++ rest) = length key.
Proof.
  induction key as [|x key IH]; [by destruct rest|].
  simpl. by rewrite decide_True // IH.
Qed.

Lemma matchingLength_is_prefix key searchKey :
  matchingLength key searchKey = length key →
  searchKey = key ++ drop (length key) searchKey.
Proof.
  intros Hm. pose proof (matchingLength_take key searchKey) as Ht.
  rewrite Hm firstn_all in Ht. by rewrite {1}Ht take_drop.
Qed.

(** A deletion that reports no change went where [tryGet] goes, read what
    [tryGet] reads, and [tryGet] finds no value there. *)
Lemma delete_unchanged fuel : ∀ startNode searchKey lg lg' r,
  delete db fuel startNode searchKey lg = (lg', Ok r) →
  hasChanged r = false →
  ∃ v, gocontent v = []
       ∧ tryGet db (S fuel) startNode searchKey lg = (lg', Ok v).
Proof.
  induction fuel as [|fuel IH]; intros startNode searchKey lg lg' r; [done|].
  rewrite delete_unfold (tryGet_unfold db (S fuel)).
  destruct startNode as [[key value|key child|children target|hash]|];
    [| | | |done].
  - rewrite /deleteFromLeaf. case_decide; intros [= <- <-]; [done|].
    intros _. by exists None.
  - rewrite /deleteFromExt. cbv zeta. case_decide as Hml.
    + intros [= <- <-] _. exists None. split; [done|].
      case_decide; [done|]. case_decide as Ht; [|done].
      exfalso. apply Hml. rewrite -{1}(take_drop (length key) searchKey) Ht.
      apply matchingLength_prefix.
    + intros Hd.
      apply M_bind_Ok in Hd as (result & lg1 & Hr & Hd).
      revert Hd. destruct (hasChanged result) eqn:Hch; simpl; intros Hd.
      * apply M_bind_Ok in Hd as (fixed & lg2 & _ & [= _ <-]). done.
      * injection Hd as <- <-. intros _.
        destruct (IH _ _ _ _ _ Hr Hch) as (v & Hv & Hg).
        exists v. split; [done|].
        pose proof (matchingLength_is_prefix key searchKey Hml) as Hs.
        case_decide as Hlt; [rewrite Hs length_app in Hlt; lia|].
        case_decide as Ht.
        -- by rewrite -Hml.
        -- exfalso. apply Ht. by rewrite Hs take_app_length.
  - rewrite /deleteFromBranch. destruct searchKey as [|p rest].
    + destruct target as [tv|]; simpl.
      * intros Hd. apply M_bind_Ok in Hd as (fixed & lg2 & _ & [= _ <-]).
        done.
      * intros [= <- <-] _. by exists None.
    + intros Hd. apply M_bind_Ok in Hd as (child & lg1 & Hc & Hd).
      injection Hc as <- Hc. rewrite /index in Hc.
      destruct (children !! Byte.to_nat p) as [slot|] eqn:Hslot; [|done].
      injection Hc as ->.
      rewrite M_bind_unfold /pure /index Hslot.
      destruct child as [c|].
      * apply M_bind_Ok in Hd as (result & lg2 & Hr & Hd).
        revert Hd. destruct (hasChanged result) eqn:Hch; simpl; intros Hd.
        -- apply M_bind_Ok in Hd as (tb & lg3 & _ & Hd).
           apply M_bind_Ok in Hd as (fixed & lg4 & _ & [= _ <-]). done.
        -- injection Hd as <- <-. intros _. by eapply IH.
      * injection Hd as <- <-. intros _. exists None. split; [done|].
        by rewrite tryGet_unfold.
  - intros Hd. apply M_bind_Ok in Hd as (h & lg1 & Hh & Hd).
    apply M_bind_Ok in Hd as ([resolved err] & lg2 & Hr & Hd).
    rewrite M_bind_unfold Hh M_bind_unfold.
    injection Hh as <- Hh.
    rewrite (resolveHash_le db fuel (S fuel) _ _ _ _ Hr (Nat.le_succ_diag_r _)).
    destruct err; [done|]. intros Hch.
    destruct (IH _ _ _ _ _ Hd Hch) as (v & Hv & Hg).
    exists v. split; [done|]. apply (tryGet_le db (S fuel)); [done|lia].
Qed.

End Unchanged.

Section Fix.
Context `{Primitives}.
Variable db : store.

Lemma misses_more ins ins' n key :
  misses ins n key → ins ⊆ ins' → misses ins' n key.
Proof.
  induction 1; intros Hsub;
    eauto using misses_leaf, misses_ext_short, misses_ext_other,
      misses_ext_nil, misses_ext_child, misses_target, misses_slot_nil,
      misses_slot.
Qed.

Lemma childrenIndexFrom_spec children : ∀ k i,
  i ∈ childrenIndexFrom k children
  ↔ k ≤ i ∧ ∃ c, children !! (i - k) = Some (Some c).
Proof.
  induction children as [|[c|] rest IH]; intros k i; cbn [childrenIndexFrom].
  - split; [by intros ?%elem_of_nil|]. by intros (_ & c & ?).
  - rewrite elem_of_cons IH. split.
    + intros [->|(Hk & c' & Hc)].
      * split; [lia|]. exists c. by rewrite Nat.sub_diag.
      * split; [lia|]. exists c'.
        replace (i - k) with (S (i - S k)) by lia. done.
    + intros (Hk & c' & Hc). destruct (decide (i = k)) as [|Hne]; [by left|].
      right. split; [lia|]. exists c'.
      replace (i - k) with (S (i - S k)) in Hc by lia. done.
  - rewrite IH. split.
    + intros (Hk & c' & Hc). split; [lia|]. exists c'.
      replace (i - k) with (S (i - S k)) by lia. done.
    + intros (Hk & c' & Hc). destruct (decide (i = k)) as [->|Hne].
      { by rewrite Nat.sub_diag in Hc. }
      split; [lia|]. exists c'.
      replace (i - k) with (S (i - S k)) in Hc by lia. done.
Qed.

Lemma childrenIndex_spec children i :
  i ∈ childrenIndex children ↔ ∃ c, children !! i = Some (Some c).
Proof.
  rewrite /childrenIndex childrenIndexFrom_spec Nat.sub_0_r.
  split; [by intros [_ ?]|]. intros ?. split; [lia|done].
Qed.

Lemma getNodeFrom_elem nodes h n :
  getNodeFrom nodes h = Ok (Some n) → n ∈ nodes.
Proof.
  induction nodes as [|m rest IH]; cbn [getNodeFrom]; [done|].
  intros Hg. outcome_inv. case_decide.
  - injection Hg as ->. by left.
  - right. by apply IH.
Qed.

Lemma tryFixExt_cases fuel key extChild updates lg lg' r :
  tryFixExt db fuel key extChild updates lg = (lg', Ok r) →
  ∃ x, r = Some x ∧
    ((∃ k' c', x = extNode (key ++ k') c'
               ∧ standsFor db updates extChild (extNode k' c'))
     ∨ (∃ k' v', x = leafNode (key ++ k') v'
                 ∧ standsFor db updates extChild (leafNode k' v'))
     ∨ x = extNode key extChild).
Proof.
  rewrite /tryFixExt. cbv zeta. intros Hf.
  apply M_bind_Ok in Hf as (child & lg1 & Hc & Hf).
  assert (∀ m, child = Some m → standsFor db updates extChild m) as Hst.
  { intros m ->. destruct extChild as [[| | |hash]|];
      try (injection Hc as <- <-; by left); [|done].
    right. exists hash. split; [done|].
    apply M_bind_Ok in Hc as (h & lg2 & Hh & Hc).
    apply M_bind_Ok in Hc as (found & lg3 & Hg & Hc).
    injection Hg as <- Hg. destruct found as [m'|].
    - injection Hc as <- ->. left. by eapply getNodeFrom_elem.
    - apply M_bind_Ok in Hc as ([resolved err] & lg4 & Hr & Hc).
      destruct err; [done|]. injection Hc as <- ->. right. eauto 10. }
  destruct child as [[k' v'|k' c'|cs t|hash]|]; injection Hf as <- <-;
    eexists; (split; [done|]); eauto 10.
Qed.

Lemma standsFor_shaped updates extChild m :
  onNode shaped extChild → Forall shaped updates →
  standsFor db updates extChild m → shaped m.
Proof.
  intros Hc Hu [->|(hash & -> & [Hin|(fuel & h & lg & lg' & err & Hr)])].
  - done.
  - rewrite Forall_forall in Hu. by apply Hu.
  - by apply (resolveHash_shaped db fuel h lg lg' _ Hr).
Qed.

Lemma tryFixExt_shaped fuel key extChild updates lg lg' x :
  tryFixExt db fuel key extChild updates lg = (lg', Ok (Some x)) →
  Forall is_nibble key → onNode shaped extChild → Forall shaped updates →
  shaped x ∧ notHash x.
Proof.
  intros Hf Hk Hc Hu.
  destruct (tryFixExt_cases _ _ _ _ _ _ _ Hf)
    as (x' & [= <-] & [(k' & c' & -> & Hst)|[(k' & v' & -> & Hst)| ->]]).
  - apply (standsFor_shaped _ _ _ Hc Hu) in Hst as [Hk' Hc'].
    split; [|done]. split; [|done]. by apply Forall_app.
  - apply (standsFor_shaped _ _ _ Hc Hu) in Hst. simpl in Hst.
    split; [|done]. simpl. by apply Forall_app.
  - done.
Qed.

End Fix.

Section Removes.
Context `{Primitives}.
Variable db : store.

Lemma slot_byte idx :
  idx < 256 → Byte.to_nat (byte_of_N (N.of_nat idx mod 256)) = idx.
Proof.
  intros Hi. assert (N.of_nat idx < 256)%N as Hn by lia.
  rewrite Byte.to_nat_via_N (N.mod_small _ _ Hn) (byte_of_N_to_N _ Hn).
  lia.
Qed.

Lemma slot_byte_same p :
  byte_of_N (N.of_nat (Byte.to_nat p) mod 256) = p.
Proof.
  rewrite Byte.to_nat_via_N N2Nat.id.
  rewrite (N.mod_small _ _ (to_N_lt_256 p)).
  by rewrite /byte_of_N Byte.of_to_N.
Qed.

Lemma tryFixExt_on_path fuel key n updates lg lg' x rest :
  tryFixExt db fuel key (Some n) updates lg = (lg', Ok (Some x)) →
  notHash n → n ∈ updates → misses updates n rest →
  misses updates x (key ++ rest).
Proof.
  intros Hf Hn Hin Hm.
  assert (∀ m, standsFor db updates (Some n) m → m = n) as Hsame.
  { intros m [[= ->]|(hash & [= ->] & _)]; done. }
  destruct (tryFixExt_cases _ _ _ _ _ _ _ _ Hf)
    as (x' & [= <-] & [(k' & c' & -> & Hst)|[(k' & v' & -> & Hst)| ->]]).
  - apply Hsame in Hst. subst n.
    inversion Hm as [|? ? ? Hlt|? ? ? Hne|? rest'|? child rest' Hc Hm'| | |];
      subst.
    + apply misses_ext_short. rewrite !length_app. lia.
    + apply misses_ext_other. rewrite length_app take_app_add.
      intros E. by apply app_inv_head in E.
    + rewrite app_assoc. apply misses_ext_nil.
    + rewrite app_assoc. by apply misses_ext_child.
  - apply Hsame in Hst. subst n.
    inversion Hm as [? ? ? Hne| | | | | | |]; subst.
    apply misses_leaf. intros E. by apply app_inv_head in E.
  - by apply misses_ext_child.
Qed.

Lemma tryFixExt_starts fuel q key extChild updates lg lg' x :
  tryFixExt db fuel (q :: key) extChild updates lg = (lg', Ok (Some x)) →
  keyStarts q x.
Proof.
  intros Hf.
  by destruct (tryFixExt_cases _ _ _ _ _ _ _ _ Hf)
    as (x' & [= <-] & [(k' & c' & -> & _)|[(k' & v' & -> & _)| ->]]).
Qed.

Lemma keyStarts_misses ins q x searchKey :
  keyStarts q x → (∀ rest, searchKey ≠ q :: rest) → misses ins x searchKey.
Proof.
  destruct x as [[|q' k] v|[|q' k] c| |]; try done; simpl; intros -> Hne.
  - apply misses_leaf. apply Hne.
  - destruct searchKey as [|p rest].
    + apply misses_ext_short. simpl. lia.
    + apply misses_ext_other. simpl. intros [= -> _]. by eapply Hne.
Qed.

Lemma tryFixBranch_cases fuel children target updates lg lg' r :
  tryFixBranch db fuel children target updates lg = (lg', Ok r) →
  ∃ x, r = Some x ∧
    ((x = leafNode [] target ∧ hasTarget target = true)
     ∨ (∃ idx c, (∀ j c', children !! j = Some (Some c') → j = idx)
                 ∧ children !! idx = Some (Some c)
                 ∧ tryFixExt db fuel [byte_of_N (N.of_nat idx mod 256)]
                     (Some c) updates lg = (lg', Ok (Some x)))
     ∨ x = branchNode children target).
Proof.
  rewrite /tryFixBranch. cbv zeta.
  case_decide as H0; [intros [= <- <-]; eexists; split; [done|]; left; tauto|].
  case_decide as H1.
  - destruct H1 as [Hlen Ht].
    destruct (childrenIndex children) as [|idx [|]] eqn:Hidx; try done.
    intros Hf. apply M_bind_Ok in Hf as (idx' & lg1 & [= <- <-] & Hf).
    apply M_bind_Ok in Hf as (child & lg2 & Hc & Hf).
    injection Hc as <- Hc.
    assert (idx ∈ childrenIndex children) as Hin by (rewrite Hidx; by left).
    apply childrenIndex_spec in Hin as [c Hlook].
    rewrite /index Hlook in Hc. injection Hc as <-.
    destruct (tryFixExt_cases _ _ _ _ _ _ _ _ Hf) as (x & -> & _).
    exists x. split; [done|]. right. left. exists idx, c.
    split; [|done]. intros j c' Hj.
    assert (j ∈ childrenIndex children) as Hjin
      by (apply childrenIndex_spec; eauto).
    rewrite Hidx in Hjin. by apply list_elem_of_singleton in Hjin.
  - case_decide; [done|]. intros [= <- <-]. eexists. split; [done|]. tauto.
Qed.

Lemma deleteFromLeaf_removes key leafValue searchKey :
  ensures (deleteFromLeaf key leafValue searchKey) (removes searchKey).
Proof.
  intros lg lg' r. rewrite /deleteFromLeaf. cbv zeta.
  case_decide; intros [= _ <-]; [|done]. intros _. simpl. split; [|done].
  constructor.
Qed.

Lemma removes_fixed searchKey (op : operationResult) x old :
  Forall shaped (opInserted op) → shaped x → notHash x →
  misses (opInserted op) x searchKey →
  removes searchKey
    (mkDeleteResult
       (Res.delete (Res.insert (Res.setNewNode op (Some x)) (Some x)) old)
       true).
Proof.
  intros Hu Hs Hn Hm _.
  assert (opInserted
            (Res.delete (Res.insert (Res.setNewNode op (Some x)) (Some x))
               old) = opInserted op ++ [x]) as Hins by (by destruct old).
  assert (newNode
            (Res.delete (Res.insert (Res.setNewNode op (Some x)) (Some x))
               old) = Some x) as Hnew by (by destruct old).
  cbn [operation]. rewrite Hins Hnew. split.
  - apply Forall_app. split; [done|]. by constructor.
  - split; [done|]. split.
    + apply elem_of_app. right. by left.
    + eapply misses_more; [done|]. by apply sublist_subseteq, sublist_inserts_r.
Qed.

Lemma deleteFromExt_removes rec fuel key child searchKey :
  removesWell rec → shaped (extNode key child) →
  ensures (deleteFromExt db rec fuel key child searchKey)
          (removes searchKey).
Proof.
  intros Hrec [Hk Hc] lg lg' r. rewrite /deleteFromExt. cbv zeta.
  case_decide as Hml; [by intros [= _ <-]|].
  intros Hd. apply M_bind_Ok in Hd as (result & lg1 & Hr & Hd).
  pose proof (Hrec _ _ Hc _ _ _ Hr) as Hres.
  revert Hd. destruct (hasChanged result) eqn:Hch; simpl; intros Hd;
    [|injection Hd as <- <-; by rewrite /removes Hch].
  destruct (Hres Hch) as [Hu Hnew].
  apply M_bind_Ok in Hd as (fixed & lg2 & Hf & [= _ <-]).
  rewrite /newExtNode in Hf. cbn [tryFix] in Hf.
  destruct (tryFixExt_cases _ _ _ _ _ _ _ _ Hf) as (x & -> & _).
  pose proof (matchingLength_is_prefix key searchKey Hml) as Hs.
  destruct (newNode (operation result)) as [n|] eqn:Hn.
  - destruct Hnew as (Hnh & Hin & Hm).
    assert (shaped n) as Hsn by (rewrite Forall_forall in Hu; by apply Hu).
    destruct (tryFixExt_shaped _ _ _ _ _ _ _ _ Hf Hk Hsn Hu) as [Hsx Hnx].
    refine (removes_fixed searchKey (operation result) x
              (Some (extNode key child)) Hu Hsx Hnx _).
    rewrite Hs. eapply tryFixExt_on_path; eauto. by rewrite -Hml.
  - destruct (tryFixExt_shaped _ _ _ _ _ _ _ _ Hf Hk I Hu) as [Hsx Hnx].
    refine (removes_fixed searchKey (operation result) x
              (Some (extNode key child)) Hu Hsx Hnx _).
    rewrite /tryFixExt /= in Hf. injection Hf as _ <-.
    rewrite Hs. apply misses_ext_nil.
Qed.

Lemma tryFixBranch_shaped fuel children target updates lg lg' x :
  tryFixBranch db fuel children target updates lg = (lg', Ok (Some x)) →
  shaped (branchNode children target) → Forall shaped updates →
  shaped x ∧ notHash x.
Proof.
  intros Hf Hb Hu.
  destruct (tryFixBranch_cases _ _ _ _ _ _ _ Hf)
    as (x' & [= <-] & [[-> _]|[(idx & c & _ & Hc & Hfx)| ->]]).
  - split; [|done]. constructor.
  - apply shaped_branch in Hb as [Hlen Hall].
    assert (idx < 16) as Hidx.
    { rewrite -Hlen. eapply lookup_lt_Some. exact Hc. }
    eapply tryFixExt_shaped; [exact Hfx| | |done].
    + constructor; [|constructor]. rewrite /is_nibble.
      assert (N.of_nat idx < 256)%N as Hn by lia.
      rewrite (N.mod_small _ _ Hn) (byte_of_N_to_N _ Hn). lia.
    + rewrite Forall_lookup in Hall. apply (Hall _ _ Hc).
  - done.
Qed.

Lemma deleteFromBranch_removes rec fuel children target searchKey :
  removesWell rec → shaped (branchNode children target) →
  ensures (deleteFromBranch db rec fuel children target searchKey)
          (removes searchKey).
Proof.
  intros Hrec Hb lg lg' r. rewrite /deleteFromBranch. cbv zeta.
  destruct searchKey as [|p rest].
  - destruct (hasTarget target) eqn:Ht; [|by intros [= _ <-]].
    intros Hd. apply M_bind_Ok in Hd as (fixed & lg1 & Hf & [= _ <-]).
    rewrite /branchWithChildren in Hf. cbn [tryFix] in Hf.
    destruct (tryFixBranch_cases _ _ _ _ _ _ _ Hf) as (x & -> & Hcases).
    destruct (tryFixBranch_shaped _ _ _ _ _ _ _ Hf) as [Hsx Hnx];
      [done|constructor|].
    intros _. simpl. split; [by repeat constructor|].
    split; [done|]. split; [by left|].
    destruct Hcases as [[_ Hn]|[(idx & c & _ & _ & Hfx)| ->]]; [done| |].
    + eapply keyStarts_misses; [by eapply tryFixExt_starts|done].
    + by apply misses_target.
  - intros Hd. apply M_bind_Ok in Hd as (child & lg1 & Hc & Hd).
    injection Hc as <- Hc. rewrite /index in Hc.
    destruct (children !! Byte.to_nat p) as [slot|] eqn:Hslot; [|done].
    injection Hc as ->.
    destruct child as [c|]; [|by injection Hd as _ <-].
    apply M_bind_Ok in Hd as (result & lg2 & Hr & Hd).
    pose proof Hb as [Hlen Hall]%shaped_branch.
    assert (shaped c) as Hsc.
    { rewrite Forall_lookup in Hall. apply (Hall _ _ Hslot). }
    pose proof (Hrec (Some c) rest Hsc _ _ _ Hr) as Hres.
    revert Hd. destruct (hasChanged result) eqn:Hch; simpl; intros Hd;
      [|injection Hd as <- <-; by rewrite /removes Hch].
    destruct (Hres Hch) as [Hu Hnew].
    apply M_bind_Ok in Hd as (tempBranch & lg3 & Htb & Hd).
    apply M_bind_Ok in Hd as (fixed & lg4 & Hf & [= _ <-]).
    injection Htb as <- Htb. rewrite /updateChild /setChild in Htb.
    case_decide as Hpos; [|done]. injection Htb as <-.
    cbn [tryFix] in Hf.
    set (children' := <[Byte.to_nat p:=newNode (operation result)]> children)
      in *.
    assert (children' !! Byte.to_nat p = Some (newNode (operation result)))
      as Hp by (by apply list_lookup_insert_eq).
    assert (onNode shaped (newNode (operation result))) as Hsn.
    { destruct (newNode (operation result)) as [n|]; [|done].
      destruct Hnew as (_ & Hin & _). rewrite Forall_forall in Hu.
      by apply Hu. }
    assert (shaped (branchNode children' target)) as Hb'
      by (by apply shaped_insert).
    destruct (tryFixBranch_cases _ _ _ _ _ _ _ Hf) as (x & -> & Hcases).
    destruct (tryFixBranch_shaped _ _ _ _ _ _ _ Hf Hb' Hu) as [Hsx Hnx].
    refine (removes_fixed (p :: rest) (operation result) x
              (Some (branchNode children target)) Hu Hsx Hnx _).
    destruct Hcases as [[-> _]|[(idx & c' & Honly & Hc' & Hfx)| ->]].
    + by apply misses_leaf.
    + destruct (decide (idx = Byte.to_nat p)) as [->|Hne].
      * rewrite Hp in Hc'. injection Hc' as Hn. rewrite Hn in Hnew.
        destruct Hnew as (Hnh & Hin & Hm).
        rewrite slot_byte_same in Hfx.
        by apply (tryFixExt_on_path _ _ _ _ _ _ _ _ Hfx).
      * eapply keyStarts_misses; [by eapply tryFixExt_starts|].
        intros rest' [= -> _]. apply Hne.
        assert (idx < 16) as Hidx.
        { apply lookup_lt_Some in Hc'.
          by rewrite /children' length_insert Hlen in Hc'. }
        rewrite slot_byte; lia.
    + destruct (newNode (operation result)) as [n|] eqn:Hn.
      * destruct Hnew as (Hnh & Hin & Hm). by eapply misses_slot.
      * by apply misses_slot_nil.
Qed.

Lemma delete_removes fuel : removesWell (delete db fuel).
Proof.
  induction fuel as [|fuel IH]; intros startNode searchKey Hs;
    [by intros lg lg' r|].
  rewrite delete_unfold.
  destruct startNode as [[key value|key child|children target|hash]|].
  - apply deleteFromLeaf_removes.
  - by apply deleteFromExt_removes.
  - by apply deleteFromBranch_removes.
  - eapply ensures_bind; [apply ensures_True|]. intros h _.
    eapply ensures_bind; [apply resolveHash_shaped|].
    intros [resolved [err|]] Hr; [by intros lg lg' r|]. by apply IH.
  - by intros lg lg' r.
Qed.

End Removes.

Section FollowMiss.
Context `{Primitives} `{!CodecFields}.
Variable lg : updateLog.
Variable ins : list node.
Hypothesis Hheld : holdsAll lg ins.
Hypothesis Hsolid : ∀ n, n ∈ ins → solid n = true.

Lemma misses_notHash n key : misses ins n key → notHash n.
Proof. by destruct 1. Qed.

(** The search of a key that leads to no value in a node ends without one
    from the decoded form of the node too, whatever the store. *)
Lemma misses_found n key :
  misses ins n key → shaped n → (∃ e, Encode n = Ok e) →
  found lg n key None.
Proof.
  induction 1 as [key value searchKey Hne
                 |key child searchKey Hlt
                 |key child searchKey Hne
                 |key rest
                 |key child rest Hin Hm IH
                 |children target Ht
                 |children target p rest Hc
                 |children target p rest child Hc Hin Hm IH];
    intros Hs [e He] d Hi.
  - inversion Hi; subst. exists 1, None. split; [done|].
    intros db [|f] Hf; [lia|]. rewrite tryGet_unfold. by rewrite decide_False.
  - inversion Hi; subst. exists 1, None. split; [done|].
    intros db [|f] Hf; [lia|]. rewrite tryGet_unfold. by rewrite decide_True.
  - inversion Hi; subst. exists 1, None. split; [done|].
    intros db [|f] Hf; [lia|]. rewrite tryGet_unfold.
    case_decide; [done|]. by rewrite decide_False.
  - inversion Hi.
  - inversion Hi as [|? ? dc Hr|]; subst.
    destruct Hs as [Hk Hsc]. simpl in Hsc.
    cbn [Encode] in He.
    destruct (Encode child) as [ec| |] eqn:Hec; [|done..].
    destruct (child_found lg ins Hheld Hsolid child dc rest None)
      as (f0 & v' & Hv & Hget);
      [done|done|by eauto|by eapply misses_notHash|by apply IH; eauto|done|].
    exists (S f0), v'. split; [done|].
    intros db [|f] Hf; [lia|]. rewrite tryGet_unfold.
    case_decide as Hlt; [rewrite length_app in Hlt; lia|].
    rewrite take_app_length drop_app_length.
    case_decide; [|done]. apply Hget. lia.
  - inversion Hi as [| |? ds ? target' Hds Ht']; subst.
    exists 1, target'. split; [by rewrite Ht'|].
    intros db [|f] Hf; [lia|]. by rewrite tryGet_unfold.
  - inversion Hi as [| |? ds ? target' Hds Ht']; subst.
    destruct (Forall2_lookup_l _ _ _ _ _ Hds Hc) as (dslot & Hd & Hslot).
    inversion Hslot; subst.
    exists 2, None. split; [done|].
    intros db [|[|f]] Hf; [lia..|]. rewrite tryGet_unfold.
    rewrite M_bind_unfold /index Hd /=. by rewrite tryGet_unfold.
  - inversion Hi as [| |? ds ? target' Hds Ht']; subst.
    apply shaped_branch in Hs as [Hlen Hall].
    rewrite Encode_branch in He.
    destruct (encodeSlots children) as [raws| |] eqn:Hraws; [|done..].
    destruct (encodeSlots_lookup _ _ _ _ Hraws Hc) as [ec Hec].
    assert (shaped child) as Hsc.
    { rewrite Forall_lookup in Hall. by apply (Hall _ _ Hc). }
    destruct (Forall2_lookup_l _ _ _ _ _ Hds Hc) as (dslot & Hd & Hslot).
    inversion Hslot as [? dc Hr|]; subst.
    destruct (child_found lg ins Hheld Hsolid child dc rest None)
      as (f0 & v' & Hv & Hget);
      [done|done|by eauto|by eapply misses_notHash|by apply IH; eauto|done|].
    exists (S f0), v'. split; [done|].
    intros db [|f] Hf; [lia|]. rewrite tryGet_unfold.
    rewrite M_bind_unfold /index Hd /=. apply Hget. lia.
Qed.

End FollowMiss.

(** Delete, then read. When [T.Delete(k)] answers a trie, [Get(k)] on that
    trie answers no bytes (nil, or an empty value), on the same store and
    with any fuel from some amount on: when the deletion changed nothing,
    because the search of [k] ends where the deletion ended; when it did,
    because [k] leads to no value in the nodes the deletion made, which the
    journal of the new trie holds. Asked of the codec: to give back what it
    marshalled, and to marshal to no bytes only a message of empty fields.
    Asked of the nodes this deletion made: that none holds, in itself or
    below, a leaf of empty key and empty value, and that they do not collide
    under the digest. *)
Theorem Delete_then_Get `{Primitives} `{!CodecFields}
    (db : store) (fuel : nat) (t tAfter t' : Trie) (key : list byte) :
  TrieDelete db fuel t key = (tAfter, Ok t') →
  (∀ rootNode lg1 lg2 r,
     resolveHash db fuel (rootHash t) (log t) = (lg1, Ok (rootNode, None)) →
     delete db fuel rootNode (bytesToNibbles key) lg1 = (lg2, Ok r) →
     collisionFree (opInserted (operation r))
     ∧ forallb solid (opInserted (operation r)) = true) →
  ∃ fuel0 v',
    bytesEqual v' None = true ∧
    ∀ fuel', fuel0 ≤ fuel' → (TrieGet db fuel' t' key).2 = Ok v'.
Proof.
  rewrite /TrieDelete.
  destruct (Delete db (rootHash t) fuel key (log t)) as [lgA rA] eqn:E.
  intros [= <- ->] Hfree. rewrite /Delete in E.
  case_decide as Hroot.
  { injection E as <- <-. exists 0, None. split; [done|].
    intros fuel' _. rewrite /TrieGet /Get /=. by rewrite decide_True. }
  cbv zeta in E.
  apply M_bind_Ok in E as ([rootNode err] & lg1 & Hres & E).
  destruct err as [err|]; [done|].
  apply M_bind_Ok in E as (r & lg2 & Hdel & E).
  destruct (Hfree rootNode lg1 lg2 r Hres Hdel) as [Hfree' Hsol].
  clear Hfree. rename Hfree' into Hfree.
  assert (∀ c, c ∈ opInserted (operation r) → solid c = true) as Hsolid.
  { intros c Hc. rewrite forallb_forall in Hsol. by apply Hsol, list_elem_of_In. }
  pose proof (resolveHash_shaped db fuel _ _ _ _ Hres) as Hshaped.
  simpl in Hshaped.
  pose proof (delete_removes db fuel rootNode _ Hshaped _ _ _ Hdel) as Hrem.
  revert E. destruct (hasChanged r) eqn:Hch; simpl; intros E.
  - destruct (Hrem Hch) as [Hu Hnew].
    apply M_bind_Ok in E as (newRootHash & lg3 & Hh & E).
    apply M_bind_Ok in E as (lg4 & lg5 & Hcur & E).
    apply M_bind_Ok in E as (newLog & lg6 & Hm & E).
    injection Hcur as <- <-. injection Hm as <- Hm. injection E as <- <-.
    rewrite /mergeFromDeleteResult in Hm.
    destruct (decide (newRootHash = EmptyHash)) as [->|Hne].
    { exists 0, None. split; [done|].
      intros fuel' _. rewrite /TrieGet /Get /=. by rewrite decide_True. }
    destruct (newNode (operation r)) as [n|] eqn:Hn;
      [|by injection Hh as _ <-].
    destruct Hnew as (Hnh & Hin & Hmiss).
    injection Hh as <- Hh.
    assert (shaped n) as Hs by (rewrite Forall_forall in Hu; by apply Hu).
    assert (∃ e, Encode n = Ok e) as [e He].
    { destruct n; try done; rewrite /Hash in Hh; outcome_inv; eauto. }
    destruct (notHash_Hash n e Hnh He) as [Hh' _].
    assert (newRootHash = Keccak256Hash e) as -> by congruence.
    destruct (merge_holds _ _ _ _ _ _ Hm Hfree) as [Hheld Hrootheld].
    destruct (Hrootheld Hin Hnh e He) as [Hi Hd].
    destruct (decode_Encode_solid n (Hsolid n Hin) Hs Hnh e He)
      as (f1 & d & Himg & Hdec).
    destruct (misses_found newLog (opInserted (operation r)) Hheld Hsolid
                n _ Hmiss
                Hs (ex_intro _ e He) d Himg) as (f2 & v' & Hv & Hget).
    exists (f1 `max` f2), v'. split; [by apply bool_decide_eq_true|].
    intros fuel' Hf. rewrite /TrieGet /Get /=.
    assert (f1 ≤ fuel') as Hf1 by lia. assert (f2 ≤ fuel') as Hf2 by lia.
    rewrite decide_False //.
    rewrite M_bind_unfold /resolveHash Hd Hi (Hdec fuel' Hf1) /=.
    by rewrite (Hget db fuel' Hf2).
  - injection E as <- <-.
    destruct (delete_unchanged db fuel _ _ _ _ _ Hdel Hch) as (v & Hv & Hget).
    exists (S fuel), v. split; [by apply bool_decide_eq_true|].
    intros fuel' Hf. rewrite /TrieGet /=.
    assert (cacheGrows db (log t) lg2) as Hgrow.
    { eapply cacheGrows_trans.
      - pose proof (cachesOnly_resolveHash db fuel (rootHash t) (log t)) as Hg.
        by rewrite Hres in Hg.
      - pose proof (cachesOnly_delete db fuel rootNode (bytesToNibbles key)
                      lg1) as Hg.
        by rewrite Hdel in Hg. }
    destruct (cacheBlind_Get db (rootHash t) fuel' key (log t) lg2 Hgrow)
      as [Heq _].
    destruct (Get db (rootHash t) fuel' key lg2) as [lgB rB].
    simpl in *. rewrite -Heq /Get decide_False //.
    rewrite M_bind_unfold.
    assert (fuel ≤ fuel') as Hf0 by lia.
    rewrite (resolveHash_le db _ _ _ _ _ _ Hres Hf0).
    by rewrite (tryGet_le db _ _ _ _ _ _ _ Hget Hf).
Qed.

(** ** The error of a decoded branch (node.go) *)

Section BranchError.
Context `{Primitives}.

Lemma decodeChildren_app (rec : list byte → outcome decoded) pre : ∀ rest i children err,
  decodeChildren rec i (pre ++ rest) children err
  = '(cs, e) ← decodeChildren rec i pre children err;
    decodeChildren rec (i + length pre) rest cs e.
Proof.
  induction pre as [|c pre IH]; intros rest i children err.
  - simpl. by rewrite Nat.add_0_r.
  - cbn [app decodeChildren length].
    replace (i + S (length pre)) with (S i + length pre) by lia.
    repeat case_decide.
    + destruct (setChild _ _ _ _); simpl; [|done..]. apply IH.
    + destruct (setChild _ _ _ _); simpl; [|done..]. apply IH.
    + destruct (rec c) as [[n e]| |]; simpl; [|done..].
      destruct (setChild _ _ _ _); simpl; [|done..]. apply IH.
Qed.

Lemma decodeChildren_keeps_error (rec : list byte → outcome decoded) post :
  Forall (λ c, length c = 0 ∨ length c = HashLength) post →
  ∀ i children err r,
    decodeChildren rec i post children err = Ok r → r.2 = err.
Proof.
  induction 1 as [|c post [Hc|Hc] _ IH]; intros i children err r;
    cbn [decodeChildren].
  - by intros [= <-].
  - rewrite decide_True //. intros Hd. outcome_inv. by eapply IH.
  - destruct (decide (length c = 0)) as [E|_].
    + intros Hd. outcome_inv. by eapply IH.
    + rewrite decide_True //. intros Hd. outcome_inv. by eapply IH.
Qed.

(** The error that [decodeNode] answers with a branch is the one of the
    last child held inline (neither empty nor 32 bytes long): what an
    earlier inline child failed with is overwritten. *)
Theorem decodeNode_branch_last_error (fuel : nat) (raw : list byte)
    (pre post : list (list byte)) (c : list byte) (target : gobytes)
    (n : option node) (err : option error) :
  raw ≠ [] →
  unmarshalBranch raw = Some (pre ++ c :: post, target) →
  length c ≠ 0 → length c ≠ HashLength →
  Forall (λ c', length c' = 0 ∨ length c' = HashLength) post →
  decodeNode (S fuel) (raw ++ [branchType]) = Ok (n, err) →
  ∃ child, decodeNode fuel c = Ok (child, err).
Proof.
  intros Hraw Hu Hc0 Hc32 Hpost. rewrite (decodeNode_snoc _ _ _ Hraw).
  destruct (decide (lowNibble branchType = leafType)) as [E|_];
    [by vm_compute in E|].
  destruct (decide (lowNibble branchType = extType)) as [E|_];
    [by vm_compute in E|].
  destruct (decide (lowNibble branchType = branchType)) as [_|E];
    [|by vm_compute in E].
  rewrite /decodeBranchNode Hu decodeChildren_app.
  intros Hd. outcome_inv. destruct_pairs. outcome_inv.
  match goal with E : decodeChildren _ _ (c :: post) _ _ = Ok _ |- _ =>
    cbn [decodeChildren] in E; rewrite decide_False // decide_False // in E;
    rename E into Hd end.
  outcome_inv. destruct_pairs. outcome_inv.
  match goal with E : decodeNode fuel c = Ok (?m, ?e) |- _ =>
    exists m; rewrite E end.
  match goal with E : decodeChildren _ _ post _ _ = Ok _ |- _ =>
    apply (decodeChildren_keeps_error _ _ Hpost) in E; simpl in E end.
  by subst.
Qed.

End BranchError.

(** ** One key, inserted and deleted (trie.go) *)

Section OneKey.
Context `{Primitives} `{!CodecFields}.

(** The leaf made of a key and a value decodes back when its message has
    bytes. *)
Lemma leaf_decodes key value kb flag :
  Forall is_nibble key → encodeKey key leafType = Ok (kb, flag) →
  marshalLeaf kb value ≠ [] →
  ∃ value', gocontent value' = gocontent value
    ∧ ∀ f, decodeNode (S f) (marshalLeaf kb value ++ [flag])
           = Ok (Some (leafNode key value'), None).
Proof.
  intros Hk Hek Hne.
  destruct (encodeKey_decodeKey key leafType Hk)
    as (kb' & flag' & Hek' & Hdk & Hlow); [by left|].
  assert (kb' = kb ∧ flag' = flag) as [-> ->] by (split; congruence).
  destruct (leaf_back kb value) as (value' & Hu & Hv).
  exists value'. split; [done|]. intros f.
  rewrite (decodeNode_snoc _ _ _ Hne) Hlow.
  destruct (decide (leafType = leafType)) as [_|E]; [|done].
  by rewrite /decodeLeafNode Hu Hdk /=.
Qed.

(** What [Insert] on the empty trie answers. *)
Lemma Insert_empty (db : store) (fuel : nat) (key : list byte)
    (value : gobytes) kb flag :
  encodeKey (bytesToNibbles key) leafType = Ok (kb, flag) →
  (TrieInsert db fuel (NewTrie EmptyHash) key value).2
  = Ok (mkTrie (Keccak256Hash (marshalLeaf kb value ++ [flag]))
          (Log.insert (Log.copy newUpdateLog)
             (Keccak256Hash (marshalLeaf kb value ++ [flag]))
             (marshalLeaf kb value ++ [flag]))).
Proof.
  intros Hek. set (e := marshalLeaf kb value ++ [flag]).
  assert (Capped (newLeafNode (bytesToNibbles key) value)
          = Ok (if decide (length e < HashLength) then e
                else Keccak256Hash e)) as Hc
    by (by rewrite /Capped /newLeafNode /= Hek).
  rewrite /TrieInsert /Insert /insertAtRoot /=. rewrite decide_True //.
  rewrite /= !M_bind_unfold /= Hek /=.
  rewrite /mergeFromInsertResult /merge /= Hek /= Hc /=.
  destruct (decide (length e < HashLength));
    (destruct (decide (_ ∨ _)) as [_|Hn]; [done|]);
    exfalso; apply Hn; by right.
Qed.

(** The empty trie takes any key and value; when the key or the value is
    not empty, deleting that key from the trie it answers gives a trie
    whose root is [EmptyHash] again, on any store and with any fuel from
    some amount on. *)
Theorem Insert_Delete_empty
    (db : store) (fuel : nat) (key : list byte) (value : gobytes) :
  key ≠ [] ∨ gocontent value ≠ [] →
  ∃ t1,
    (TrieInsert db fuel (NewTrie EmptyHash) key value).2 = Ok t1
    ∧ ∃ fuel0, ∀ db' fuel', fuel0 ≤ fuel' →
        ∃ t2, (TrieDelete db' fuel' t1 key).2 = Ok t2
              ∧ rootHash t2 = EmptyHash.
Proof.
  intros Hfull.
  pose proof (bytesToNibbles_nibbles key) as Hk.
  destruct (encodeKey_decodeKey (bytesToNibbles key) leafType Hk)
    as (kb & flag & Hek & Hdk & Hlow); [by left|].
  set (e := marshalLeaf kb value ++ [flag]).
  eexists. split; [by apply Insert_empty|].
  assert (marshalLeaf kb value ≠ []) as Hne.
  { intros [-> Hv]%leaf_bytes. apply encodeKey_none in Hek.
    destruct Hfull as [Hkey|Hval]; [|done]. by destruct key. }
  destruct (leaf_decodes _ value kb flag Hk Hek Hne) as (value' & Hv & Hdec).
  exists 1. intros db' fuel' Hf.
  rewrite /TrieDelete /Delete /=. fold e.
  destruct (decide (Keccak256Hash e = EmptyHash)) as [E|Hroot].
  { eexists. split; [done|]. done. }
  destruct fuel' as [|fuel']; [lia|].
  rewrite M_bind_unfold /resolveHash /= lookup_delete_eq lookup_insert_eq.
  rewrite (Hdec fuel') /=.
  rewrite M_bind_unfold delete_unfold /deleteFromLeaf /=.
  rewrite decide_True //=.
  rewrite /mergeFromDeleteResult /merge /= Hek /=.
  assert (∃ c', Capped (leafNode (bytesToNibbles key) value') = Ok c')
    as [c' Hc'] by (rewrite /Capped /= Hek /=; eauto).
  rewrite Hc' /=.
  destruct (decide (_ ∨ _)); simpl; eexists; (split; reflexivity).
Qed.

Lemma bytesToNibbles_inj a : ∀ b,
  bytesToNibbles a = bytesToNibbles b → a = b.
Proof.
  induction a as [|x a IH]; intros [|y b]; try done.
  cbn [bytesToNibbles]. intros [= Hhi Hlo Hrest]. f_equal; [|by apply IH].
  by rewrite -(pack_halves x) -(pack_halves y) Hhi Hlo.
Qed.

(** A trie of one key: after [Insert(k, v)] on the empty trie, [Get]
    answers [v] for [k] and no bytes for any other key, on any store and
    with any fuel from 1 on (when the digest of the leaf is not that of the
    empty byte string). A leaf of empty key and empty value that does not
    decode is read as no bytes, which is what it holds. *)
Theorem Insert_empty_Get
    (db : store) (fuel : nat) (key : list byte) (value : gobytes) :
  ∃ t1,
    (TrieInsert db fuel (NewTrie EmptyHash) key value).2 = Ok t1
    ∧ (rootHash t1 ≠ EmptyHash →
       ∃ fuel0, ∀ db' fuel' key', fuel0 ≤ fuel' →
         ∃ v', (TrieGet db' fuel' t1 key').2 = Ok v'
               ∧ gocontent v'
                 = if decide (key' = key) then gocontent value else []).
Proof.
  pose proof (bytesToNibbles_nibbles key) as Hk.
  destruct (encodeKey_decodeKey (bytesToNibbles key) leafType Hk)
    as (kb & flag & Hek & Hdk & Hlow); [by left|].
  set (e := marshalLeaf kb value ++ [flag]).
  eexists. split; [by apply Insert_empty|].
  simpl. fold e. intros Hroot.
  exists 1. intros db' fuel' key' Hf.
  destruct fuel' as [|fuel']; [lia|].
  rewrite /TrieGet /Get /=. fold e. rewrite decide_False //.
  rewrite M_bind_unfold /resolveHash /= lookup_delete_eq lookup_insert_eq.
  destruct (decide (marshalLeaf kb value = [])) as [Hnone|Hne].
  - destruct (leaf_bytes _ _ Hnone) as [_ Hv].
    rewrite /e Hnone decodeNode_unfold.
    destruct (decide (length ([] ++ [flag]) ≤ 1)) as [_|Hn];
      [|simpl in Hn; lia].
    simpl.
    exists None. split; [done|]. by case_decide.
  - destruct (leaf_decodes _ value kb flag Hk Hek Hne)
      as (value' & Hv & Hdec).
    rewrite (Hdec fuel') /= tryGet_unfold.
    destruct (decide (key' = key)) as [->|Hkey].
    + rewrite decide_True //. by exists value'.
    + rewrite decide_False; [by exists None|].
      intros E. by apply bytesToNibbles_inj in E.
Qed.

End OneKey.

(** The empty key with a value that the codec leaves out, as proto3 leaves
    out an empty one: the leaf is encoded as its flag alone, which
    [decodeNode] refuses as too short. [Insert] on the empty trie answers a
    trie all the same; [Delete] of the key on that trie stops on the root it
    cannot decode, on any store and with any fuel. *)
Theorem Insert_Delete_flag_only `{Primitives}
    (db : store) (fuel : nat) (value : gobytes) :
  marshalLeaf [] value = [] →
  Keccak256Hash [leafType] ≠ EmptyHash →
  ∃ t1,
    (TrieInsert db fuel (NewTrie EmptyHash) [] value).2 = Ok t1
    ∧ rootHash t1 = Keccak256Hash [leafType]
    ∧ ∀ db' fuel', 0 < fuel' →
        (TrieDelete db' fuel' t1 []).2
        = Panic (Explicit "Delete: can't resolve rootHash").
Proof.
  intros Hnone Hroot.
  assert (encodeKey (bytesToNibbles []) leafType = Ok ([], leafType)) as Hek
    by done.
  eexists. split; [by apply (Insert_empty db fuel [] value _ _ Hek)|].
  rewrite Hnone /=. split; [done|].
  intros db' [|fuel'] Hf; [lia|].
  rewrite /TrieDelete /Delete /=. rewrite decide_False //.
  rewrite M_bind_unfold /resolveHash /= lookup_delete_eq lookup_insert_eq.
  rewrite decodeNode_unfold.
  destruct (decide (length [leafType] ≤ 1)) as [_|Hn]; [done|].
  simpl in Hn. lia.
Qed.

(** ** What can stop a read (trie.go) *)

Section GetFaults.
Context `{Primitives}.
Variable db : store.

Lemma decodeNode_getFaults fuel bytes f :
  decodeNode fuel bytes = Panic f → f ∈ getFaults.
Proof.
  intros [-> | ->]%decodeNode_panic_sites; rewrite /getFaults /decodeFaults;
    set_solver.
Qed.

Lemma resolveHash_getFaults fuel h lg lg' f :
  resolveHash db fuel h lg = (lg', Panic f) → f ∈ getFaults.
Proof.
  rewrite /resolveHash /fetchFromDB.
  destruct (deleted lg !! h); [done|].
  destruct (inserted lg !! h) as [bytes|].
  { intros [= _ Hd]. by eapply decodeNode_getFaults. }
  destruct (cached lg !! h) as [bytes|].
  { intros [= _ Hd]. by eapply decodeNode_getFaults. }
  destruct (db !! h) as [encoded|]; [|intros [= _ <-]; by left].
  case_decide; [intros [= _ <-]; by left|].
  destruct (decodeNode fuel encoded) as [[n [e|]]|p|] eqn:Hd; try done.
  - intros [= _ <-]. right. by left.
  - intros [= _ <-]. by eapply decodeNode_getFaults.
Qed.

Lemma tryGet_getFaults fuel : ∀ startNode searchKey lg lg' f,
  onNode shaped startNode → Forall is_nibble searchKey →
  tryGet db fuel startNode searchKey lg = (lg', Panic f) → f ∈ getFaults.
Proof.
  induction fuel as [|fuel IH]; intros startNode searchKey lg lg' f Hs Hk;
    [done|].
  rewrite tryGet_unfold.
  destruct startNode as [[key value|key child|children target|hash]|];
    [| | | |done].
  - by case_decide.
  - destruct Hs as [_ Hc]. repeat case_decide; try done.
    apply IH; [done|]. by apply Forall_drop.
  - destruct searchKey as [|p rest]; [done|].
    apply Forall_cons in Hk as [Hp Hk].
    apply (shaped_branch children target) in Hs as [Hlen Hall].
    rewrite M_bind_unfold /pure /index.
    destruct (children !! Byte.to_nat p) as [slot|] eqn:Hslot.
    + apply IH; [|done]. rewrite Forall_lookup in Hall.
      apply (Hall _ _ Hslot).
    + apply lookup_ge_None in Hslot.
      pose proof (nibble_to_nat p Hp). lia.
  - rewrite M_bind_unfold /= M_bind_unfold.
    destruct (resolveHash db fuel (BytesToHash hash) lg)
      as [lg1 [[resolved err]|p|]] eqn:Hr; [| |done].
    + destruct err; [done|]. apply IH; [|done].
      by apply (resolveHash_shaped db _ _ _ _ _ Hr).
    + intros [= _ <-]. by eapply resolveHash_getFaults.
Qed.

End GetFaults.

(** [Get] on any handle, store and key can stop in four ways only: the two
    panics of [fetchFromDB] (the store lacks the hash, or holds bytes that
    do not decode) and the two places where [decodeNode] stops. It never
    stops at a slot of a branch or at a nil node. *)
Theorem Get_aborts_only `{Primitives}
    (db : store) (fuel : nat) (t : Trie) (key : list byte) (f : fault) :
  (TrieGet db fuel t key).2 = Panic f → f ∈ getFaults.
Proof.
  rewrite /TrieGet.
  destruct (Get db (rootHash t) fuel key (log t)) as [lg r] eqn:E.
  simpl. intros ->. revert E. rewrite /Get.
  case_decide; [done|]. rewrite M_bind_unfold.
  destruct (resolveHash db fuel (rootHash t) (log t))
    as [lg1 [[rootNode err]|p|]] eqn:Hr; [| |done].
  - destruct err; [done|]. apply tryGet_getFaults.
    + by apply (resolveHash_shaped db _ _ _ _ _ Hr).
    + apply bytesToNibbles_nibbles.
  - intros [= _ <-]. by eapply resolveHash_getFaults.
Qed.

(** ** What can stop an insertion or a deletion (trie.go) *)

Section Stops.
Context `{Primitives}.
Variable db : store.
Variable F : list fault.
Hypothesis F_get : ∀ f, f ∈ getFaults → f ∈ F.
Hypothesis F_nil : NilDereference "result of insert/delete on a nil node" ∈ F.
Hypothesis F_encode : NilDereference "extNode.Encode: n.child.Capped()" ∈ F.

Lemma stops_ret {A} (a : A) : stops F (mret a).
Proof. by intros lg lg' f. Qed.

Lemma stops_bind {A B} (m : M A) (f : A → M B) :
  stops F m → (∀ a lg lg', m lg = (lg', Ok a) → stops F (f a)) →
  stops F (m ≫= f).
Proof.
  intros Hm Hf lg lg' p. rewrite M_bind_unfold.
  destruct (m lg) as [lg1 [a| |]] eqn:E; [| |done].
  - by eapply Hf.
  - intros [= <- <-]. by eapply Hm.
Qed.

Lemma stops_pure {A} (o : outcome A) :
  (∀ f, o = Panic f → f ∈ F) → stops F (pure o).
Proof. intros Ho lg lg' f [= _ ->]. by apply Ho. Qed.

Lemma stops_pure_Ok {A B} (o : outcome A) (a : A) (f : A → M B) :
  o = Ok a → stops F (f a) → stops F (pure o ≫= f).
Proof. intros -> Hf lg lg' p. rewrite M_bind_unfold. apply Hf. Qed.

Lemma stops_resolveHash fuel h : stops F (resolveHash db fuel h).
Proof. intros lg lg' f Hr. apply F_get. by eapply resolveHash_getFaults. Qed.

Lemma encodeKey_Ok nibbles nodeType :
  ∃ r, encodeKey nibbles nodeType = Ok r.
Proof.
  rewrite /encodeKey.
  assert (∀ k, Nat.even (length k) = true → ∃ b, nibblesToBytes k = Ok b)
    as Heven.
  { intros k Hk. pose proof (nibblesToBytes_pairs k) as Ho.
    destruct (nibblesToBytes k) as [b|f|]; [by eauto| |done].
    destruct Ho as [Ho _]. congruence. }
  case_decide as Hodd.
  - destruct (Heven (nibbles ++ [x00])) as [b ->]; [|by eauto].
    rewrite length_app /= Nat.add_1_r Nat.even_succ -Nat.negb_even.
    apply negb_true_iff. apply not_true_is_false. intros He.
    apply Nat.even_spec in He as [k Hk]. apply Hodd. rewrite Hk.
    by rewrite Nat.mul_comm Nat.Div0.mod_mul.
  - destruct (Heven nibbles) as [b ->]; [|by eauto].
    destruct (Nat.even (length nibbles)) eqn:He; [done|].
    rewrite -Nat.negb_odd in He. apply negb_false_iff in He.
    apply Nat.odd_spec in He as [k Hk]. rewrite Hk in Hodd.
    by rewrite Nat.add_comm Nat.mul_comm Nat.Div0.mod_add in Hodd.
Qed.

Lemma Encode_fault n f :
  Encode n = Panic f →
  f = NilDereference "extNode.Encode: n.child.Capped()".
Proof.
  revert f.
  induction n as [key value|key child IH|children target IH|hash]
    using node_induction; intros f.
  - cbn [Encode]. by destruct (encodeKey_Ok key leafType) as [[kb fl] ->].
  - cbn [Encode]. destruct child as [c|]; [|by intros [= <-]].
    simpl in IH. destruct (Encode c) as [e|p|] eqn:Hc; simpl.
    + by destruct (encodeKey_Ok key extType) as [[kb fl] ->].
    + intros [= <-]. by apply IH.
    + done.
  - rewrite Encode_branch.
    assert (∀ p, encodeSlots children = Panic p →
              p = NilDereference "extNode.Encode: n.child.Capped()") as Hs.
    { induction IH as [|[c|] rest Hc _ IHrest]; cbn [encodeSlots]; [done|..].
      - simpl in Hc. intros p. destruct (Encode c) as [e|q|]; simpl.
        + destruct (encodeSlots rest) as [raws|q|]; simpl; [done| |done].
          intros [= <-]. by apply IHrest.
        + intros [= <-]. by apply Hc.
        + done.
      - intros p. destruct (encodeSlots rest) as [raws|q|]; simpl;
          [done| |done].
        intros [= <-]. by apply IHrest. }
    destruct (encodeSlots children) as [raws|p|]; simpl; [done| |done].
    intros [= <-]. by apply Hs.
  - done.
Qed.

Lemma Hash_fault n f :
  Hash n = Panic f → f = NilDereference "extNode.Encode: n.child.Capped()".
Proof.
  destruct n; rewrite /Hash; try done;
    (destruct (Encode _) as [e|p|] eqn:He; simpl; [done| |done]);
    intros [= <-]; by eapply Encode_fault.
Qed.

Lemma Capped_fault n f :
  Capped n = Panic f → f = NilDereference "extNode.Encode: n.child.Capped()".
Proof.
  rewrite /Capped. destruct (Encode n) as [e|p|] eqn:He; simpl; [done| |done].
  intros [= <-]. by eapply Encode_fault.
Qed.

Lemma mergeDeleted_fault nodes : ∀ lg oldRoot f,
  mergeDeleted lg oldRoot nodes = Panic f →
  f = NilDereference "extNode.Encode: n.child.Capped()".
Proof.
  induction nodes as [|n rest IH]; intros lg oldRoot f; cbn [mergeDeleted];
    [done|].
  destruct (Capped n) as [c|p|] eqn:Hc; simpl;
    [|intros [= <-]; by eapply Capped_fault|done].
  destruct (Hash n) as [h|p|] eqn:Hh; simpl;
    [|intros [= <-]; by eapply Hash_fault|done].
  case_decide; apply IH.
Qed.

Lemma mergeInserted_fault nodes : ∀ lg newRoot f,
  mergeInserted lg newRoot nodes = Panic f →
  f = NilDereference "extNode.Encode: n.child.Capped()".
Proof.
  induction nodes as [|n rest IH]; intros lg newRoot f; cbn [mergeInserted];
    [done|].
  destruct (Capped n) as [c|p|] eqn:Hc; simpl;
    [|intros [= <-]; by eapply Capped_fault|done].
  destruct (match newRoot with Some r => Capped r | None => Ok EmptyHash end)
    as [rc|p|] eqn:Hr; simpl; [| |done].
  - case_decide; [|apply IH].
    destruct (Hash n) as [h|p|] eqn:Hh; simpl;
      [|intros [= <-]; by eapply Hash_fault|done].
    destruct (Encode n) as [e|p|] eqn:He; simpl;
      [|intros [= <-]; by eapply Encode_fault|done].
    apply IH.
  - intros [= <-]. destruct newRoot as [r|]; [|done].
    by eapply Capped_fault.
Qed.

Lemma merge_fault lg oldRoot newRoot del ins f :
  merge lg oldRoot newRoot del ins = Panic f →
  f = NilDereference "extNode.Encode: n.child.Capped()".
Proof.
  rewrite /merge.
  destruct (mergeDeleted lg oldRoot del) as [lg1|p|] eqn:Hd; simpl;
    [|intros [= <-]; by eapply mergeDeleted_fault|done].
  apply mergeInserted_fault.
Qed.

Lemma index_shaped site children target p :
  shaped (branchNode children target) → is_nibble p →
  ∃ c, index site children (Byte.to_nat p) = Ok c ∧ onNode shaped c.
Proof.
  intros [Hlen Hall]%shaped_branch Hp.
  pose proof (nibble_to_nat p Hp) as Hlt.
  assert (Byte.to_nat p < length children) as Hlt' by lia.
  destruct (lookup_lt_is_Some_2 children (Byte.to_nat p) Hlt') as [c Hc].
  exists c. rewrite /index Hc. split; [done|].
  rewrite Forall_lookup in Hall. by apply (Hall _ _ Hc).
Qed.

Lemma updateChild_shaped children target p n :
  shaped (branchNode children target) → is_nibble p → onNode shaped n →
  ∃ b, updateChild children target (Byte.to_nat p) n = Ok b ∧ shaped b.
Proof.
  intros Hb Hp Hn. pose proof Hb as [Hlen Hall]%shaped_branch.
  pose proof (nibble_to_nat p Hp) as Hlt.
  rewrite /updateChild /setChild.
  destruct (decide _) as [_|Hn']; [|lia].
  eexists. split; [done|]. by apply shaped_insert.
Qed.

Lemma branchWithChild_nibble k0 n target :
  is_nibble k0 → onNode shaped n →
  ∃ b, branchWithChild (Byte.to_nat k0) n target = Ok b ∧ shaped b.
Proof.
  intros Hk Hn. pose proof (nibble_to_nat k0 Hk) as Hlt.
  rewrite /branchWithChild /setChild.
  destruct (decide _) as [_|Hn'];
    [|rewrite length_replicate in Hn'; lia].
  eexists. split; [done|]. apply shaped_insert; [|done].
  apply shaped_noChildren.
Qed.

Hypothesis F_root : Explicit "Insert: can't resolve rootHash" ∈ F.
Hypothesis F_hash : Explicit "insert: can't resolve hashNode" ∈ F.
Hypothesis F_slice : SliceOutOfRange "insertToExt: ext.key[1:]" ∈ F.

Lemma insertToLeaf_stops rec key leafValue searchKey value :
  (∀ n sk v, onNode shaped n → Forall is_nibble sk → stops F (rec n sk v)) →
  Forall is_nibble key → Forall is_nibble searchKey →
  stops F (insertToLeaf rec key leafValue searchKey value).
Proof.
  intros Hrec Hk Hs. rewrite /insertToLeaf. cbv zeta.
  case_decide; [apply stops_ret|]. case_decide.
  - destruct key as [|k0 key'].
    + apply stops_bind; [apply stops_ret|]. intros [tb ml] lg lg' [= _ <- <-].
      apply stops_bind; [|intros; apply stops_ret].
      apply Hrec; [apply shaped_noChildren|done].
    + apply Forall_cons in Hk as [Hk0 Hk'].
      destruct (branchWithChild_nibble k0 (Some (newLeafNode key' leafValue))
                  None Hk0 Hk') as (b & Hb & Hsb).
      rewrite Hb. apply stops_bind.
      { eapply stops_pure_Ok; [done|]. apply stops_ret. }
      intros [tb ml] lg lg' [= _ <- <-].
      apply stops_bind; [|intros; apply stops_ret]. by apply Hrec.
  - apply stops_bind; [|intros; apply stops_ret].
    apply Hrec; [|by apply Forall_drop].
    case_decide; [apply shaped_noChildren|]. simpl. by apply Forall_drop.
Qed.

Lemma insertToExt_stops rec key child searchKey value :
  (∀ n sk v, onNode shaped n → Forall is_nibble sk → stops F (rec n sk v)) →
  shaped (extNode key child) → Forall is_nibble searchKey →
  stops F (insertToExt rec key child searchKey value).
Proof.
  intros Hrec [Hk Hc] Hs. rewrite /insertToExt. cbv zeta.
  case_decide; [|case_decide].
  - destruct key as [|k0 [|k1 key']].
    + apply stops_bind; [|done]. apply stops_pure. by intros f [= <-].
    + apply Forall_cons in Hk as [Hk0 _].
      destruct (branchWithChild_nibble k0 child None Hk0 Hc)
        as (b & Hb & Hsb).
      rewrite Hb. apply stops_bind.
      { eapply stops_pure_Ok; [done|]. apply stops_ret. }
      intros [tb ml] lg lg' [= _ <- <-].
      apply stops_bind; [|intros; apply stops_ret]. by apply Hrec.
    + apply Forall_cons in Hk as [Hk0 Hk'].
      destruct (branchWithChild_nibble k0
                  (Some (newExtNode (k1 :: key') child)) None Hk0)
        as (b & Hb & Hsb); [done|].
      rewrite Hb. apply stops_bind.
      { eapply stops_pure_Ok; [done|]. apply stops_ret. }
      intros [tb ml] lg lg' [= _ <- <-].
      apply stops_bind; [|intros; apply stops_ret]. by apply Hrec.
  - apply stops_bind; [|intros; apply stops_ret].
    apply Hrec; [done|]. by apply Forall_drop.
  - apply stops_bind; [|intros; apply stops_ret].
    apply Hrec; [|by apply Forall_drop]. split; [|done]. by apply Forall_drop.
Qed.

Lemma insertToBranch_stops rec children target searchKey value :
  (∀ n sk v, onNode shaped n → Forall is_nibble sk → stops F (rec n sk v)) →
  (∀ n sk v, onNode shaped n → Forall is_nibble sk →
             ensures (rec n sk v) (inserts sk v)) →
  shaped (branchNode children target) → Forall is_nibble searchKey →
  stops F (insertToBranch rec children target searchKey value).
Proof.
  intros Hrec Hwell Hb Hs. rewrite /insertToBranch. cbv zeta.
  destruct searchKey as [|p rest]; [apply stops_ret|].
  apply Forall_cons in Hs as [Hp Hrest].
  destruct (index_shaped "insertToBranch: branch.children[pos]"
              children target p Hb Hp) as (c & Hc & Hsc).
  eapply stops_pure_Ok; [exact Hc|].
  destruct c as [c|].
  - apply stops_bind; [by apply Hrec|].
    intros result lg lg' Hr.
    destruct (Hwell _ _ _ Hsc Hrest _ _ _ Hr) as (n & Hn & Hsn & _).
    destruct (updateChild_shaped children target p (newNode result) Hb Hp)
      as (b & Hu & _); [by rewrite Hn|].
    eapply stops_pure_Ok; [exact Hu|]. apply stops_ret.
  - destruct (updateChild_shaped children target p
                (Some (newLeafNode rest value)) Hb Hp) as (b & Hu & _);
      [done|].
    eapply stops_pure_Ok; [exact Hu|]. apply stops_ret.
Qed.

Lemma insert_stops fuel : ∀ startNode searchKey value,
  onNode shaped startNode → Forall is_nibble searchKey →
  stops F (insert db fuel startNode searchKey value).
Proof.
  induction fuel as [|fuel IH]; intros startNode searchKey value Hs Hk;
    [by intros lg lg' f|].
  rewrite insert_unfold.
  destruct startNode as [[key leafValue|key child|children target|hash]|].
  - by apply insertToLeaf_stops.
  - by apply insertToExt_stops.
  - apply insertToBranch_stops; try done. apply insert_inserts.
  - eapply stops_pure_Ok; [done|].
    apply stops_bind; [apply stops_resolveHash|].
    intros [resolved [e|]] lg lg' Hr.
    + apply stops_pure. by intros f [= <-].
    + apply IH; [|done]. by apply (resolveHash_shaped db _ _ _ _ _ Hr).
  - apply stops_pure. by intros f [= <-].
Qed.

Lemma Insert_stops root fuel key value :
  stops F (Insert db root fuel key value).
Proof.
  rewrite /Insert. cbv zeta. apply stops_bind.
  - rewrite /insertAtRoot. case_decide; [apply stops_ret|].
    apply stops_bind; [apply stops_resolveHash|].
    intros [rootNode [e|]] lg lg' Hr.
    + apply stops_pure. by intros f [= <-].
    + apply insert_stops; [|apply bytesToNibbles_nibbles].
      by apply (resolveHash_shaped db _ _ _ _ _ Hr).
  - intros result lg lg' Hr.
    destruct (insertAtRoot_inserts db root fuel key value _ _ _ Hr)
      as (n & Hn & _).
    rewrite Hn. apply stops_bind.
    { apply stops_pure. intros f Hf. simpl in Hf.
      by rewrite (Hash_fault _ _ Hf). }
    intros h lg1 lg1' _. apply stops_bind; [by intros ? ? ?|].
    intros lg2 lg3 lg3' _. apply stops_bind; [|intros; apply stops_ret].
    apply stops_pure. intros f Hf. rewrite /mergeFromInsertResult in Hf.
    by rewrite (merge_fault _ _ _ _ _ _ Hf).
Qed.

Hypothesis F_droot : Explicit "Delete: can't resolve rootHash" ∈ F.
Hypothesis F_dhash : Explicit "delete: can't resolve hashNode" ∈ F.
Hypothesis F_fixExt :
  Explicit "tryFixExt: can't resolve child, maybe because of can't get node from updates"
  ∈ F.
Hypothesis F_fixBranch :
  Explicit "tryFixBranch: invalid branch state, no children and no target"
  ∈ F.

Lemma getNodeFrom_fault nodes h f :
  getNodeFrom nodes h = Panic f →
  f = NilDereference "extNode.Encode: n.child.Capped()".
Proof.
  induction nodes as [|n rest IH]; cbn [getNodeFrom]; [done|].
  destruct (Hash n) as [h'|p|] eqn:Hh; simpl;
    [|intros [= <-]; by eapply Hash_fault|done].
  by case_decide.
Qed.

Lemma tryFixExt_stops fuel key child updates :
  stops F (tryFixExt db fuel key child updates).
Proof.
  rewrite /tryFixExt. cbv zeta. apply stops_bind.
  - destruct child as [[| | |hash]|]; try apply stops_ret.
    eapply stops_pure_Ok; [done|]. apply stops_bind.
    { apply stops_pure. intros f Hf.
      by rewrite (getNodeFrom_fault _ _ _ Hf). }
    intros [found|] lg lg' _; [apply stops_ret|].
    apply stops_bind; [apply stops_resolveHash|].
    intros [resolved [e|]] lg1 lg1' _; [|apply stops_ret].
    apply stops_pure. by intros f [= <-].
  - intros [[| | |]|] lg lg' _; apply stops_ret.
Qed.

Lemma tryFixBranch_stops fuel children target updates :
  stops F (tryFixBranch db fuel children target updates).
Proof.
  rewrite /tryFixBranch. cbv zeta.
  case_decide; [apply stops_ret|]. case_decide as H1.
  - destruct H1 as [Hlen _].
    destruct (childrenIndex children) as [|idx [|]] eqn:Hidx; try done.
    eapply stops_pure_Ok; [done|].
    assert (idx ∈ childrenIndex children) as Hin by (rewrite Hidx; by left).
    apply childrenIndex_spec in Hin as [c Hc].
    eapply stops_pure_Ok; [by rewrite /index Hc|].
    apply tryFixExt_stops.
  - case_decide; [|apply stops_ret].
    apply stops_pure. by intros f [= <-].
Qed.

Lemma tryFix_stops fuel startNode updates :
  stops F (tryFix db fuel startNode updates).
Proof.
  destruct startNode as [[| | |]|]; cbn [tryFix];
    first [apply stops_ret | apply tryFixExt_stops | apply tryFixBranch_stops].
Qed.

Lemma deleteFromExt_stops rec fuel key child searchKey :
  (∀ n sk, onNode shaped n → Forall is_nibble sk → stops F (rec n sk)) →
  shaped (extNode key child) → Forall is_nibble searchKey →
  stops F (deleteFromExt db rec fuel key child searchKey).
Proof.
  intros Hrec [Hk Hc] Hs. rewrite /deleteFromExt. cbv zeta.
  case_decide; [apply stops_ret|].
  apply stops_bind; [apply Hrec; [done|by apply Forall_drop]|].
  intros result lg lg' _. destruct (hasChanged result); cbn [negb];
    [|apply stops_ret].
  apply stops_bind; [apply tryFix_stops|]. intros; apply stops_ret.
Qed.

Lemma deleteFromBranch_stops rec fuel children target searchKey :
  (∀ n sk, onNode shaped n → Forall is_nibble sk → stops F (rec n sk)) →
  shaped (branchNode children target) → Forall is_nibble searchKey →
  stops F (deleteFromBranch db rec fuel children target searchKey).
Proof.
  intros Hrec Hb Hs. rewrite /deleteFromBranch. cbv zeta.
  destruct searchKey as [|p rest].
  - destruct (hasTarget target); [|apply stops_ret].
    apply stops_bind; [apply tryFix_stops|]. intros; apply stops_ret.
  - apply Forall_cons in Hs as [Hp Hrest].
    destruct (index_shaped "deleteFromBranch: branch.children[childIndex]"
                children target p Hb Hp) as (c & Hc & Hsc).
    eapply stops_pure_Ok; [exact Hc|].
    destruct c as [c|]; [|apply stops_ret].
    apply stops_bind; [by apply Hrec|].
    intros result lg lg' _. destruct (hasChanged result); cbn [negb];
      [|apply stops_ret].
    pose proof Hb as [Hlen _]%shaped_branch.
    pose proof (nibble_to_nat p Hp) as Hlt.
    rewrite /updateChild /setChild.
    destruct (decide _) as [_|Hn]; [|lia].
    eapply stops_pure_Ok; [done|].
    apply stops_bind; [apply tryFix_stops|]. intros; apply stops_ret.
Qed.

Lemma delete_stops fuel : ∀ startNode searchKey,
  onNode shaped startNode → Forall is_nibble searchKey →
  stops F (delete db fuel startNode searchKey).
Proof.
  induction fuel as [|fuel IH]; intros startNode searchKey Hs Hk;
    [by intros lg lg' f|].
  rewrite delete_unfold.
  destruct startNode as [[key leafValue|key child|children target|hash]|].
  - rewrite /deleteFromLeaf. cbv zeta. case_decide; apply stops_ret.
  - by apply deleteFromExt_stops.
  - by apply deleteFromBranch_stops.
  - eapply stops_pure_Ok; [done|].
    apply stops_bind; [apply stops_resolveHash|].
    intros [resolved [e|]] lg lg' Hr.
    + apply stops_pure. by intros f [= <-].
    + apply IH; [|done]. by apply (resolveHash_shaped db _ _ _ _ _ Hr).
  - apply stops_pure. by intros f [= <-].
Qed.

Lemma Delete_stops root fuel key :
  stops F (Delete db root fuel key).
Proof.
  rewrite /Delete. case_decide.
  { apply stops_bind; [by intros ? ? ?|]. intros; apply stops_ret. }
  cbv zeta. apply stops_bind; [apply stops_resolveHash|].
  intros [rootNode [e|]] lg lg' Hr.
  { apply stops_pure. by intros f [= <-]. }
  apply stops_bind.
  { apply delete_stops; [|apply bytesToNibbles_nibbles].
    by apply (resolveHash_shaped db _ _ _ _ _ Hr). }
  intros result lg1 lg1' _. destruct (hasChanged result); cbn [negb].
  - apply stops_bind.
    { destruct (newNode (operation result)) as [n|]; [|apply stops_ret].
      apply stops_pure. intros f Hf. by rewrite (Hash_fault _ _ Hf). }
    intros h lg2 lg2' _. apply stops_bind; [by intros ? ? ?|].
    intros lg3 lg4 lg4' _. apply stops_bind; [|intros; apply stops_ret].
    apply stops_pure. intros f Hf. rewrite /mergeFromDeleteResult in Hf.
    by rewrite (merge_fault _ _ _ _ _ _ Hf).
  - apply stops_bind; [by intros ? ? ?|]. intros; apply stops_ret.
Qed.

End Stops.

(** [Insert] on any handle, store, key and value can stop only as [Get]
    does, on a hash that does not resolve ("Insert: can't resolve rootHash",
    "insert: can't resolve hashNode"), at [ext.key[1:]] of an extension
    whose key is empty, or where a nil node is called (a nil child that is
    inserted into or encoded). It never stops at a slot of a branch. *)
Theorem Insert_aborts_only `{Primitives}
    (db : store) (fuel : nat) (t : Trie) (key : list byte) (value : gobytes)
    (f : fault) :
  (TrieInsert db fuel t key value).2 = Panic f → f ∈ insertFaults.
Proof.
  rewrite /TrieInsert.
  destruct (Insert db (rootHash t) fuel key value (log t)) as [lg r] eqn:E.
  simpl. intros ->. revert E.
  apply (Insert_stops db insertFaults); rewrite /insertFaults;
    first [ by intros f' Hf'; apply elem_of_app; left
          | apply elem_of_app; right; repeat first [by left | right] ].
Qed.

(** [Delete] on any handle, store and key can stop only as [Get] does, on
    a hash that does not resolve ("Delete: can't resolve rootHash",
    "delete: can't resolve hashNode", and the panic of [tryFixExt]), in
    [tryFixBranch] on a branch left with no child and no target, or where a
    nil node is called. It never stops at a slot of a branch. *)
Theorem Delete_aborts_only `{Primitives}
    (db : store) (fuel : nat) (t : Trie) (key : list byte) (f : fault) :
  (TrieDelete db fuel t key).2 = Panic f → f ∈ deleteFaults.
Proof.
  rewrite /TrieDelete.
  destruct (Delete db (rootHash t) fuel key (log t)) as [lg r] eqn:E.
  simpl. intros ->. revert E.
  apply (Delete_stops db deleteFaults); rewrite /deleteFaults;
    first [ by intros f' Hf'; apply elem_of_app; left
          | apply elem_of_app; right; repeat first [by left | right] ].
Qed.

(** ** More fuel for a read (trie.go) *)

Section GetFuel.
Context `{Primitives}.

Lemma Get_le db root fuel fuel' key lg lg' v :
  Get db root fuel key lg = (lg', Ok v) → fuel ≤ fuel' →
  Get db root fuel' key lg = (lg', Ok v).
Proof.
  rewrite /Get. case_decide; [done|]. intros Hg Hf.
  apply M_bind_Ok in Hg as ([rootNode err] & lg1 & Hres & Hg).
  rewrite M_bind_unfold (resolveHash_le db _ _ _ _ _ _ Hres Hf).
  destruct err as [err|]; [done|].
  by apply (tryGet_le db fuel).
Qed.

End GetFuel.

(** C1 on an input, with the codec laid out as proto3 lays out its
    messages. The key 0x13 is inserted into the empty trie with an empty
    value, then the key 0x12 with the value "b": both insertions answer a
    trie. The two leaves sit side by side in one branch, and the leaf of
    0x13, of empty key and empty value, is encoded as its flag alone, one
    byte, which [decodeNode] refuses as too short: the branch comes back
    with an error and [Get] of 0x12 answers nil, with any fuel, where the
    claim says "b". With "a" in place of the empty value the same
    insertions give a trie in which 0x12 is read as "b". *)
Lemma Get_misses_beside_empty_leaf :
  ∃ t,
    Proto3.insertAll Proto3.emptyThenB = Ok t
    ∧ rootHash t ≠ @EmptyHash Proto3.primitives
    ∧ (∀ fuel, Sample.fuel ≤ fuel →
         (@TrieGet Proto3.primitives ∅ fuel t [x12]).2 = Ok None)
    ∧ bytesEqual None (Some (Sample.text "b")) = false
    ∧ ∃ t',
        Proto3.insertAll Proto3.aThenB = Ok t'
        ∧ (@TrieGet Proto3.primitives ∅ Sample.fuel t' [x12]).2
          = Ok (Some (Sample.text "b")).
Proof.
  exists (Proto3.trieOf Proto3.emptyThenB).
  split; [vm_compute; reflexivity|].
  split; [vm_compute; discriminate|].
  split; [|split; [vm_compute; reflexivity|]].
  - intros fuel Hf. rewrite /TrieGet.
    destruct (@Get Proto3.primitives ∅
                (rootHash (Proto3.trieOf Proto3.emptyThenB)) Sample.fuel
                [x12] (log (Proto3.trieOf Proto3.emptyThenB)))
      as [lg r] eqn:E.
    assert (r = Ok None) as ->.
    { assert ((@Get Proto3.primitives ∅
                 (rootHash (Proto3.trieOf Proto3.emptyThenB)) Sample.fuel
                 [x12] (log (Proto3.trieOf Proto3.emptyThenB))).2 = Ok None)
        as Hr by (vm_compute; reflexivity).
      by rewrite E in Hr. }
    by rewrite (Get_le _ _ _ _ _ _ _ _ E Hf).
  - exists (Proto3.trieOf Proto3.aThenB).
    split; vm_compute; reflexivity.
Qed.

(** ** The properties that ask for a codec, on inputs of the codec laid out
    as proto3 *)

Lemma Encode_decodeNode_fields_witness :
  shaped Scenario.shortLeaf ∧ notHash Scenario.shortLeaf
  ∧ solid Scenario.shortLeaf = true
  ∧ @Encode Proto3.primitives Scenario.shortLeaf
    = Ok [x0a; x01; x12; x12; x02; x01; x02; x00]
  ∧ ∃ fuel0 d,
      @img Proto3.primitives Scenario.shortLeaf d ∧ shaped d ∧ notHash d
      ∧ ∀ fuel, fuel0 ≤ fuel →
          @decodeNode Proto3.primitives fuel
            [x0a; x01; x12; x12; x02; x01; x02; x00]
          = Ok (Some d, None).
Proof.
  assert (shaped Scenario.shortLeaf) as Hs
    by (repeat constructor).
  assert (@Encode Proto3.primitives Scenario.shortLeaf
          = Ok [x0a; x01; x12; x12; x02; x01; x02; x00])
    as He by (vm_compute; reflexivity).
  split; [exact Hs|]. split; [exact I|]. split; [reflexivity|].
  split; [exact He|].
  exact (Encode_decodeNode_fields (H0:=proto3_fields) Scenario.shortLeaf _
           Hs I eq_refl He).
Defined.

(** The insertion of 0x12 beside 0x13, which holds "a", meets what
    [Insert_then_Get] asks, and 0x12 is then found. *)
Lemma Insert_then_Get_witness :
  @TrieInsert Proto3.primitives ∅ Sample.fuel (Proto3.trieOf Proto3.aOnly)
    [x12] (Some (Sample.text "b"))
  = ((@TrieInsert Proto3.primitives ∅ Sample.fuel
        (Proto3.trieOf Proto3.aOnly) [x12] (Some (Sample.text "b"))).1,
     Ok (Proto3.trieOf Proto3.aThenB))
  ∧ rootHash (Proto3.trieOf Proto3.aThenB) ≠ @EmptyHash Proto3.primitives
  ∧ ∃ fuel0 v',
      bytesEqual v' (Some (Sample.text "b")) = true ∧
      ∀ db' fuel', fuel0 ≤ fuel' →
        (@TrieGet Proto3.primitives db' fuel' (Proto3.trieOf Proto3.aThenB)
           [x12]).2 = Ok v'.
Proof.
  assert (@TrieInsert Proto3.primitives ∅ Sample.fuel
            (Proto3.trieOf Proto3.aOnly) [x12] (Some (Sample.text "b"))
          = ((@TrieInsert Proto3.primitives ∅ Sample.fuel
                (Proto3.trieOf Proto3.aOnly) [x12]
                (Some (Sample.text "b"))).1,
             Ok (Proto3.trieOf Proto3.aThenB)))
    as Hins by (vm_compute; reflexivity).
  assert (rootHash (Proto3.trieOf Proto3.aThenB) ≠ @EmptyHash Proto3.primitives) as Hne
    by (vm_compute; discriminate).
  split; [exact Hins|]. split; [exact Hne|].
  apply (Insert_then_Get (H0:=proto3_fields) ∅ Sample.fuel
           (Proto3.trieOf Proto3.aOnly) _ (Proto3.trieOf Proto3.aThenB)
           _ _ Hins); [|exact Hne].
  intros lg r E.
  assert (r = match (@insertAtRoot Proto3.primitives ∅
                       (rootHash (Proto3.trieOf Proto3.aOnly))
                       Sample.fuel (bytesToNibbles [x12])
                       (Some (Sample.text "b"))
                       (log (Proto3.trieOf Proto3.aOnly))).2 with
              | Ok r' => r'
              | _ => newOperationResult None
              end) as -> by (rewrite E; reflexivity).
  split.
  - apply distinct_hashes_collisionFree.
    apply (bool_decide_unpack _).
    vm_compute. reflexivity.
  - vm_compute. reflexivity.
Defined.

Lemma Insert_Persist_Get_witness :
  @TrieInsert Proto3.primitives ∅ Sample.fuel (Proto3.trieOf Proto3.aOnly)
    [x12] (Some (Sample.text "b"))
  = ((@TrieInsert Proto3.primitives ∅ Sample.fuel
        (Proto3.trieOf Proto3.aOnly) [x12] (Some (Sample.text "b"))).1,
     Ok (Proto3.trieOf Proto3.aThenB))
  ∧ rootHash (Proto3.trieOf Proto3.aThenB) ≠ @EmptyHash Proto3.primitives
  ∧ ∃ fuel0 v',
      bytesEqual v' (Some (Sample.text "b")) = true ∧
      ∀ db0 fuel', fuel0 ≤ fuel' →
        (@TrieGet Proto3.primitives
           (Persist db0 (Proto3.trieOf Proto3.aThenB)) fuel'
           (NewTrie (StateRoot (Proto3.trieOf Proto3.aThenB))) [x12]).2
        = Ok v'.
Proof.
  assert (@TrieInsert Proto3.primitives ∅ Sample.fuel
            (Proto3.trieOf Proto3.aOnly) [x12] (Some (Sample.text "b"))
          = ((@TrieInsert Proto3.primitives ∅ Sample.fuel
                (Proto3.trieOf Proto3.aOnly) [x12]
                (Some (Sample.text "b"))).1,
             Ok (Proto3.trieOf Proto3.aThenB)))
    as Hins by (vm_compute; reflexivity).
  assert (rootHash (Proto3.trieOf Proto3.aThenB) ≠ @EmptyHash Proto3.primitives) as Hne
    by (vm_compute; discriminate).
  split; [exact Hins|]. split; [exact Hne|].
  apply (Insert_Persist_Get (H0:=proto3_fields) ∅ Sample.fuel
           (Proto3.trieOf Proto3.aOnly) _ (Proto3.trieOf Proto3.aThenB)
           _ _ Hins); [|exact Hne].
  intros lg r E.
  assert (r = match (@insertAtRoot Proto3.primitives ∅
                       (rootHash (Proto3.trieOf Proto3.aOnly))
                       Sample.fuel (bytesToNibbles [x12])
                       (Some (Sample.text "b"))
                       (log (Proto3.trieOf Proto3.aOnly))).2 with
              | Ok r' => r'
              | _ => newOperationResult None
              end) as -> by (rewrite E; reflexivity).
  split.
  - apply distinct_hashes_collisionFree.
    apply (bool_decide_unpack _).
    vm_compute. reflexivity.
  - vm_compute. reflexivity.
Defined.

Lemma Delete_then_Get_witness :
  @TrieDelete Proto3.primitives ∅ Sample.fuel (Proto3.trieOf Proto3.aThenB)
    [x12]
  = ((@TrieDelete Proto3.primitives ∅ Sample.fuel
        (Proto3.trieOf Proto3.aThenB) [x12]).1, Ok Proto3.aAgain)
  ∧ ∃ fuel0 v',
      bytesEqual v' None = true ∧
      ∀ fuel', fuel0 ≤ fuel' →
        (@TrieGet Proto3.primitives ∅ fuel' Proto3.aAgain [x12]).2 = Ok v'.
Proof.
  assert (@TrieDelete Proto3.primitives ∅ Sample.fuel
            (Proto3.trieOf Proto3.aThenB) [x12]
          = ((@TrieDelete Proto3.primitives ∅ Sample.fuel
                (Proto3.trieOf Proto3.aThenB) [x12]).1, Ok Proto3.aAgain))
    as Hdel by (vm_compute; reflexivity).
  split; [exact Hdel|].
  apply (Delete_then_Get (H0:=proto3_fields) ∅ Sample.fuel
           (Proto3.trieOf Proto3.aThenB) _ Proto3.aAgain _ Hdel).
  intros rootNode lg1 lg2 r Hres Hd.
  assert (lg1 = (@resolveHash Proto3.primitives ∅ Sample.fuel
                   (rootHash (Proto3.trieOf Proto3.aThenB))
                   (log (Proto3.trieOf Proto3.aThenB))).1) as Hlg
    by (rewrite Hres; reflexivity).
  assert (rootNode
          = match (@resolveHash Proto3.primitives ∅ Sample.fuel
                     (rootHash (Proto3.trieOf Proto3.aThenB))
                     (log (Proto3.trieOf Proto3.aThenB))).2 with
            | Ok (n, _) => n
            | _ => None
            end) as Hroot by (rewrite Hres; reflexivity).
  assert (r = match (@delete Proto3.primitives ∅ Sample.fuel rootNode
                       (bytesToNibbles [x12]) lg1).2 with
              | Ok r' => r'
              | _ => newDeleteResult None false
              end) as -> by (rewrite Hd; reflexivity).
  rewrite Hlg Hroot.
  split.
  - apply distinct_hashes_collisionFree.
    apply (bool_decide_unpack _).
    vm_compute. reflexivity.
  - vm_compute. reflexivity.
Defined.

Lemma Insert_Delete_empty_witness :
  ([x13] ≠ [] ∨ gocontent (Some (Sample.text "a")) ≠ [])
  ∧ ∃ t1,
      (@TrieInsert Proto3.primitives ∅ Sample.fuel (NewTrie (@EmptyHash Proto3.primitives)) [x13]
         (Some (Sample.text "a"))).2 = Ok t1
      ∧ ∃ fuel0, ∀ db' fuel', fuel0 ≤ fuel' →
          ∃ t2, (@TrieDelete Proto3.primitives db' fuel' t1 [x13]).2 = Ok t2
                ∧ rootHash t2 = @EmptyHash Proto3.primitives.
Proof.
  assert ([x13] ≠ [] ∨ gocontent (Some (Sample.text "a")) ≠ []) as Hfull
    by (left; discriminate).
  split; [exact Hfull|].
  exact (Insert_Delete_empty (H0:=proto3_fields) ∅ Sample.fuel
           [x13] (Some (Sample.text "a")) Hfull).
Defined.

Lemma Insert_empty_Get_witness :
  ∃ t1,
    (@TrieInsert Proto3.primitives ∅ Sample.fuel (NewTrie (@EmptyHash Proto3.primitives)) [x13]
       (Some (Sample.text "a"))).2 = Ok t1
    ∧ (rootHash t1 ≠ @EmptyHash Proto3.primitives →
       ∃ fuel0, ∀ db' fuel' key', fuel0 ≤ fuel' →
         ∃ v', (@TrieGet Proto3.primitives db' fuel' t1 key').2 = Ok v'
               ∧ gocontent v'
                 = if decide (key' = [x13])
                   then gocontent (Some (Sample.text "a")) else []).
Proof.
  exact (Insert_empty_Get (H0:=proto3_fields) ∅ Sample.fuel
           [x13] (Some (Sample.text "a"))).
Defined.

Lemma Insert_Delete_flag_only_witness :
  @marshalLeaf Proto3.primitives [] None = []
  ∧ @Keccak256Hash Proto3.primitives [leafType] ≠ @EmptyHash Proto3.primitives
  ∧ ∃ t1,
      (@TrieInsert Proto3.primitives ∅ Sample.fuel (NewTrie (@EmptyHash Proto3.primitives)) []
         None).2 = Ok t1
      ∧ rootHash t1 = @Keccak256Hash Proto3.primitives [leafType]
      ∧ ∀ db' fuel', 0 < fuel' →
          (@TrieDelete Proto3.primitives db' fuel' t1 []).2
          = Panic (Explicit "Delete: can't resolve rootHash").
Proof.
  assert (@marshalLeaf Proto3.primitives [] None = []) as Hnone
    by reflexivity.
  assert (@Keccak256Hash Proto3.primitives [leafType] ≠ @EmptyHash Proto3.primitives) as Hroot
    by (vm_compute; discriminate).
  split; [exact Hnone|]. split; [exact Hroot|].
  exact (Insert_Delete_flag_only (H:=Proto3.primitives) ∅ Sample.fuel None
           Hnone Hroot).
Defined.

(** ** The properties above on inputs *)

#[local] Existing Instance Sample.primitives.

Lemma Capped_inline_or_hash_witness :
  notHash Scenario.shortLeaf
  ∧ Encode Scenario.shortLeaf = Ok [x01; x00; x12; x01; x01; x02; x00]
  ∧ Capped Scenario.shortLeaf = Ok [x01; x00; x12; x01; x01; x02; x00].
Proof.
  assert (Encode Scenario.shortLeaf = Ok [x01; x00; x12; x01; x01; x02; x00])
    as He by (vm_compute; reflexivity).
  split; [exact I|]. split; [exact He|].
  destruct (Capped_inline_or_hash Scenario.shortLeaf _ I He)
    as (_ & _ & Hc & _).
  rewrite Hc. reflexivity.
Defined.

Lemma decodeNode_aborts_only_witness :
  decodeNode 1 [x00; leafWithPad]
  = Panic (SliceOutOfRange "decodeKey: nibbles[0:len(nibbles)-1]")
  ∧ SliceOutOfRange "decodeKey: nibbles[0:len(nibbles)-1]" ∈ decodeFaults.
Proof.
  assert (decodeNode 1 [x00; leafWithPad]
          = Panic (SliceOutOfRange "decodeKey: nibbles[0:len(nibbles)-1]"))
    as Hd by (vm_compute; reflexivity).
  split; [exact Hd|]. exact (decodeNode_aborts_only _ _ _ Hd).
Defined.

Lemma decodeNode_padded_empty_key_witness :
  [x00] ≠ [] ∧ unmarshalLeaf [x00] = Some ([], None)
  ∧ decodeNode 1 ([x00] ++ [leafWithPad])
    = Panic (SliceOutOfRange "decodeKey: nibbles[0:len(nibbles)-1]").
Proof.
  assert ([x00] ≠ []) as Hraw by discriminate.
  assert (unmarshalLeaf [x00] = Some ([], None)) as Hu
    by (vm_compute; reflexivity).
  split; [exact Hraw|]. split; [exact Hu|].
  exact (proj1 (decodeNode_padded_empty_key 0 [x00] Hraw) None Hu).
Defined.

Lemma decodeNode_seventeen_children_witness :
  marshalBranch (replicate 17 []) None ≠ []
  ∧ unmarshalBranch (marshalBranch (replicate 17 []) None)
    = Some (replicate 17 [], None)
  ∧ 16 < length (replicate 17 ([] : list byte))
  ∧ ∀ r, decodeNode Sample.fuel
           (marshalBranch (replicate 17 []) None ++ [branchType]) ≠ Ok r.
Proof.
  assert (marshalBranch (replicate 17 []) None ≠ []) as Hraw
    by (vm_compute; discriminate).
  assert (unmarshalBranch (marshalBranch (replicate 17 []) None)
          = Some (replicate 17 [], None)) as Hu by (vm_compute; reflexivity).
  assert (16 < length (replicate 17 ([] : list byte))) as Hl
    by (vm_compute; lia).
  split; [exact Hraw|]. split; [exact Hu|]. split; [exact Hl|].
  intros r.
  exact (decodeNode_seventeen_children Sample.fuel _ _ _ r Hraw Hu Hl).
Defined.

Lemma decodeNode_well_formed_witness :
  decodeNode 1 [x01; x00; x12; x01; x01; x02; x00]
  = Ok (Some (leafNode [x01; x02] (Some [x01; x02])), None)
  ∧ shaped (leafNode [x01; x02] (Some [x01; x02]))
  ∧ notHash (leafNode [x01; x02] (Some [x01; x02])).
Proof.
  assert (decodeNode 1 [x01; x00; x12; x01; x01; x02; x00]
          = Ok (Some (leafNode [x01; x02] (Some [x01; x02])), None)) as Hd
    by (vm_compute; reflexivity).
  split; [exact Hd|]. exact (decodeNode_well_formed _ _ _ _ Hd).
Defined.

Lemma decodeNode_Encode_witness :
  shaped Scenario.shortLeaf ∧ notHash Scenario.shortLeaf
  ∧ Encode Scenario.shortLeaf = Ok [x01; x00; x12; x01; x01; x02; x00]
  ∧ ∃ fuel0 d,
      img Scenario.shortLeaf d ∧ shaped d ∧ notHash d
      ∧ ∀ fuel, fuel0 ≤ fuel →
          decodeNode fuel [x01; x00; x12; x01; x01; x02; x00]
          = Ok (Some d, None).
Proof.
  assert (shaped Scenario.shortLeaf) as Hs
    by (repeat constructor).
  assert (Encode Scenario.shortLeaf = Ok [x01; x00; x12; x01; x01; x02; x00])
    as He by (vm_compute; reflexivity).
  split; [exact Hs|]. split; [exact I|]. split; [exact He|].
  exact (decodeNode_Encode (H0:=sample_laws) Scenario.shortLeaf _ Hs I He).
Defined.

Lemma merge_marks_deleted_witness :
  merge newUpdateLog (Keccak256Hash [x01; x00; x12; x01; x01; x02; x00])
    None [Scenario.shortLeaf] []
  = Ok (Log.delete newUpdateLog
          (Keccak256Hash [x01; x00; x12; x01; x01; x02; x00]))
  ∧ deleted (Log.delete newUpdateLog
               (Keccak256Hash [x01; x00; x12; x01; x01; x02; x00]))
      !! Keccak256Hash [x01; x00; x12; x01; x01; x02; x00] = Some [].
Proof.
  assert (merge newUpdateLog
            (Keccak256Hash [x01; x00; x12; x01; x01; x02; x00])
            None [Scenario.shortLeaf] []
          = Ok (Log.delete newUpdateLog
                  (Keccak256Hash [x01; x00; x12; x01; x01; x02; x00])))
    as Hm by (vm_compute; reflexivity).
  split; [exact Hm|].
  refine (proj1 (merge_marks_deleted _ _ _ _ _ _ Scenario.shortLeaf
                   (Keccak256Hash [x01; x00; x12; x01; x01; x02; x00])
                   [x01; x00; x12; x01; x01; x02; x00] Hm _ _ _ _ _)).
  - apply list_elem_of_singleton. reflexivity.
  - vm_compute. reflexivity.
  - vm_compute. reflexivity.
  - right. reflexivity.
  - intros n Hn. apply elem_of_nil in Hn. destruct Hn.
Defined.

Lemma merge_elsewhere_witness :
  merge newUpdateLog EmptyHash (Some Scenario.shortLeaf) []
    [Scenario.shortLeaf] = Ok Scenario.shortLeafJournal
  ∧ inserted Scenario.shortLeafJournal !! EmptyHash
    = inserted newUpdateLog !! EmptyHash.
Proof.
  assert (merge newUpdateLog EmptyHash (Some Scenario.shortLeaf) []
            [Scenario.shortLeaf] = Ok Scenario.shortLeafJournal) as Hm
    by (vm_compute; reflexivity).
  split; [exact Hm|].
  refine (proj1 (merge_elsewhere _ _ _ _ _ _ EmptyHash Hm _)).
  intros n Hn. apply list_elem_of_singleton in Hn. subst n.
  vm_compute. discriminate.
Defined.

Lemma copy_of_reachable_witness :
  reachable Scenario.usedJournal
  ∧ Log.copy Scenario.usedJournal = Scenario.usedJournal.
Proof.
  assert (reachable Scenario.usedJournal) as Hr
    by (apply reach_delete, reach_insert, reach_new).
  split; [exact Hr|].
  exact (proj2 (copy_of_reachable Scenario.usedJournal Hr)).
Defined.

Lemma decodeNode_branch_last_error_witness :
  marshalBranch [[x03; x03]; [x01; x00; x12; x01; x01; x02; x00]] None ≠ []
  ∧ unmarshalBranch
      (marshalBranch [[x03; x03]; [x01; x00; x12; x01; x01; x02; x00]] None)
    = Some ([[x03; x03]] ++ [x01; x00; x12; x01; x01; x02; x00] :: [], None)
  ∧ decodeNode 1 [x03; x03] = Ok (None, Some (ErrUnknownNodeType x03))
  ∧ ∃ child,
      decodeNode 1 [x01; x00; x12; x01; x01; x02; x00] = Ok (child, None).
Proof.
  assert (marshalBranch [[x03; x03]; [x01; x00; x12; x01; x01; x02; x00]]
            None ≠ []) as Hraw by (vm_compute; discriminate).
  assert (unmarshalBranch
            (marshalBranch
               [[x03; x03]; [x01; x00; x12; x01; x01; x02; x00]] None)
          = Some ([[x03; x03]] ++ [x01; x00; x12; x01; x01; x02; x00] :: [],
                  None)) as Hu by (vm_compute; reflexivity).
  split; [exact Hraw|]. split; [exact Hu|].
  split; [vm_compute; reflexivity|].
  refine (decodeNode_branch_last_error 1 _ _ _ _ None
            (match decodeNode 2
                     (marshalBranch
                        [[x03; x03]; [x01; x00; x12; x01; x01; x02; x00]]
                        None ++ [branchType]) with
             | Ok (n, _) => n
             | _ => None
             end) None Hraw Hu _ _ _ _).
  - vm_compute. lia.
  - vm_compute. lia.
  - constructor.
  - vm_compute. reflexivity.
Defined.

Lemma Get_aborts_only_witness :
  (TrieGet ∅ Sample.fuel Scenario.dangling (Sample.text "do")).2
  = Panic (Explicit "fetchFromDB: get from db failed")
  ∧ Explicit "fetchFromDB: get from db failed" ∈ getFaults.
Proof.
  assert ((TrieGet ∅ Sample.fuel Scenario.dangling (Sample.text "do")).2
          = Panic (Explicit "fetchFromDB: get from db failed")) as Hg
    by (vm_compute; reflexivity).
  split; [exact Hg|]. exact (Get_aborts_only _ _ _ _ _ Hg).
Defined.

Lemma Insert_aborts_only_witness :
  (TrieInsert ∅ Sample.fuel Scenario.dangling (Sample.text "dog")
     (Some (Sample.text "bark"))).2
  = Panic (Explicit "fetchFromDB: get from db failed")
  ∧ Explicit "fetchFromDB: get from db failed" ∈ insertFaults.
Proof.
  assert ((TrieInsert ∅ Sample.fuel Scenario.dangling (Sample.text "dog")
             (Some (Sample.text "bark"))).2
          = Panic (Explicit "fetchFromDB: get from db failed")) as Hi
    by (vm_compute; reflexivity).
  split; [exact Hi|]. exact (Insert_aborts_only _ _ _ _ _ _ Hi).
Defined.

Lemma Delete_aborts_only_witness :
  (TrieDelete ∅ Sample.fuel Scenario.dangling (Sample.text "do")).2
  = Panic (Explicit "fetchFromDB: get from db failed")
  ∧ Explicit "fetchFromDB: get from db failed" ∈ deleteFaults.
Proof.
  assert ((TrieDelete ∅ Sample.fuel Scenario.dangling (Sample.text "do")).2
          = Panic (Explicit "fetchFromDB: get from db failed")) as Hd
    by (vm_compute; reflexivity).
  split; [exact Hd|]. exact (Delete_aborts_only _ _ _ _ _ Hd).
Defined.
